(** * Scheduling simulators: CFS.c, DPS-DTQ.c, reference-paper-algo.c

    A shallow embedding of the three scheduling simulators of the
    repository and the properties of their selection structure, quantum
    computation, event loop and metrics.

    Conventions of the embedding.
    - A C [int] is a [Z].  Signed overflow is undefined in C; the model
      covers the executions in which no [int] overflows.
    - A C [double] is a primitive binary64 [float]; a C [float] is a
      binary32 value of [spec_float] (precision 24, emax 128).  Every
      operation rounds once to the nearest value of its own type, ties
      to even (no excess precision, no fused multiply-add); [pow(x, 2)]
      is [x * x]; a cast to [int] of a NaN or of a value out of range
      gives [INT_MIN], as on x86-64.
    - A [Process *] into the global table [processes] is the index of
      the entry (a [nat]); the table itself is a [list Process] held in
      the simulator state, so a mutation through one pointer is seen
      through every other pointer to the same entry.
    - A [while] loop is a function taking a number of iterations still
      allowed (fuel) and returning [None] when it runs out. *)

From Stdlib Require Import ZArith List Bool Lia Floats Permutation Sorted.
Import ListNotations.

#[local] Set Warnings "-inexact-float".
#[local] Open Scope Z_scope.

(** ** C arithmetic on [double] *)

Module CDouble.

(** [(double) z] for an [int] [z]. *)
Definition of_int (z : Z) : float :=
  if z <? 0 then PrimFloat.opp (PrimFloat.of_uint63 (Uint63.of_Z (- z)))
  else PrimFloat.of_uint63 (Uint63.of_Z z).

(** The integer part of a finite binary64 value, rounding toward zero. *)
Definition trunc_SF (x : spec_float) : option Z :=
  match x with
  | S754_zero _ => Some 0
  | S754_finite s m e =>
      let v := match e with
               | Z0 => Zpos m
               | Zpos _ => Z.shiftl (Zpos m) e
               | Zneg _ => Z.shiftr (Zpos m) (- e)
               end in
      Some (if s then - v else v)
  | _ => None
  end.

(** [(int) d].  The conversion of a NaN or an infinity is undefined in
    C; x86-64 returns [INT_MIN], which the model follows. *)
Definition to_int (d : float) : Z :=
  match trunc_SF (Prim2SF d) with
  | Some v => v
  | None => - 2147483648
  end.

(** [fmax] and [fmin] of <math.h>: a NaN argument is treated as missing. *)
Definition fmax (x y : float) : float :=
  if PrimFloat.is_nan x then y
  else if PrimFloat.is_nan y then x
  else if PrimFloat.ltb x y then y else x.

Definition fmin (x y : float) : float :=
  if PrimFloat.is_nan x then y
  else if PrimFloat.is_nan y then x
  else if PrimFloat.ltb y x then y else x.

End CDouble.

(** ** The Gantt chart (shared by CFS.c and DPS-DTQ.c) *)

Module Gantt.

Definition MAX_GANTT_CHART_SIZE : nat := 1000.

Record GanttChartItem := mkItem {
  process_id : Z;
  start_time : Z;
  end_time : Z
}.

(** [addToGanttChart]: the items are kept in emission order; a full
    chart drops the item (the source prints a message). *)
Definition addToGanttChart (chart : list GanttChartItem)
    (pid start_t end_t : Z) : list GanttChartItem :=
  if (length chart <? MAX_GANTT_CHART_SIZE)%nat
  then chart ++ [mkItem pid start_t end_t]
  else chart.

(** [gantt_chart[gantt_chart_size - 1].end_time = t]. *)
Definition set_last_end (chart : list GanttChartItem) (t : Z)
    : list GanttChartItem :=
  match rev chart with
  | [] => chart
  | it :: before => rev before ++ [mkItem (process_id it) (start_time it) t]
  end.

(** The instant a chart ends at when its intervals follow each other
    from [start], none with its end before its start; [None] when they
    do not. *)
Fixpoint chain (start : Z) (chart : list GanttChartItem) : option Z :=
  match chart with
  | [] => Some start
  | it :: rest =>
      if (start_time it =? start) && (start_time it <=? end_time it)
      then chain (end_time it) rest
      else None
  end.

Definition is_idle (it : GanttChartItem) : bool := process_id it =? -1.

(** No idle interval is followed by an idle interval. *)
Fixpoint no_double_idle (chart : list GanttChartItem) : bool :=
  match chart with
  | a :: rest =>
      match rest with
      | b :: _ => negb (is_idle a && is_idle b)
      | [] => true
      end && no_double_idle rest
  | [] => true
  end.

(** The last interval is an idle one. *)
Definition last_idle (chart : list GanttChartItem) : bool :=
  match rev chart with
  | it :: _ => is_idle it
  | [] => false
  end.

End Gantt.

(** ** CFS.c *)

Module CFS.
Import CDouble Gantt.

Definition MIN_NICE_VALUE : Z := -20.
Definition MAX_NICE_VALUE : Z := 19.

Record Process := mkProcess {
  id : Z;
  arrival_time : Z;
  burst_time : Z;
  remaining_burst : Z;
  completion_time : Z;
  waiting_time : Z;
  turnaround_time : Z;
  response_time : Z;
  first_execution_time : Z;
  deadline : Z;
  criticality : Z;
  period : Z;
  nice : Z;
  vruntime : float;
  weight : float;
  executed : bool;
  completed : bool
}.

Record CFSParams := mkParams {
  min_granularity : float;
  latency : float;
  target_latency : float;
  total_weight : Z          (* declared [int] in the source *)
}.

(** The tree of the source.  [parent] and [color] are written by
    [createNode] and [insert] and never read; the model leaves them out. *)
Inductive RBNode :=
| NULL
| Node (process : nat) (left right : RBNode).

Definition createNode (p : nat) : RBNode := Node p NULL NULL.

Section Tree.
(** The table the [Process *] of the nodes point into. *)
Variable procs : list Process.

Definition vruntime_at (i : nat) : float :=
  match nth_error procs i with
  | Some p => vruntime p
  | None => 0%float
  end.

Fixpoint insert (root : RBNode) (p : nat) : RBNode :=
  match root with
  | NULL => createNode p
  | Node q l r =>
      if PrimFloat.ltb (vruntime_at p) (vruntime_at q)
      then Node q (insert l p) r
      else Node q l (insert r p)
  end.
End Tree.

(** [extractMinVruntime]: the leftmost node is unlinked and its right
    subtree takes its place. *)
Fixpoint extractMinVruntime (root : RBNode) : option (nat * RBNode) :=
  match root with
  | NULL => None
  | Node q l r =>
      match extractMinVruntime l with
      | None => Some (q, r)
      | Some (p, l') => Some (p, Node q l' r)
      end
  end.

(** The entries of the tree in the order [extractMinVruntime] returns them. *)
Fixpoint inorder (t : RBNode) : list nat :=
  match t with
  | NULL => []
  | Node q l r => inorder l ++ q :: inorder r
  end.

(** [calculateWeight]. *)
Definition nice_of_criticality (c : Z) : Z :=
  let n := MAX_NICE_VALUE - c * 3 in
  let n := if n <? MIN_NICE_VALUE then MIN_NICE_VALUE else n in
  if n >? MAX_NICE_VALUE then MAX_NICE_VALUE else n.

Definition weight_of_nice (n : Z) : float :=
  (1024.0 / (0.8 * of_int n + 1024))%float.

(** One line of the input file:
    id, arrival_time, burst_time, deadline, criticality, period, nice. *)
Definition Input : Type := Z * Z * Z * Z * Z * Z * Z.

(** The initialisation of one entry by [readProcessesFromFile]. *)
Definition init_process (x : Input) : Process :=
  let '(i, a, b, d, c, p, _) := x in
  let n := nice_of_criticality c in
  mkProcess i a b b 0 0 0 0 (-1) d c p n 0%float (weight_of_nice n) false false.

Record State := mkState {
  processes : list Process;
  root : RBNode;
  gantt_chart : list GanttChartItem;
  current_time : Z;
  completed_processes : Z;
  idle_time : Z;
  cfs : CFSParams
}.

Definition num (s : State) : nat := length (processes s).

Definition update (i : nat) (f : Process -> Process) (ps : list Process)
    : list Process :=
  match nth_error ps i with
  | Some p => firstn i ps ++ f p :: skipn (S i) ps
  | None => ps
  end.

Definition set_vruntime (v : float) (p : Process) : Process :=
  mkProcess (id p) (arrival_time p) (burst_time p) (remaining_burst p)
    (completion_time p) (waiting_time p) (turnaround_time p)
    (response_time p) (first_execution_time p) (deadline p)
    (criticality p) (period p) (nice p) v (weight p) (executed p)
    (completed p).

Definition set_first_execution (t : Z) (p : Process) : Process :=
  mkProcess (id p) (arrival_time p) (burst_time p) (remaining_burst p)
    (completion_time p) (waiting_time p) (turnaround_time p)
    (response_time p) t (deadline p)
    (criticality p) (period p) (nice p) (vruntime p) (weight p) true
    (completed p).

Definition set_remaining_burst (r : Z) (p : Process) : Process :=
  mkProcess (id p) (arrival_time p) (burst_time p) r
    (completion_time p) (waiting_time p) (turnaround_time p)
    (response_time p) (first_execution_time p) (deadline p)
    (criticality p) (period p) (nice p) (vruntime p) (weight p)
    (executed p) (completed p).

(** The assignments of the branch [remaining_burst <= 0]. *)
Definition complete_at (t : Z) (p : Process) : Process :=
  let ta := t - arrival_time p in
  mkProcess (id p) (arrival_time p) (burst_time p) (remaining_burst p)
    t (ta - burst_time p) ta
    (first_execution_time p - arrival_time p) (first_execution_time p)
    (deadline p) (criticality p) (period p) (nice p) (vruntime p)
    (weight p) (executed p) true.

(** Body of the first [for] loop of [runCFS] (processes arriving at
    [current_time]). *)
Definition arrive_now (s : State) (i : nat) : State :=
  match nth_error (processes s) i with
  | Some p =>
      if (arrival_time p =? current_time s) && negb (completed p) then
        let ps := if negb (executed p)
                  then update i (set_vruntime 0%float) (processes s)
                  else processes s in
        mkState ps (insert ps (root s) i) (gantt_chart s) (current_time s)
          (completed_processes s) (idle_time s) (cfs s)
      else s
  | None => s
  end.

(** Body of the last [for] loop of [runCFS] (processes that arrived
    during the slice of length [execution_time] that just ended). *)
Definition arrive_during (execution_time : Z) (s : State) (i : nat) : State :=
  match nth_error (processes s) i with
  | Some p =>
      if negb (executed p) && negb (completed p)
         && (arrival_time p >? current_time s - execution_time)
         && (arrival_time p <=? current_time s) then
        let ps := update i (set_vruntime 0%float) (processes s) in
        mkState ps (insert ps (root s) i) (gantt_chart s) (current_time s)
          (completed_processes s) (idle_time s) (cfs s)
      else s
  | None => s
  end.

(** The branch [root == NULL] of the loop body. *)
Definition idle_step (s : State) : State :=
  let t := current_time s + 1 in
  let idle := idle_time s + 1 in
  let chart := if idle =? 1
               then addToGanttChart (gantt_chart s) (-1) (t - 1) t
               else set_last_end (gantt_chart s) t in
  mkState (processes s) (root s) chart t (completed_processes s) idle (cfs s).

(** The time slice granted to process [p]. *)
Definition timeslice_of (c : CFSParams) (target : float) (p : Process) : float :=
  let ts := (weight p / of_int (total_weight c) * target)%float in
  if PrimFloat.ltb ts 1%float then 1%float else ts.

Definition target_latency_of (c : CFSParams) (n completed_n : Z) : float :=
  fmax (min_granularity c * of_int (n - completed_n))%float (latency c).

Definition execution_time_of (c : CFSParams) (target : float) (p : Process) : Z :=
  to_int (fmin (timeslice_of c target p) (of_int (remaining_burst p))).

(** One dispatch of process [cur], already extracted, [rest] being the
    tree left: the loop body from the computation of the time slice to
    the test of completion.  The result carries [execution_time]. *)
Definition execute (s : State) (cur : nat) (rest : RBNode) : State * Z :=
  match nth_error (processes s) cur with
  | None => (s, 0)
  | Some p =>
      let n := Z.of_nat (num s) in
      let target := target_latency_of (cfs s) n (completed_processes s) in
      let c := mkParams (min_granularity (cfs s)) (latency (cfs s)) target
                 (total_weight (cfs s)) in
      let execution_time := execution_time_of c target p in
      let p := if negb (executed p)
               then set_first_execution (current_time s) p else p in
      let chart := addToGanttChart (gantt_chart s) (id p) (current_time s)
                     (current_time s + execution_time) in
      let p := set_remaining_burst (remaining_burst p - execution_time) p in
      let p := set_vruntime
                 (vruntime p + of_int execution_time / weight p)%float p in
      let t := current_time s + execution_time in
      if remaining_burst p <=? 0 then
        let ps := update cur (fun _ => complete_at t p) (processes s) in
        (mkState ps rest chart t (completed_processes s + 1) 0 c,
         execution_time)
      else
        let ps := update cur (fun _ => p) (processes s) in
        (mkState ps (insert ps rest cur) chart t (completed_processes s) 0 c,
         execution_time)
  end.

(** The last [for] loop of the loop body. *)
Definition late_arrivals (execution_time : Z) (s : State) : State :=
  fold_left (arrive_during execution_time) (seq 0 (num s)) s.

Definition dispatch (s : State) (cur : nat) (rest : RBNode) : State :=
  let '(s', execution_time) := execute s cur rest in
  late_arrivals execution_time s'.

(** The first [for] loop of the loop body. *)
Definition arrivals (s : State) : State :=
  fold_left arrive_now (seq 0 (num s)) s.

(** One iteration of [while (completed_processes < n)]. *)
Definition iteration (s : State) : State :=
  let s := arrivals s in
  match extractMinVruntime (root s) with
  | None => idle_step s
  | Some (cur, rest) => dispatch s cur rest
  end.

Fixpoint loop (fuel : nat) (s : State) : option State :=
  if completed_processes s <? Z.of_nat (num s) then
    match fuel with
    | O => None
    | S fuel' => loop fuel' (iteration s)
    end
  else Some s.

(** The sum of the weights, accumulated in a [double] and stored into
    the [int] field [cfs->total_weight]. *)
Definition initial_total_weight (ps : list Process) : Z :=
  to_int (fold_left (fun acc p => (acc + weight p)%float) ps 0%float).

(** The state [runCFS] starts its loop in, for the parameters [main] sets. *)
Definition initial_state (input : list Input) : State :=
  let ps := map init_process input in
  mkState ps NULL [] 0 0 0
    (mkParams 1%float 20%float 20%float (initial_total_weight ps)).

Definition runCFS (fuel : nat) (input : list Input) : option State :=
  loop fuel (initial_state input).

(** The states of the first [k] iterations, for traces. *)
Fixpoint iterate (k : nat) (s : State) : State :=
  match k with
  | O => s
  | S k' => iterate k' (iteration s)
  end.

End CFS.

(** ** DPS-DTQ.c *)

Module DPS.
Import CDouble Gantt.

Definition MAX_QUEUE_SIZE : nat := 100.

Record Process := mkProcess {
  id : Z;
  arrival_time : Z;
  burst_time : Z;
  remaining_burst : Z;
  completion_time : Z;
  waiting_time : Z;
  turnaround_time : Z;
  response_time : Z;
  first_execution_time : Z;
  deadline : Z;
  criticality : Z;
  period : Z;
  system_priority : Z;
  executed : bool;
  completed : bool
}.

Record DynamicQuantum := mkDTQ {
  base : float;
  current : float;
  load_factor : float;
  criticality_weight : float;
  deadline_weight : float;
  aging_weight : float;
  priority_weight : float
}.

(** The ready queue: the pointers held by the circular buffer, from
    [front] to [rear]. *)
Definition ReadyQueue : Type := list nat.

Definition isQueueEmpty (q : ReadyQueue) : bool := (length q =? 0)%nat.
Definition isQueueFull (q : ReadyQueue) : bool :=
  (length q =? MAX_QUEUE_SIZE)%nat.

(** [enqueue]: a full queue drops the process (the source prints a
    message). *)
Definition enqueue (q : ReadyQueue) (p : nat) : ReadyQueue :=
  if isQueueFull q then q else q ++ [p].

Definition dequeue (q : ReadyQueue) : option (nat * ReadyQueue) :=
  match q with
  | [] => None
  | p :: q' => Some (p, q')
  end.

Definition set_system_priority (v : Z) (p : Process) : Process :=
  mkProcess (id p) (arrival_time p) (burst_time p) (remaining_burst p)
    (completion_time p) (waiting_time p) (turnaround_time p)
    (response_time p) (first_execution_time p) (deadline p)
    (criticality p) (period p) v (executed p) (completed p).

Definition set_first_execution (t : Z) (p : Process) : Process :=
  mkProcess (id p) (arrival_time p) (burst_time p) (remaining_burst p)
    (completion_time p) (waiting_time p) (turnaround_time p)
    (response_time p) t (deadline p)
    (criticality p) (period p) (system_priority p) true (completed p).

Definition set_remaining_burst (r : Z) (p : Process) : Process :=
  mkProcess (id p) (arrival_time p) (burst_time p) r
    (completion_time p) (waiting_time p) (turnaround_time p)
    (response_time p) (first_execution_time p) (deadline p)
    (criticality p) (period p) (system_priority p) (executed p)
    (completed p).

(** The assignments of the branch [remaining_burst == 0]. *)
Definition complete_at (t : Z) (p : Process) : Process :=
  let ta := t - arrival_time p in
  mkProcess (id p) (arrival_time p) (burst_time p) (remaining_burst p)
    t (ta - burst_time p) ta
    (first_execution_time p - arrival_time p) (first_execution_time p)
    (deadline p) (criticality p) (period p) (system_priority p)
    (executed p) true.

Definition set_current (v : float) (d : DynamicQuantum) : DynamicQuantum :=
  mkDTQ (base d) v (load_factor d) (criticality_weight d)
    (deadline_weight d) (aging_weight d) (priority_weight d).

Definition set_load_factor (v : float) (d : DynamicQuantum) : DynamicQuantum :=
  mkDTQ (base d) (current d) v (criticality_weight d)
    (deadline_weight d) (aging_weight d) (priority_weight d).

(** [calculateAgingFactor]. *)
Definition calculateAgingFactor (p : Process) (current_time : Z) : float :=
  let waiting := current_time - arrival_time p
                 - (burst_time p - remaining_burst p) in
  let aging := if waiting >? 0 then (of_int waiting / 10.0)%float
               else 0.0%float in
  if PrimFloat.ltb 1.0%float aging then 1.0%float else aging.

Definition criticality_component (p : Process) : float :=
  (of_int (criticality p) / 10.0)%float.

Definition deadline_component (p : Process) (current_time : Z) : float :=
  if deadline p >? 0 then
    let time_to_deadline := deadline p - current_time in
    if time_to_deadline <=? 0 then 1.0%float
    else (1.0 / (1.0 + of_int time_to_deadline))%float
  else 0.0%float.

Definition system_priority_component (p : Process) : float :=
  (of_int (system_priority p) / 10.0)%float.

(** The value of the local [priority] of [calculateDynamicPriority].
    ([period_component] is computed by the source and not used.) *)
Definition dynamic_priority (p : Process) (current_time : Z)
    (dtq : DynamicQuantum) : float :=
  (criticality_weight dtq * criticality_component p
   + deadline_weight dtq * deadline_component p current_time
   + aging_weight dtq * calculateAgingFactor p current_time
   + priority_weight dtq * system_priority_component p)%float.

(** [calculateDynamicPriority]: it writes [dtq->current] and overwrites
    [process->system_priority]. *)
Definition calculateDynamicPriority (p : Process) (current_time : Z)
    (dtq : DynamicQuantum) : Process * DynamicQuantum :=
  let priority := dynamic_priority p current_time dtq in
  let cur := (base dtq * (1.0 + priority)
              * (1.0 - 0.5 * load_factor dtq))%float in
  (set_system_priority (to_int (priority * 100)%float) p,
   set_current cur dtq).

Definition update (i : nat) (f : Process -> Process) (ps : list Process)
    : list Process :=
  match nth_error ps i with
  | Some p => firstn i ps ++ f p :: skipn (S i) ps
  | None => ps
  end.

(** [calculateDynamicPriority] applied through the pointer [i]. *)
Definition calc_at (current_time : Z)
    (st : list Process * DynamicQuantum) (i : nat)
    : list Process * DynamicQuantum :=
  let '(ps, dtq) := st in
  match nth_error ps i with
  | Some p =>
      let '(p', dtq') := calculateDynamicPriority p current_time dtq in
      (update i (fun _ => p') ps, dtq')
  | None => st
  end.

Section Sort.
Variable ps : list Process.

Definition system_priority_at (i : nat) : Z :=
  match nth_error ps i with
  | Some p => system_priority p
  | None => 0
  end.

(** The inner loop of the bubble sort: [k] comparisons of neighbours,
    from the front of the queue. *)
Fixpoint bubble_pass (k : nat) (q : ReadyQueue) : ReadyQueue :=
  match k, q with
  | S k', a :: b :: r =>
      if system_priority_at a <? system_priority_at b
      then b :: bubble_pass k' (a :: r)
      else a :: bubble_pass k' (b :: r)
  | _, _ => q
  end.

(** The outer loop: pass [i] makes [size - i - 1] comparisons. *)
Definition bubble_sort (q : ReadyQueue) : ReadyQueue :=
  fold_left (fun q i => bubble_pass (length q - i - 1) q)
    (seq 0 (length q - 1)) q.
End Sort.

(** [sortQueueByPriority]. *)
Definition sortQueueByPriority (q : ReadyQueue) (current_time : Z)
    (ps : list Process) (dtq : DynamicQuantum)
    : ReadyQueue * list Process * DynamicQuantum :=
  let '(ps', dtq') := fold_left (calc_at current_time) q (ps, dtq) in
  (bubble_sort ps' q, ps', dtq').

Definition Input : Type := Z * Z * Z * Z * Z * Z * Z.

(** The initialisation of one entry by [readProcessesFromFile]. *)
Definition init_process (x : Input) : Process :=
  let '(i, a, b, d, c, p, sp) := x in
  mkProcess i a b b 0 0 0 0 (-1) d c p sp false false.

Record State := mkState {
  processes : list Process;
  ready_queue : ReadyQueue;
  gantt_chart : list GanttChartItem;
  current_time : Z;
  completed_processes : Z;
  idle_time : Z;
  dtq : DynamicQuantum
}.

Definition num (s : State) : nat := length (processes s).

Definition with_queue (q : ReadyQueue) (s : State) : State :=
  mkState (processes s) q (gantt_chart s) (current_time s)
    (completed_processes s) (idle_time s) (dtq s).

(** Body of the first [for] loop of [runDPS_DTQ]. *)
Definition arrive_now (s : State) (i : nat) : State :=
  match nth_error (processes s) i with
  | Some p =>
      if arrival_time p =? current_time s
      then with_queue (enqueue (ready_queue s) i) s
      else s
  | None => s
  end.

(** Body of the last [for] loop of [runDPS_DTQ]. *)
Definition arrive_during (execution_time : Z) (s : State) (i : nat) : State :=
  match nth_error (processes s) i with
  | Some p =>
      if negb (executed p)
         && (arrival_time p >? current_time s - execution_time)
         && (arrival_time p <=? current_time s)
      then with_queue (enqueue (ready_queue s) i) s
      else s
  | None => s
  end.

Definition idle_step (s : State) : State :=
  let t := current_time s + 1 in
  let idle := idle_time s + 1 in
  let chart := if idle =? 1
               then addToGanttChart (gantt_chart s) (-1) (t - 1) t
               else set_last_end (gantt_chart s) t in
  mkState (processes s) (ready_queue s) chart t (completed_processes s)
    idle (dtq s).

Definition time_quantum_of (d : DynamicQuantum) : Z :=
  let q := to_int (current d) in
  if q <? 1 then 1 else q.

(** The loop body from the update of the load factor on, for a ready
    queue that is not empty. *)
Definition dispatch (s : State) : State :=
  let n := Z.of_nat (num s) in
  let d := set_load_factor
             (of_int (Z.of_nat (length (ready_queue s))) / of_int n)%float
             (dtq s) in
  let '(q, ps, d) :=
    sortQueueByPriority (ready_queue s) (current_time s) (processes s) d in
  match dequeue q with
  | None => s
  | Some (cur, q) =>
      match nth_error ps cur with
      | None => s
      | Some p =>
          let p := if negb (executed p)
                   then set_first_execution (current_time s) p else p in
          let '(p, d) := calculateDynamicPriority p (current_time s) d in
          let time_quantum := time_quantum_of d in
          let execution_time :=
            if remaining_burst p <? time_quantum
            then remaining_burst p else time_quantum in
          let chart := addToGanttChart (gantt_chart s) (id p)
                         (current_time s) (current_time s + execution_time) in
          let p := set_remaining_burst (remaining_burst p - execution_time) p in
          let t := current_time s + execution_time in
          if remaining_burst p =? 0 then
            fold_left (arrive_during execution_time) (seq 0 (num s))
              (mkState (update cur (fun _ => complete_at t p) ps) q chart t
                 (completed_processes s + 1) 0 d)
          else
            fold_left (arrive_during execution_time) (seq 0 (num s))
              (mkState (update cur (fun _ => p) ps) (enqueue q cur) chart t
                 (completed_processes s) 0 d)
      end
  end.

(** The first [for] loop of the loop body. *)
Definition arrivals (s : State) : State :=
  fold_left arrive_now (seq 0 (num s)) s.

(** One iteration of [while (completed_processes < n)]. *)
Definition iteration (s : State) : State :=
  let s := arrivals s in
  if isQueueEmpty (ready_queue s) then idle_step s else dispatch s.

Fixpoint loop (fuel : nat) (s : State) : option State :=
  if completed_processes s <? Z.of_nat (num s) then
    match fuel with
    | O => None
    | S fuel' => loop fuel' (iteration s)
    end
  else Some s.

(** The parameters [main] sets. *)
Definition initial_dtq : DynamicQuantum :=
  mkDTQ 4.0%float 4.0%float 0.0%float
    0.35%float 0.30%float 0.25%float 0.10%float.

Definition initial_state (input : list Input) : State :=
  mkState (map init_process input) [] [] 0 0 0 initial_dtq.

Definition runDPS_DTQ (fuel : nat) (input : list Input) : option State :=
  loop fuel (initial_state input).

Fixpoint iterate (k : nat) (s : State) : State :=
  match k with
  | O => s
  | S k' => iterate k' (iteration s)
  end.

End DPS.

(** ** C arithmetic on [float] (binary32) *)

Module CFloat.

Definition prec32 : Z := 24.
Definition emax32 : Z := 128.

Definition float32 : Type := spec_float.

(** [(float) z] for an [int] [z]. *)
Definition of_int (z : Z) : float32 := binary_normalize prec32 emax32 z 0 false.

(** The conversion of a [double] to [float] (round to nearest even). *)
Definition of_double (d : float) : float32 :=
  match Prim2SF d with
  | S754_finite s m e =>
      binary_normalize prec32 emax32 (cond_Zopp s (Zpos m)) e s
  | x => x
  end.

Definition add : float32 -> float32 -> float32 := SFadd prec32 emax32.
Definition div : float32 -> float32 -> float32 := SFdiv prec32 emax32.

(** [(int) x], as [CDouble.to_int]. *)
Definition to_int (x : float32) : Z :=
  match CDouble.trunc_SF x with
  | Some v => v
  | None => - 2147483648
  end.

End CFloat.

(** ** reference-paper-algo.c *)

Module SRPT.

Record Process := mkProcess {
  pid : Z;
  arrival_time : Z;
  burst_time : Z;
  deadline : Z;
  criticality : Z;
  period : Z;
  nice : Z;
  remaining_time : Z;
  completed : bool;
  start_time : Z;
  completion_time : Z;
  in_ready_queue : bool
}.

(** [compareRemainingTime]. *)
Definition compareRemainingTime (p1 p2 : Process) : Z :=
  remaining_time p1 - remaining_time p2.

(** The inner loop of the sort in [median] for a fixed [i]: [x] is
    [temp[i]], the list is [temp[i+1 ..]]; a swap leaves the old
    [temp[i]] at position [j]. *)
Fixpoint exchange_pass (x : Z) (rest : list Z) : Z * list Z :=
  match rest with
  | [] => (x, [])
  | y :: r =>
      if x >? y
      then let '(m, r') := exchange_pass y r in (m, x :: r')
      else let '(m, r') := exchange_pass x r in (m, y :: r')
  end.

(** The outer loop, [k] iterations from the current position. *)
Fixpoint exchange_sort_from (k : nat) (temp : list Z) : list Z :=
  match k, temp with
  | S k', x :: r =>
      let '(m, r') := exchange_pass x r in m :: exchange_sort_from k' r'
  | _, _ => temp
  end.

Definition exchange_sort (arr : list Z) : list Z :=
  exchange_sort_from (length arr) arr.

(** [median]. *)
Definition median (arr : list Z) : CFloat.float32 :=
  let n := length arr in
  let temp := exchange_sort arr in
  if (n mod 2 =? 0)%nat
  then let two := nth (n / 2) temp 0 + nth (n / 2 - 1) temp 0 in
       CFloat.of_double (CDouble.of_int two / 2.0)%float
  else CFloat.of_int (nth (n / 2) temp 0).

(** [mean]. *)
Definition mean (arr : list Z) : CFloat.float32 :=
  let sum := fold_left Z.add arr 0 in
  CFloat.div (CFloat.of_int sum) (CFloat.of_int (Z.of_nat (length arr))).

(** The time quantum of one scheduling decision, from [bt_list]. *)
Definition time_quantum (bt_list : list Z) : Z :=
  let mean_bt := mean bt_list in
  let median_bt := median bt_list in
  let q := CFloat.to_int
             (CFloat.div (CFloat.add mean_bt median_bt) (CFloat.of_int 2)) in
  if q <? 1 then 1 else q.

Definition Input : Type := Z * Z * Z * Z * Z * Z * Z.

(** The initialisation of one entry by [main]. *)
Definition init_process (x : Input) : Process :=
  let '(i, a, b, d, c, p, ni) := x in
  mkProcess i a b d c p ni b false (-1) 0 false.

(** The ready queue holds copies of the table entries. *)
Record State := mkState {
  processes : list Process;
  ready_queue : list Process;
  current_time : Z;
  completed_processes : Z
}.

Definition num (s : State) : nat := length (processes s).

(** [addToReadyQueue], for a queue of capacity [capacity]. *)
Definition addToReadyQueue (capacity : nat) (q : list Process) (p : Process)
    : list Process :=
  if (length q <? capacity)%nat then q ++ [p] else q.

(** [removeFromReadyQueue(queue, 0)]. *)
Definition removeFromReadyQueue (q : list Process)
    : option (Process * list Process) :=
  match q with
  | [] => None
  | p :: q' => Some (p, q')
  end.

Definition set_in_ready_queue (b : bool) (p : Process) : Process :=
  mkProcess (pid p) (arrival_time p) (burst_time p) (deadline p)
    (criticality p) (period p) (nice p) (remaining_time p) (completed p)
    (start_time p) (completion_time p) b.

Definition set_start_time (t : Z) (p : Process) : Process :=
  mkProcess (pid p) (arrival_time p) (burst_time p) (deadline p)
    (criticality p) (period p) (nice p) (remaining_time p) (completed p)
    t (completion_time p) (in_ready_queue p).

Definition set_remaining_time (r : Z) (p : Process) : Process :=
  mkProcess (pid p) (arrival_time p) (burst_time p) (deadline p)
    (criticality p) (period p) (nice p) r (completed p)
    (start_time p) (completion_time p) (in_ready_queue p).

(** The assignments of the branch "process completes execution". *)
Definition complete_at (t : Z) (p : Process) : Process :=
  mkProcess (pid p) (arrival_time p) (burst_time p) (deadline p)
    (criticality p) (period p) (nice p) 0 true
    (start_time p) t false.

Definition update (i : nat) (f : Process -> Process) (ps : list Process)
    : list Process :=
  match nth_error ps i with
  | Some p => firstn i ps ++ f p :: skipn (S i) ps
  | None => ps
  end.

(** Step 1 of the loop body, for the table entry [i]. *)
Definition enter_arrived (s : State) (i : nat) : State :=
  match nth_error (processes s) i with
  | Some p =>
      if (arrival_time p <=? current_time s)
         && negb (in_ready_queue p) && negb (completed p)
      then mkState (update i (set_in_ready_queue true) (processes s))
             (addToReadyQueue (num s) (ready_queue s) p)
             (current_time s) (completed_processes s)
      else s
  | None => s
  end.

(** The search of the table for the pid of the dispatched copy. *)
Fixpoint find_pid (x : Z) (ps : list Process) (i : nat) : option nat :=
  match ps with
  | [] => None
  | p :: ps' => if pid p =? x then Some i else find_pid x ps' (S i)
  end.

(** Step 1 of the loop body. *)
Definition arrivals (s : State) : State :=
  fold_left enter_arrived (seq 0 (num s)) s.

Section Loop.
(** [qsort] of the C library with [compareRemainingTime]: the order
    it leaves elements that compare equal in is unspecified, so the
    sort is a parameter of the model. *)
Variable qsort : list Process -> list Process.

(** Steps 2 and 3 for a ready queue that is not empty. *)
Definition schedule (s : State) : State :=
  let q := qsort (ready_queue s) in
  let bt_list := map remaining_time q in
  let tq := time_quantum bt_list in
  match removeFromReadyQueue q with
  | None => s
  | Some (current_process, q) =>
      match find_pid (pid current_process) (processes s) 0 with
      | None => mkState (processes s) q (current_time s)
                  (completed_processes s)
      | Some idx =>
          let ps := update idx
                      (fun p => if start_time p =? -1
                                then set_start_time (current_time s) p
                                else p) (processes s) in
          if remaining_time current_process <=? tq then
            let t := current_time s + remaining_time current_process in
            mkState (update idx (complete_at t) ps) q t
              (completed_processes s + 1)
          else
            let t := current_time s + tq in
            let ps := update idx
                        (fun p => set_in_ready_queue false
                           (set_remaining_time (remaining_time p - tq) p))
                        ps in
            match nth_error ps idx with
            | None => mkState ps q t (completed_processes s)
            | Some p =>
                mkState (update idx (set_in_ready_queue true) ps)
                  (addToReadyQueue (num s) q p) t (completed_processes s)
            end
      end
  end.

(** One iteration of the simulation loop. *)
Definition iteration (s : State) : State :=
  let s := arrivals s in
  match ready_queue s with
  | [] => mkState (processes s) (ready_queue s) (current_time s + 1)
            (completed_processes s)
  | _ :: _ => schedule s
  end.

Fixpoint loop (fuel : nat) (s : State) : option State :=
  if completed_processes s <? Z.of_nat (num s) then
    match fuel with
    | O => None
    | S fuel' => loop fuel' (iteration s)
    end
  else Some s.

Definition initial_state (input : list Input) : State :=
  mkState (map init_process input) [] 0 0.

Definition simulate (fuel : nat) (input : list Input) : option State :=
  loop fuel (initial_state input).

Fixpoint iterate (k : nat) (s : State) : State :=
  match k with
  | O => s
  | S k' => iterate k' (iteration s)
  end.
End Loop.

(** A stable sort by [compareRemainingTime], one admissible [qsort]. *)
Fixpoint insert_sorted (p : Process) (l : list Process) : list Process :=
  match l with
  | [] => [p]
  | q :: l' =>
      if compareRemainingTime p q <? 0 then p :: l
      else q :: insert_sorted p l'
  end.

Definition stable_sort (l : list Process) : list Process :=
  fold_right insert_sorted [] l.

End SRPT.

(** ** [calculateMetrics] (the same text in CFS.c and DPS-DTQ.c) *)

Module Metrics.
Import CDouble.

Record Metrics := mkMetrics {
  avg_turnaround_time : float;
  avg_waiting_time : float;
  avg_response_time : float;
  throughput : float;
  fairness_index : float;
  starvation_count : Z;
  load_balancing_efficiency : float
}.

(** [pow(x, 2)] of <math.h>, an exact square rounded once. *)
Definition pow2 (x : float) : float := (x * x)%float.

Section Calc.
Variable Process : Type.
Variables turnaround_time waiting_time response_time : Process -> Z.

(** The locals the first loop accumulates. *)
Record Sums := mkSums {
  total_turnaround_time : float;
  total_waiting_time : float;
  total_response_time : float;
  sum_of_squares : float;
  sum : float;
  starved_count : Z
}.

Definition starvation_threshold : Z := 20.

Definition accumulate (a : Sums) (p : Process) : Sums :=
  mkSums
    (total_turnaround_time a + of_int (turnaround_time p))%float
    (total_waiting_time a + of_int (waiting_time p))%float
    (total_response_time a + of_int (response_time p))%float
    (sum_of_squares a
     + of_int (turnaround_time p) * of_int (turnaround_time p))%float
    (sum a + of_int (turnaround_time p))%float
    (if waiting_time p >? starvation_threshold
     then starved_count a + 1 else starved_count a).

(** The second loop. *)
Definition variance_sum (mean_waiting_time : float) (ps : list Process)
    : float :=
  fold_left
    (fun v p => (v + pow2 (of_int (waiting_time p) - mean_waiting_time))%float)
    ps 0%float.

Definition calculateMetrics (ps : list Process) (total_time : Z) : Metrics :=
  let n := of_int (Z.of_nat (length ps)) in
  let a := fold_left accumulate ps (mkSums 0 0 0 0 0 0) in
  let mean_waiting_time := (total_waiting_time a / n)%float in
  let variance := variance_sum mean_waiting_time ps in
  let std_dev := PrimFloat.sqrt (variance / n)%float in
  let coefficient_of_variation := (std_dev / mean_waiting_time)%float in
  mkMetrics
    (total_turnaround_time a / n)%float
    (total_waiting_time a / n)%float
    (total_response_time a / n)%float
    (n / of_int total_time)%float
    (sum a * sum a / (n * sum_of_squares a))%float
    (starved_count a)
    (1.0 / (1.0 + coefficient_of_variation))%float.
End Calc.

(** [calculateMetrics] of CFS.c and of DPS-DTQ.c. *)
Definition calculateMetrics_CFS : list CFS.Process -> Z -> Metrics :=
  calculateMetrics CFS.Process
    CFS.turnaround_time CFS.waiting_time CFS.response_time.


(** *** The metric as the specification words it *)





End Metrics.


(** ** Inputs and observations used by the properties *)

Module Scenario.
Import Gantt.

(** Three jobs under CFS.c; job 2 arrives at time 8, the instant the
    second slice of job 1 ends. *)
Definition cfs_input : list CFS.Input :=
  [(1, 0, 8, 20, 7, 0, 5); (2, 8, 4, 15, 9, 0, 8); (3, 9, 10, 30, 6, 0, 3)].

(** Three jobs under DPS-DTQ.c; job 3 arrives at time 5, the instant
    the first slice of job 1 ends. *)
Definition dps_input : list DPS.Input :=
  [(1, 0, 8, 20, 7, 0, 5); (2, 4, 1, 15, 9, 0, 8); (3, 5, 10, 30, 6, 0, 3)].

(** The sample of section 8 of the specification. *)
Definition sample_input : list CFS.Input :=
  [(1, 0, 8, 20, 7, 0, 5); (2, 2, 4, 15, 9, 0, 8); (3, 4, 2, 10, 6, 10, 3)].

Definition burst_of (x : Z * Z * Z * Z * Z * Z * Z) : Z :=
  let '(_, _, b, _, _, _, _) := x in b.

Definition id_of (x : Z * Z * Z * Z * Z * Z * Z) : Z :=
  let '(i, _, _, _, _, _, _) := x in i.

Definition total_burst (input : list (Z * Z * Z * Z * Z * Z * Z)) : Z :=
  fold_right Z.add 0 (map burst_of input).

(** The length of the slices of the chart that are not idle. *)
Definition executed_total (chart : list GanttChartItem) : Z :=
  fold_right Z.add 0
    (map (fun it => if process_id it =? -1 then 0
                    else end_time it - start_time it) chart).

(** The remaining work of the unfinished processes. *)
Definition cfs_remaining_work (s : CFS.State) : Z :=
  fold_right Z.add 0
    (map (fun p => if CFS.completed p then 0 else CFS.remaining_burst p)
       (CFS.processes s)).

(** The table entries that have arrived and are not finished. *)
Definition cfs_arrived_unfinished (s : CFS.State) : list nat :=
  filter (fun i => match nth_error (CFS.processes s) i with
                   | Some p => (CFS.arrival_time p <=? CFS.current_time s)
                               && negb (CFS.completed p)
                   | None => false
                   end) (seq 0 (CFS.num s)).

(** The sum of the weights of the arrived and unfinished processes. *)
Definition cfs_active_weight (s : CFS.State) : float :=
  fold_left (fun acc i => match nth_error (CFS.processes s) i with
                          | Some p => (acc + CFS.weight p)%float
                          | None => acc
                          end) (cfs_arrived_unfinished s) 0%float.

(** The quantum as the specification words it for the weighted-fair
    policy: the share of the target latency by the weight over the total
    weight of the arrived and unfinished processes, at least 1, capped
    to the remaining time. *)
Definition cfs_quantum_spec (s : CFS.State) (p : CFS.Process) : Z :=
  let target :=
    CFS.target_latency_of (CFS.cfs s) (Z.of_nat (length (cfs_arrived_unfinished s))) 0 in
  let ts := (CFS.weight p / cfs_active_weight s * target)%float in
  let ts := if PrimFloat.ltb ts 1%float then 1%float else ts in
  CDouble.to_int (CDouble.fmin ts (CDouble.of_int (CFS.remaining_burst p))).

(** The priority as the specification words it for the dynamic-priority
    policy, from one line of the input, the time already waited and the
    current time. *)
Definition dps_priority_spec (x : DPS.Input) (waited now : Z) : float :=
  let '(_, _, _, deadline, criticality, _, base_priority) := x in
  let urgency :=
    if deadline =? 0 then 0%float
    else if deadline - now <=? 0 then 1%float
    else (1 / (1 + CDouble.of_int (deadline - now)))%float in
  let aging :=
    let a := (CDouble.of_int waited / 10)%float in
    if PrimFloat.ltb 1%float a then 1%float else a in
  (0.35 * (CDouble.of_int criticality / 10) + 0.30 * urgency + 0.25 * aging
   + 0.10 * (CDouble.of_int base_priority / 10))%float.

(** The state of DPS-DTQ.c at a dispatch, once the load factor is set and
    the queue is sorted. *)
Definition dps_sorted (s : DPS.State)
    : DPS.ReadyQueue * list DPS.Process * DPS.DynamicQuantum :=
  DPS.sortQueueByPriority (DPS.ready_queue s) (DPS.current_time s)
    (DPS.processes s)
    (DPS.set_load_factor
       (CDouble.of_int (Z.of_nat (length (DPS.ready_queue s)))
        / CDouble.of_int (Z.of_nat (DPS.num s)))%float (DPS.dtq s)).

(** The quantum of the shortest-remaining-time policy over the
    remaining times of the ready set, in any order: the median is read
    off the ascending arrangement of the times. *)
Fixpoint insert_time (x : Z) (l : list Z) : list Z :=
  match l with
  | [] => [x]
  | y :: l' => if x <=? y then x :: l else y :: insert_time x l'
  end.

Definition ascending (l : list Z) : list Z := fold_right insert_time [] l.

Definition srpt_mean_spec (times : list Z) : CFloat.float32 :=
  CFloat.div (CFloat.of_int (fold_right Z.add 0 times))
    (CFloat.of_int (Z.of_nat (length times))).

Definition srpt_median_spec (times : list Z) : CFloat.float32 :=
  let n := length times in
  let sorted := ascending times in
  if Nat.even n
  then let two := nth (n / 2 - 1) sorted 0 + nth (n / 2) sorted 0 in
       CFloat.of_double (CDouble.of_int two / 2)%float
  else CFloat.of_int (nth (n / 2) sorted 0).







(** A queue of [n] entries after [i] passes of a bubble sort by
    descending key: the last [i] entries are in their final place. *)
Definition settled (key : nat -> Z) (n i : nat) (q : list nat) : Prop :=
  exists A B, q = A ++ B /\ length q = n /\ length B = i
              /\ StronglySorted (fun a b => key b <= key a) B
              /\ forall a b, In a A -> In b B -> key b <= key a.



End Scenario.

(** ** Signs of binary floating-point numbers *)

Module Sign.

(** Zero or above (a NaN is not). *)
Definition SFnonneg (x : spec_float) : Prop :=
  match x with
  | S754_zero _ | S754_finite false _ _ | S754_infinity false => True
  | _ => False
  end.

(** Strictly above zero. *)
Definition SFpos (x : spec_float) : Prop :=
  match x with
  | S754_finite false _ _ | S754_infinity false => True
  | _ => False
  end.

End Sign.

(** ** States of the loop of CFS.c *)

Module Fairness.
Import CFS.

(** A node whose key is not strictly positive has no left child. *)
Fixpoint tree_ok (ps : list Process) (t : RBNode) : Prop :=
  match t with
  | NULL => True
  | Node q l r =>
      (PrimFloat.ltb 0 (vruntime_at ps q) = false -> l = NULL)
      /\ tree_ok ps l /\ tree_ok ps r
  end.

Definition process_ok (p : Process) : Prop :=
  PrimFloat.leb 0 (vruntime p) = true
  /\ (executed p = false -> vruntime p = 0%float)
  /\ PrimFloat.ltb 0 (weight p) = true
  /\ 0 <= remaining_burst p < 2 ^ 31.

Definition invariant (s : State) : Prop :=
  Forall process_ok (processes s) /\ tree_ok (processes s) (root s).

(** Burst times are positive and fit an [int]. *)
Definition valid_input (input : list Input) : Prop :=
  Forall (fun x => 0 < Scenario.burst_of x < 2 ^ 31) input.


(** The chart of a state, as long as it is not full: its intervals
    follow each other from 0 to the current time, no two idle ones in a
    row, and the last one is idle exactly when the processor is idle. *)
Definition chart_ok (s : State) : Prop :=
  0 <= idle_time s
  /\ Forall (fun p => id p <> -1) (processes s)
  /\ ((length (gantt_chart s) < Gantt.MAX_GANTT_CHART_SIZE)%nat ->
      Gantt.chain 0 (gantt_chart s) = Some (current_time s)
      /\ Gantt.no_double_idle (gantt_chart s) = true
      /\ Gantt.last_idle (gantt_chart s) = (0 <? idle_time s)).

(** The states the loop of [runCFS] goes through on [input], the states
    inside its two arrival loops included. *)
Inductive reachable (input : list Input) : State -> Prop :=
| reach_initial : reachable input (initial_state input)
| reach_arrive_now (s : State) (i : nat) :
    reachable input s -> reachable input (arrive_now s i)
| reach_idle (s : State) :
    reachable input s -> extractMinVruntime (root s) = None ->
    reachable input (idle_step s)
| reach_execute (s : State) (cur : nat) (rest : RBNode) :
    reachable input s -> extractMinVruntime (root s) = Some (cur, rest) ->
    reachable input (fst (execute s cur rest))
| reach_arrive_during (s : State) (e : Z) (i : nat) :
    reachable input s -> reachable input (arrive_during e s i).

(** Process [i], never dispatched so far, enters the tree at its arrival:
    one of the two arrival loops inserts it, taking [s] to [s']. *)
Definition enters (s : State) (i : nat) (s' : State) : Prop :=
  exists p,
    nth_error (processes s) i = Some p /\ executed p = false
    /\ (((arrival_time p =? current_time s) && negb (completed p) = true
         /\ s' = arrive_now s i)
        \/ exists e,
             negb (executed p) && negb (completed p)
             && (arrival_time p >? current_time s - e)
             && (arrival_time p <=? current_time s) = true
             /\ s' = arrive_during e s i).

End Fairness.

(** ** Order of the tree of CFS.c *)

Module TreeOrder.
Import CFS.

(** The entries of the tree, in the order [extractMinVruntime] returns
    them, have vruntimes that never decrease. *)
Definition ordered (ps : list Process) (t : RBNode) : Prop :=
  StronglySorted
    (fun a b => PrimFloat.leb (vruntime_at ps a) (vruntime_at ps b) = true)
    (inorder t).

(** No vruntime among those of the entries [l] is a NaN. *)
Definition comparable (ps : list Process) (l : list nat) : Prop :=
  Forall (fun i => PrimFloat.is_nan (vruntime_at ps i) = false) l.

End TreeOrder.

(** ** What [calculateDynamicPriority] leaves unchanged (DPS-DTQ.c) *)

Module DPSFrame.
Import DPS.

(** Two table entries that differ in [system_priority] at most. *)
Definition same_but_priority (p p' : Process) : Prop :=
  set_system_priority (system_priority p') p = p'.

(** Two values of [dtq] that differ in [current] at most. *)
Definition same_but_current (d d' : DynamicQuantum) : Prop :=
  set_current (current d') d = d'.

End DPSFrame.

(** ** States of the loop of DPS-DTQ.c *)

Module DPSInv.
Import DPS.

(** Burst times are not negative and no job has the id -1, the mark of
    an idle interval. *)
Definition valid_input (input : list Input) : Prop :=
  Forall (fun x => 0 <= Scenario.burst_of x /\ Scenario.id_of x <> -1) input.

Definition process_ok (p : Process) : Prop :=
  0 <= remaining_burst p <= burst_time p /\ id p <> -1.

(** The table and the chart of a state; the chart as long as it is not
    full. *)
Definition chart_ok (s : State) : Prop :=
  0 <= idle_time s
  /\ Forall process_ok (processes s)
  /\ ((length (gantt_chart s) < Gantt.MAX_GANTT_CHART_SIZE)%nat ->
      Gantt.chain 0 (gantt_chart s) = Some (current_time s)
      /\ Gantt.no_double_idle (gantt_chart s) = true
      /\ Gantt.last_idle (gantt_chart s) = (0 <? idle_time s)).

End DPSInv.

(** ** States of the simulation loop of reference-paper-algo.c *)

Module SRPTInv.
Import SRPT.

Definition sumZ (f : Process -> Z) (ps : list Process) : Z :=
  fold_right (fun p acc => f p + acc) 0 ps.

(** The pids of the input are all different and no burst time is
    negative. *)
Definition valid_input (input : list Input) : Prop :=
  NoDup (map Scenario.id_of input)
  /\ Forall (fun x => 0 <= Scenario.burst_of x) input.

Definition done (p : Process) : Z := if completed p then 1 else 0.

(** The time a process has run for. *)
Definition executed_time (p : Process) : Z := burst_time p - remaining_time p.

(** The latest arrival time of the table (0 at least). *)
Definition latest_arrival (ps : list Process) : Z :=
  fold_right (fun p a => Z.max (arrival_time p) a) 0 ps.

(** What is left of a process at time [t]: one more than its remaining
    time and the time until it arrives; nothing once it is completed. *)
Definition work_left (t : Z) (p : Process) : Z :=
  if completed p then 0
  else 1 + remaining_time p + Z.max 0 (arrival_time p - t).

(** The number of iterations the loop has left at most. *)
Definition measure (s : State) : Z :=
  sumZ (work_left (current_time s)) (processes s).

(** The fields of a table entry the loop never writes. *)
Definition static (p : Process) : Z * Z * Z :=
  (pid p, arrival_time p, burst_time p).

Definition process_ok (t : Z) (p : Process) : Prop :=
  0 <= remaining_time p <= burst_time p
  /\ (completed p = true ->
      remaining_time p = 0 /\ in_ready_queue p = false
      /\ arrival_time p + burst_time p <= completion_time p <= t)
  /\ (completed p = false -> in_ready_queue p = false ->
      remaining_time p = burst_time p)
  /\ (in_ready_queue p = true -> arrival_time p + executed_time p <= t).

(** The ready queue holds one copy of every table entry flagged
    [in_ready_queue], with its remaining time, and nothing else. *)
Definition queue_ok (s : State) : Prop :=
  NoDup (map pid (ready_queue s))
  /\ (forall q, In q (ready_queue s) ->
        exists i p, nth_error (processes s) i = Some p /\ pid p = pid q
                    /\ remaining_time p = remaining_time q
                    /\ in_ready_queue p = true)
  /\ (forall i p, nth_error (processes s) i = Some p ->
        in_ready_queue p = true -> In (pid p) (map pid (ready_queue s))).

Definition invariant (s : State) : Prop :=
  NoDup (map pid (processes s))
  /\ queue_ok s
  /\ Forall (process_ok (current_time s)) (processes s)
  /\ completed_processes s = sumZ done (processes s).

(** The current time against the time the processes have run for. *)
Definition time_ok (s : State) : Prop :=
  sumZ executed_time (processes s) <= current_time s
  <= latest_arrival (processes s) + sumZ executed_time (processes s).

(** Every process that has arrived and is not completed is flagged. *)
Definition arrived_flagged (s : State) : Prop :=
  forall i p, nth_error (processes s) i = Some p ->
    arrival_time p <= current_time s -> completed p = false ->
    in_ready_queue p = true.

End SRPTInv.

(** ** The ready queue of DPS-DTQ.c as the source stores it *)

Module CircularQueue.
Import DPS.

Definition capacity : Z := Z.of_nat MAX_QUEUE_SIZE.

(** The struct [ReadyQueue]: the array of [MAX_QUEUE_SIZE] pointers
    (indices into the process table) and the three [int]s. *)
Record Buffer := mkBuffer {
  cells : list nat;
  front : Z;
  rear : Z;
  size : Z
}.

(** [a[i]].  The indices the source computes are remainders by
    [MAX_QUEUE_SIZE] of sums that are not negative; an access out of the
    array is undefined in C (the model reads 0 and writes nothing). *)
Definition load (a : list nat) (i : Z) : nat :=
  if 0 <=? i then nth (Z.to_nat i) a 0%nat else 0%nat.

Fixpoint store_at (a : list nat) (i : nat) (v : nat) : list nat :=
  match a, i with
  | [], _ => []
  | _ :: r, O => v :: r
  | x :: r, S i' => x :: store_at r i' v
  end.

(** [a[i] = v]. *)
Definition store (a : list nat) (i : Z) (v : nat) : list nat :=
  if 0 <=? i then store_at a (Z.to_nat i) v else a.

(** [initializeQueue]: the cells keep what they held. *)
Definition initializeQueue (q : Buffer) : Buffer := mkBuffer (cells q) 0 (-1) 0.

Definition isQueueEmpty (q : Buffer) : bool := size q =? 0.

Definition isQueueFull (q : Buffer) : bool := size q =? capacity.

(** [enqueue]; [%] of C is [Z.rem]. *)
Definition enqueue (q : Buffer) (p : nat) : Buffer :=
  if isQueueFull q then q
  else
    let r := Z.rem (rear q + 1) capacity in
    mkBuffer (store (cells q) r p) (front q) r (size q + 1).

(** [dequeue]; [None] is the NULL the source returns. *)
Definition dequeue (q : Buffer) : option (nat * Buffer) :=
  if isQueueEmpty q then None
  else Some (load (cells q) (front q),
             mkBuffer (cells q) (Z.rem (front q + 1) capacity) (rear q)
               (size q - 1)).

(** The pointers the queue holds, from [front] on: the cells the loops
    of [sortQueueByPriority] visit, in their order. *)
Definition contents (q : Buffer) : list nat :=
  map (fun i => load (cells q) (Z.rem (front q + Z.of_nat i) capacity))
    (seq 0 (Z.to_nat (size q))).

Section Sort.
Variable ps : list Process.

(** The body of the inner loop of the bubble sort, for one [j]. *)
Definition compare_swap (q : Buffer) (j : nat) : Buffer :=
  let idx1 := Z.rem (front q + Z.of_nat j) capacity in
  let idx2 := Z.rem (front q + Z.of_nat j + 1) capacity in
  let a := load (cells q) idx1 in
  let b := load (cells q) idx2 in
  if system_priority_at ps a <? system_priority_at ps b
  then mkBuffer (store (store (cells q) idx1 b) idx2 a)
         (front q) (rear q) (size q)
  else q.

(** The inner loop, for one [i]. *)
Definition sort_pass (q : Buffer) (i : nat) : Buffer :=
  fold_left compare_swap (seq 0 (Z.to_nat (size q - Z.of_nat i - 1))) q.

(** The two nested loops. *)
Definition sort (q : Buffer) : Buffer :=
  fold_left sort_pass (seq 0 (Z.to_nat (size q - 1))) q.

(** The same comparison and exchange on a list, at positions [j] and
    [j + 1]. *)
Fixpoint swap_step (l : list nat) (j : nat) : list nat :=
  match l, j with
  | a :: b :: r, O =>
      if system_priority_at ps a <? system_priority_at ps b
      then b :: a :: r else l
  | a :: r, S j' => a :: swap_step r j'
  | _, _ => l
  end.
End Sort.

(** [sortQueueByPriority], on the buffer. *)
Definition sortQueueByPriority (q : Buffer) (current_time : Z)
    (ps : list Process) (dtq : DynamicQuantum)
    : Buffer * list Process * DynamicQuantum :=
  let '(ps', dtq') := fold_left (calc_at current_time) (contents q) (ps, dtq) in
  (sort ps' q, ps', dtq').

(** The indices are in the array and [rear] is the cell before the
    first free one. *)
Definition well_formed (q : Buffer) : Prop :=
  length (cells q) = MAX_QUEUE_SIZE
  /\ 0 <= front q < capacity
  /\ 0 <= size q <= capacity
  /\ -1 <= rear q
  /\ Z.rem (rear q + 1) capacity = Z.rem (front q + size q) capacity.

End CircularQueue.

(** ** [readProcessesFromFile] (CFS.c and DPS-DTQ.c) *)

Module Reader.

Definition MAX_PROCESSES : Z := 100.

(** The file as the calls of [fscanf] with [%d] see it: the integers it
    holds, up to the first thing that is not one. *)
Definition File : Type := list Z.

(** The loop that reads [n] entries of seven integers; [None] when
    [fscanf] does not return 7 (the source prints a message and calls
    [exit(1)]). *)
Fixpoint read_entries (n : nat) (file : File)
    : option (list (Z * Z * Z * Z * Z * Z * Z)) :=
  match n with
  | O => Some []
  | S n' =>
      match file with
      | i :: a :: b :: d :: c :: p :: x :: rest =>
          match read_entries n' rest with
          | Some l => Some ((i, a, b, d, c, p, x) :: l)
          | None => None
          end
      | _ => None
      end
  end.

(** The number of processes and their entries; [None] for [exit(1)]. *)
Definition read_input (file : File)
    : option (list (Z * Z * Z * Z * Z * Z * Z)) :=
  match file with
  | [] => None
  | n :: rest =>
      if (n <=? 0) || (n >? MAX_PROCESSES) then None
      else read_entries (Z.to_nat n) rest
  end.

(** The file [writeDefaultInputFile] writes. *)
Definition default_file : File :=
  [10;
   1; 0; 8; 20; 7; 0; 5;
   2; 2; 4; 15; 9; 0; 8;
   3; 4; 2; 10; 6; 10; 3;
   4; 6; 6; 25; 3; 0; 4;
   5; 8; 5; 0; 5; 12; 6;
   6; 10; 3; 18; 8; 0; 7;
   7; 12; 7; 30; 4; 15; 5;
   8; 14; 1; 17; 10; 0; 9;
   9; 16; 9; 0; 2; 20; 2;
   10; 18; 4; 25; 7; 0; 6].

(** [readProcessesFromFile] of CFS.c and of DPS-DTQ.c: the table and
    its length [n]; a file that cannot be opened ([None]) is replaced
    by the default one. *)
Definition readProcessesFromFile_CFS (file : option File)
    : option (list CFS.Process) :=
  option_map (map CFS.init_process)
    (read_input (match file with Some f => f | None => default_file end)).

Definition readProcessesFromFile_DPS (file : option File)
    : option (list DPS.Process) :=
  option_map (map DPS.init_process)
    (read_input (match file with Some f => f | None => default_file end)).

(** A table entry as [readProcessesFromFile] of CFS.c leaves it. *)
Definition fresh_CFS (p : CFS.Process) : Prop :=
  CFS.remaining_burst p = CFS.burst_time p
  /\ CFS.completion_time p = 0 /\ CFS.waiting_time p = 0
  /\ CFS.turnaround_time p = 0 /\ CFS.response_time p = 0
  /\ CFS.first_execution_time p = -1 /\ CFS.vruntime p = 0%float
  /\ CFS.executed p = false /\ CFS.completed p = false.

Definition fresh_DPS (p : DPS.Process) : Prop :=
  DPS.remaining_burst p = DPS.burst_time p
  /\ DPS.completion_time p = 0 /\ DPS.waiting_time p = 0
  /\ DPS.turnaround_time p = 0 /\ DPS.response_time p = 0
  /\ DPS.first_execution_time p = -1
  /\ DPS.executed p = false /\ DPS.completed p = false.

End Reader.

(** ** Progress of the loop of CFS.c *)

Module CFSProgress.
Import CFS.

Definition arrival_of (x : Input) : Z :=
  let '(_, a, _, _, _, _, _) := x in a.

(** Arrival times are not negative. *)
Definition arrivals_ok (input : list Input) : Prop :=
  Forall (fun x => 0 <= arrival_of x) input.

Definition sumP (f : Process -> Z) (ps : list Process) : Z :=
  fold_right (fun p acc => f p + acc) 0 ps.

Definition flagged (p : Process) : Z := if completed p then 1 else 0.

Definition until_arrival (t : Z) (p : Process) : Z :=
  Z.max 0 (arrival_time p - t).

(** An upper bound of the number of iterations the loop has left: the
    time the processes have left to run, the completions left to count
    and the time left before the arrivals. *)
Definition measure (s : State) : Z :=
  sumP remaining_burst (processes s)
  + (Z.of_nat (num s) - completed_processes s)
  + sumP (until_arrival (current_time s)) (processes s).

(** Two table entries with the same arrival time, remaining time and
    flags. *)
Definition same_core (p p' : Process) : Prop :=
  arrival_time p' = arrival_time p
  /\ remaining_burst p' = remaining_burst p
  /\ executed p' = executed p /\ completed p' = completed p.

(** The entries of the tree are processes of the table that have
    arrived. *)
Definition tree_entries_ok (s : State) : Prop :=
  forall i, In i (inorder (root s)) ->
    exists p, nth_error (processes s) i = Some p
              /\ arrival_time p <= current_time s.

Definition started_ok (s : State) : Prop :=
  Forall (fun p => executed p = true \/ completed p = true ->
                   arrival_time p <= current_time s) (processes s).

Definition progress_ok (s : State) : Prop :=
  tree_entries_ok s /\ started_ok s
  /\ sumP flagged (processes s) <= completed_processes s.

(** Every process that has arrived by [t] is in the tree or is
    completed. *)
Definition entered (t : Z) (s : State) : Prop :=
  forall i p, nth_error (processes s) i = Some p -> arrival_time p <= t ->
    In i (inorder (root s)) \/ completed p = true.

End CFSProgress.

(** ** The times [runCFS] records in the table *)

Module CFSTimes.
Import CFS.

(** The time a process has run for. *)
Definition run_time (p : Process) : Z := burst_time p - remaining_burst p.

(** The times of a table entry at time [t]: a process never dispatched
    has its whole burst time left; a dispatched one started after its
    arrival and has run since for [run_time]; a completed one carries
    the times computed from its completion time. *)
Definition times_ok (t : Z) (p : Process) : Prop :=
  (executed p = false ->
   completed p = false /\ remaining_burst p = burst_time p)
  /\ (executed p = true ->
      arrival_time p <= first_execution_time p
      /\ first_execution_time p + run_time p <= t)
  /\ (completed p = true ->
      response_time p = first_execution_time p - arrival_time p
      /\ turnaround_time p = completion_time p - arrival_time p
      /\ waiting_time p = turnaround_time p - burst_time p
      /\ first_execution_time p + burst_time p <= completion_time p <= t).

Definition times_invariant (s : State) : Prop :=
  CFSProgress.tree_entries_ok s
  /\ Forall (times_ok (current_time s)) (processes s).

End CFSTimes.

(** ** The metrics of reference-paper-algo.c *)

Module SRPTMetrics.
Import SRPT.

(** The times [main] computes for a table entry. *)
Definition turnaround_time (p : Process) : Z :=
  completion_time p - arrival_time p.

Definition waiting_time (p : Process) : Z :=
  turnaround_time p - burst_time p.

Definition response_time (p : Process) : Z :=
  start_time p - arrival_time p.

(** [calculateLoadBalancingEfficiency]. *)
Definition calculateLoadBalancingEfficiency (ps : list Process)
    (total_time : Z) : CFloat.float32 :=
  let total_busy_time := fold_left (fun sum p => sum + burst_time p) ps 0 in
  CFloat.div (CFloat.of_int total_busy_time) (CFloat.of_int total_time).

Definition arrival_of (x : Input) : Z :=
  let '(_, a, _, _, _, _, _) := x in a.

(** [calculateStarvationCount]. *)
Definition calculateStarvationCount (ps : list Process) : Z :=
  fold_left (fun count p =>
               if completion_time p >? deadline p + arrival_time p
               then count + 1 else count) ps 0.

Definition deadline_of (x : Input) : Z :=
  let '(_, _, _, d, _, _, _) := x in d.

(** The arrival time and the deadline of a table entry. *)
Definition window (p : Process) : Z * Z := (arrival_time p, deadline p).

(** The start time of a table entry at time [t]: -1 as long as the
    process has not run; else a time after its arrival, from which the
    process has run for [executed_time] at most. *)
Definition start_ok (t : Z) (p : Process) : Prop :=
  (start_time p = -1 ->
   completed p = false /\ remaining_time p = burst_time p)
  /\ (start_time p <> -1 ->
      arrival_time p <= start_time p
      /\ start_time p + SRPTInv.executed_time p <= t)
  /\ (completed p = true ->
      start_time p + burst_time p <= completion_time p).

Definition start_invariant (s : State) : Prop :=
  0 <= current_time s /\ Forall (start_ok (current_time s)) (processes s).

End SRPTMetrics.

(** ** The times [runDPS_DTQ] records in the table *)

Module DPSTimes.
Import DPS.

(** The time a process has run for. *)
Definition run_time (p : Process) : Z := burst_time p - remaining_burst p.

(** The times of a table entry at time [t], as [CFSTimes.times_ok]. *)
Definition times_ok (t : Z) (p : Process) : Prop :=
  (executed p = false ->
   completed p = false /\ remaining_burst p = burst_time p)
  /\ (executed p = true ->
      arrival_time p <= first_execution_time p
      /\ first_execution_time p + run_time p <= t)
  /\ (completed p = true ->
      response_time p = first_execution_time p - arrival_time p
      /\ turnaround_time p = completion_time p - arrival_time p
      /\ waiting_time p = turnaround_time p - burst_time p
      /\ first_execution_time p + burst_time p <= completion_time p <= t).

(** The pointers of the ready queue denote processes that have
    arrived. *)
Definition arrived (ps : list Process) (t : Z) (i : nat) : Prop :=
  exists p, nth_error ps i = Some p /\ arrival_time p <= t.

Definition times_invariant (s : State) : Prop :=
  Forall (arrived (processes s) (current_time s)) (ready_queue s)
  /\ Forall DPSInv.process_ok (processes s)
  /\ Forall (times_ok (current_time s)) (processes s).

End DPSTimes.

(** * Properties *)

(** ** Binary floating-point numbers: signs, rounding and order *)

Module SFFacts.
Import Sign.

Lemma SFpos_nonneg x : SFpos x -> SFnonneg x.
Proof. destruct x as [[]|[]| |[] m e]; simpl; tauto. Qed.

Lemma digits2_pos_bounds (m : positive) :
  2 ^ (Zpos (digits2_pos m) - 1) <= Zpos m < 2 ^ Zpos (digits2_pos m).
Proof.
  induction m as [p IH|p IH|]; simpl digits2_pos.
  - rewrite Pos2Z.inj_succ, (Pos2Z.inj_xI p).
    replace (Z.succ (Zpos (digits2_pos p)) - 1) with (Z.succ (Zpos (digits2_pos p) - 1)) by lia.
    rewrite !Z.pow_succ_r by lia.
    revert IH. generalize (2 ^ (Zpos (digits2_pos p) - 1)) (2 ^ Zpos (digits2_pos p)).
    intros; lia.
  - rewrite Pos2Z.inj_succ, (Pos2Z.inj_xO p).
    replace (Z.succ (Zpos (digits2_pos p)) - 1) with (Z.succ (Zpos (digits2_pos p) - 1)) by lia.
    rewrite !Z.pow_succ_r by lia.
    revert IH. generalize (2 ^ (Zpos (digits2_pos p) - 1)) (2 ^ Zpos (digits2_pos p)).
    intros; lia.
  - simpl. lia.
Qed.

Lemma shr_1_m (r : shr_record) :
  0 <= shr_m r -> shr_m (shr_1 r) = shr_m r / 2.
Proof.
  destruct r as [m rb sb]. simpl. intros Hm.
  destruct m as [|[p|p|]|p]; simpl; try lia; try reflexivity.
  - rewrite (Pos2Z.inj_xI p). apply Z.div_unique with (r := 1); lia.
  - rewrite (Pos2Z.inj_xO p). apply Z.div_unique with (r := 0); lia.
Qed.

Lemma iter_shr_1_m (p : positive) (r : shr_record) :
  0 <= shr_m r -> shr_m (iter_pos shr_1 p r) = shr_m r / 2 ^ Zpos p.
Proof.
  revert r. induction p as [p IH|p IH|]; intros r Hr; simpl iter_pos.
  - assert (H1 : 0 <= shr_m (shr_1 r)) by (rewrite shr_1_m by lia; apply Z.div_pos; lia).
    assert (H2 : 0 <= shr_m (iter_pos shr_1 p (shr_1 r)))
      by (rewrite IH by lia; apply Z.div_pos; [lia|apply Z.pow_pos_nonneg; lia]).
    rewrite IH, IH, shr_1_m by lia.
    rewrite !Z.div_div by (try apply Z.pow_pos_nonneg; lia).
    f_equal. rewrite (Pos2Z.inj_xI p).
    replace (2 * Zpos p + 1) with (1 + Zpos p + Zpos p) by lia.
    rewrite !Z.pow_add_r by lia. lia.
  - assert (H2 : 0 <= shr_m (iter_pos shr_1 p r))
      by (rewrite IH by lia; apply Z.div_pos; [lia|apply Z.pow_pos_nonneg; lia]).
    rewrite IH, IH by lia.
    rewrite !Z.div_div by (try apply Z.pow_pos_nonneg; lia).
    f_equal. rewrite (Pos2Z.inj_xO p).
    replace (2 * Zpos p) with (Zpos p + Zpos p) by lia.
    rewrite !Z.pow_add_r by lia. lia.
  - rewrite shr_1_m by lia. reflexivity.
Qed.

Section Rounding.
Variables prec emax : Z.
Hypothesis prec_pos : 0 < prec.


Lemma fexp_ge_emin (e : Z) : SpecFloat.emin prec emax <= fexp prec emax e.
Proof. unfold fexp. lia. Qed.

Lemma shr_record_of_loc_m (m : Z) (l : location) :
  shr_m (shr_record_of_loc m l) = m.
Proof. destruct l as [|[]]; reflexivity. Qed.

(** Rounding a non-negative mantissa never gives a negative one. *)
Lemma shr_fexp_nonneg (m e : Z) (l : location) :
  0 <= m -> 0 <= shr_m (fst (shr_fexp prec emax m e l)).
Proof.
  intros Hm. unfold shr_fexp, shr.
  destruct (fexp prec emax (Zdigits2 m + e) - e) as [|p|p]; simpl;
    rewrite ?iter_shr_1_m by (rewrite shr_record_of_loc_m; lia);
    rewrite shr_record_of_loc_m; try lia.
  apply Z.div_pos; [lia|]. apply Z.pow_pos_nonneg; lia.
Qed.

(** A positive mantissa above the smallest subnormal keeps a positive
    mantissa, at an exponent that is at least [emin]. *)
Lemma shr_fexp_pos (m : positive) (e : Z) (l : location) :
  SpecFloat.emin prec emax < Zpos (digits2_pos m) + e ->
  0 < shr_m (fst (shr_fexp prec emax (Zpos m) e l))
  /\ SpecFloat.emin prec emax <= snd (shr_fexp prec emax (Zpos m) e l).
Proof.
  intros He. unfold shr_fexp, shr. simpl Zdigits2.
  pose proof (fexp_ge_emin (Zpos (digits2_pos m) + e)) as Hf.
  destruct (fexp prec emax (Zpos (digits2_pos m) + e) - e) as [|p|p] eqn:En; simpl.
  - rewrite shr_record_of_loc_m. lia.
  - rewrite iter_shr_1_m by (rewrite shr_record_of_loc_m; lia).
    rewrite shr_record_of_loc_m. split; [|lia].
    apply Z.div_str_pos. split; [apply Z.pow_pos_nonneg; lia|].
    pose proof (digits2_pos_bounds m) as [Hlo _].
    eapply Z.le_trans; [|exact Hlo].
    apply Z.pow_le_mono_r; [lia|]. unfold fexp in *. lia.
  - rewrite shr_record_of_loc_m. lia.
Qed.

Lemma round_nearest_even_ge (m : Z) (l : location) :
  m <= round_nearest_even m l.
Proof. destruct l as [|[]]; simpl; try destruct (Z.even m); lia. Qed.

Lemma binary_round_aux_nonneg (m e : Z) (l : location) :
  0 <= m -> SFnonneg (binary_round_aux prec emax false m e l).
Proof.
  intros Hm. unfold binary_round_aux.
  pose proof (shr_fexp_nonneg m e l Hm) as H1.
  destruct (shr_fexp prec emax m e l) as [mrs' e']. simpl in H1.
  pose proof (round_nearest_even_ge (shr_m mrs') (loc_of_shr_record mrs')) as H2.
  pose proof (shr_fexp_nonneg (round_nearest_even (shr_m mrs') (loc_of_shr_record mrs')) e' loc_Exact) as H3.
  destruct (shr_fexp prec emax _ e' loc_Exact) as [mrs'' e'']. simpl in H3.
  destruct (shr_m mrs'') as [|p|p]; simpl; [exact I| |lia].
  destruct (e'' <=? emax - prec); exact I.
Qed.

Lemma binary_round_aux_pos (m : positive) (e : Z) (l : location) :
  SpecFloat.emin prec emax < Zpos (digits2_pos m) + e ->
  SFpos (binary_round_aux prec emax false (Zpos m) e l).
Proof.
  intros He. unfold binary_round_aux.
  pose proof (shr_fexp_pos m e l He) as [H1 H1'].
  destruct (shr_fexp prec emax (Zpos m) e l) as [mrs' e']. simpl in H1, H1'.
  pose proof (round_nearest_even_ge (shr_m mrs') (loc_of_shr_record mrs')) as H2.
  destruct (round_nearest_even (shr_m mrs') (loc_of_shr_record mrs')) as [|m'|m'];
    try lia.
  pose proof (shr_fexp_pos m' e' loc_Exact) as [H3 _]; [lia|].
  destruct (shr_fexp prec emax (Zpos m') e' loc_Exact) as [mrs'' e'']. simpl in H3.
  destruct (shr_m mrs'') as [|p|p]; simpl; try lia.
  destruct (e'' <=? emax - prec); exact I.
Qed.

Lemma binary_round_nonneg (m : positive) (e : Z) :
  SFnonneg (binary_round prec emax false m e).
Proof.
  unfold binary_round. destruct (shl_align m e _) as [mz ez].
  apply binary_round_aux_nonneg. lia.
Qed.

Lemma binary_round_pos (m : positive) (e : Z) :
  SpecFloat.emin prec emax <= e -> SFpos (binary_round prec emax false m e).
Proof.
  intros He. unfold binary_round, shl_align.
  pose proof (fexp_ge_emin (Zpos (digits2_pos m) + e)) as Hf.
  destruct (fexp prec emax (Zpos (digits2_pos m) + e) - e) as [|d|d] eqn:Ed;
    apply binary_round_aux_pos; lia.
Qed.

Lemma valid_emin (s : bool) (m : positive) (e : Z) :
  SpecFloat.valid_binary prec emax (S754_finite s m e) = true ->
  SpecFloat.emin prec emax <= e.
Proof.
  simpl. unfold bounded, canonical_mantissa. intros H.
  apply andb_prop in H as [H _]. apply Z.eqb_eq in H.
  rewrite <- H. apply fexp_ge_emin.
Qed.

Lemma SFadd_nonneg (x y : spec_float) :
  SFnonneg x -> SFnonneg y -> SFnonneg (SFadd prec emax x y).
Proof.
  destruct x as [[]|[]| |[] mx ex], y as [[]|[]| |[] my ey];
    simpl; try tauto.
  intros _ _. apply binary_round_nonneg.
Qed.

Lemma SFadd_pos (x y : spec_float) :
  SpecFloat.valid_binary prec emax x = true -> SpecFloat.valid_binary prec emax y = true ->
  SFpos x -> SFnonneg y -> SFpos (SFadd prec emax x y).
Proof.
  destruct x as [[]|[]| |[] mx ex], y as [[]|[]| |[] my ey];
    simpl SFpos; simpl SFnonneg; try tauto; try (intros; exact I).
  intros Hx Hy _ _. apply valid_emin in Hx, Hy.
  unfold SFadd. cbv zeta. simpl cond_Zopp. simpl Z.add.
  apply binary_round_pos. lia.
Qed.

Lemma SFdiv_nonneg (x y : spec_float) :
  match x with
  | S754_zero _ | S754_finite false _ _ => True
  | _ => False
  end ->
  SFpos y -> SFnonneg (SFdiv prec emax x y).
Proof.
  destruct x as [[]|[]| |[] mx ex], y as [[]|[]| |[] my ey];
    simpl; try tauto.
  intros _ _. unfold SFdiv_core_binary. cbv zeta.
  match goal with
  | |- context [Z.div_eucl ?a ?b] =>
      assert (Ha : 0 <= a);
      [|pose proof (Z_div_mod a b ltac:(lia)) as Hd;
        destruct (Z.div_eucl a b) as [q r]]
  end.
  { match goal with
    | |- 0 <= match ?s with _ => _ end => destruct s
    end; try lia. apply Z.shiftl_nonneg. lia. }
  apply binary_round_aux_nonneg. nia.
Qed.

(** *** Comparison *)

Lemma SFcompare_refl (x : spec_float) :
  x <> S754_nan -> SFcompare x x = Some Eq.
Proof.
  destruct x as [[]|[]| |[] m e]; simpl; try congruence; intros _;
    rewrite Z.compare_refl, Pos.compare_cont_refl; reflexivity.
Qed.

Lemma SFltb_nonneg_pos (a b : spec_float) :
  SFnonneg a -> SFltb a b = true -> SFpos b.
Proof.
  unfold SFltb.
  destruct a as [[]|[]| |[] ma ea], b as [[]|[]| |[] mb eb];
    simpl; try tauto; try discriminate.
Qed.

Lemma SFltb_one_pos (x : spec_float) :
  x <> S754_nan -> SFltb x (Prim2SF 1) = false -> SFpos x.
Proof.
  unfold SFltb. change (Prim2SF 1) with (S754_finite false 4503599627370496 (-52)).
  destruct x as [[]|[]| |[] m e]; simpl SFpos; try (intros; exact I);
    simpl SFcompare; try discriminate; try tauto.
Qed.

Lemma SFltb_zero_pos (s : bool) (x : spec_float) :
  SFpos x -> SFltb (S754_zero s) x = true.
Proof. destruct x as [[]|[]| |[] m e]; simpl; tauto. Qed.

Lemma shiftl_mono (a b e : Z) : 0 <= a <= b -> Z.shiftl a e <= Z.shiftl b e.
Proof.
  intros H. destruct (Z.le_gt_cases 0 e).
  - rewrite !Z.shiftl_mul_pow2 by lia.
    apply Z.mul_le_mono_nonneg_r; [apply Z.pow_nonneg|]; lia.
  - rewrite !Z.shiftl_div_pow2 by lia.
    apply Z.div_le_mono; [apply Z.pow_pos_nonneg|]; lia.
Qed.

(** The integer part is monotone on valid positive finite numbers. *)
Lemma SFltb_trunc_le (mx : positive) (ex : Z) (my : positive) (ey : Z) :
  SpecFloat.valid_binary prec emax (S754_finite false mx ex) = true ->
  SpecFloat.valid_binary prec emax (S754_finite false my ey) = true ->
  SFltb (S754_finite false my ey) (S754_finite false mx ex) = false ->
  Z.shiftl (Zpos mx) ex <= Z.shiftl (Zpos my) ey.
Proof.
  unfold SFltb. simpl. unfold bounded, canonical_mantissa, fexp.
  intros Hx Hy Hc.
  apply andb_prop in Hx as [Hx _]. apply Z.eqb_eq in Hx.
  apply andb_prop in Hy as [Hy _]. apply Z.eqb_eq in Hy.
  pose proof (digits2_pos_bounds mx) as [_ Hxu].
  pose proof (digits2_pos_bounds my) as [Hyl _].
  destruct (Z.compare_spec ey ex) as [->|Hlt|Hgt]; [|discriminate|].
  - apply shiftl_mono. split; [lia|].
    destruct (Pos.compare_cont Eq my mx) eqn:Hm; try discriminate.
    + apply Pos.compare_eq in Hm. subst. lia.
    + apply Pos.compare_gt_iff in Hm. lia.
  - replace ey with ((ey - ex) + ex) by lia.
    rewrite <- Z.shiftl_shiftl by lia.
    apply shiftl_mono. split; [lia|].
    rewrite Z.shiftl_mul_pow2 by lia.
    assert (Hd : Zpos (digits2_pos my) = prec) by lia.
    assert (Hdx : Zpos (digits2_pos mx) <= prec) by lia.
    assert (Hp : 2 ^ Zpos (digits2_pos mx) <= 2 ^ prec)
      by (apply Z.pow_le_mono_r; lia).
    rewrite Hd in Hyl.
    assert (H2 : 2 ^ 1 <= 2 ^ (ey - ex)) by (apply Z.pow_le_mono_r; lia).
    replace prec with (Z.succ (prec - 1)) in Hp by lia.
    rewrite Z.pow_succ_r in Hp by lia.
    change (2 ^ 1) with 2 in H2. nia.
Qed.

End Rounding.
End SFFacts.

(** ** C arithmetic on [double]: signs and integer parts *)

Module DoubleFacts.
Import CDouble Sign SFFacts.

Lemma leb0_nonneg (x : float) :
  PrimFloat.leb 0 x = true <-> SFnonneg (Prim2SF x).
Proof.
  rewrite FloatAxioms.leb_spec. change (Prim2SF 0) with (S754_zero false). unfold SFleb.
  destruct (Prim2SF x) as [[]|[]| |[] m e]; simpl; intuition congruence.
Qed.

Lemma ltb0_pos (x : float) :
  PrimFloat.ltb 0 x = true <-> SFpos (Prim2SF x).
Proof.
  rewrite FloatAxioms.ltb_spec. change (Prim2SF 0) with (S754_zero false). unfold SFltb.
  destruct (Prim2SF x) as [[]|[]| |[] m e]; simpl; intuition congruence.
Qed.

Lemma is_nan_spec (x : float) :
  PrimFloat.is_nan x = false -> Prim2SF x <> S754_nan.
Proof.
  unfold PrimFloat.is_nan. rewrite FloatAxioms.eqb_spec. unfold SFeqb.
  intros H E. rewrite E in H. discriminate.
Qed.

Lemma pos_iter_xO (p k : positive) :
  Zpos (Pos.iter xO p k) = Zpos p * 2 ^ Zpos k
  /\ Zpos (digits2_pos (Pos.iter xO p k)) = Zpos (digits2_pos p) + Zpos k.
Proof.
  induction k as [|k [IH1 IH2]] using Pos.peano_ind.
  - simpl. split; lia.
  - rewrite Pos.iter_succ. simpl digits2_pos.
    rewrite !Pos2Z.inj_succ, (Pos2Z.inj_xO (Pos.iter xO p k)), IH1, IH2.
    rewrite Z.pow_succ_r by lia. split; lia.
Qed.

(** A small positive integer is a binary64 number. *)
Lemma binary_normalize_exact (z : Z) :
  0 < z < 2 ^ 53 ->
  exists m e, binary_normalize prec emax z 0 false = S754_finite false m e
              /\ Z.shiftl (Zpos m) e = z.
Proof.
  intros Hz. destruct z as [|p|p]; try lia.
  pose proof (digits2_pos_bounds p) as [Hlo Hhi].
  assert (Hd : Zpos (digits2_pos p) <= 53).
  { assert (Zpos (digits2_pos p) - 1 < 53); [|lia].
    apply (Z.pow_lt_mono_r_iff 2); lia. }
  assert (Hshr : forall (mz : positive) (ez : Z),
             Zpos (digits2_pos mz) = 53 -> -52 <= ez <= 0 ->
             shr_fexp prec emax (Zpos mz) ez loc_Exact
             = (Build_shr_record (Zpos mz) false false, ez)).
  { intros mz ez Hmz Hez. unfold shr_fexp. cbn [Zdigits2]. rewrite Hmz.
    unfold fexp, SpecFloat.emin, prec, emax.
    replace (Z.max (53 + ez - 53) (3 - 1024 - 53) - ez) with 0 by lia.
    reflexivity. }
  assert (Haux : forall (mz : positive) (ez : Z),
             Zpos (digits2_pos mz) = 53 -> -52 <= ez <= 0 ->
             binary_round_aux prec emax false (Zpos mz) ez loc_Exact
             = S754_finite false mz ez).
  { intros mz ez Hmz Hez. unfold binary_round_aux.
    rewrite Hshr by assumption.
    cbn [shr_m loc_of_shr_record round_nearest_even].
    rewrite Hshr by assumption. cbn [shr_m].
    unfold prec, emax. destruct (Z.leb_spec ez (1024 - 53)); [reflexivity|lia]. }
  unfold binary_normalize, binary_round, shl_align.
  unfold fexp, SpecFloat.emin, prec, emax.
  destruct (Z.max (Zpos (digits2_pos p) + 0 - 53) (3 - 1024 - 53) - 0)
    as [|k|k] eqn:Ek; try lia.
  - exists p, 0. split; [|reflexivity]. apply Haux; lia.
  - destruct (pos_iter_xO p k) as [Hv Hdig].
    exists (Pos.iter xO p k), (Z.max (Zpos (digits2_pos p) + 0 - 53) (3 - 1024 - 53)).
    split; [apply Haux; lia|].
    rewrite Z.shiftl_div_pow2 by lia. rewrite Hv.
    replace (- Z.max (Zpos (digits2_pos p) + 0 - 53) (3 - 1024 - 53)) with (Zpos k) by lia.
    apply Z.div_mul. apply Z.pow_nonzero; lia.
Qed.

Lemma of_int_SF (z : Z) :
  0 <= z < 2 ^ 53 ->
  Prim2SF (of_int z) = binary_normalize prec emax z 0 false.
Proof.
  intros Hz. unfold of_int. destruct (Z.ltb_spec z 0); [lia|].
  rewrite FloatAxioms.of_uint63_spec, Uint63.of_Z_spec. rewrite Z.mod_small; [reflexivity|].
  change Uint63.wB with (2 ^ 63). split; [lia|].
  apply Z.lt_trans with (2 ^ 53); [lia|]. reflexivity.
Qed.

Lemma trunc_SF_finite (s : bool) (m : positive) (e : Z) :
  trunc_SF (S754_finite s m e)
  = Some (if s then - Z.shiftl (Zpos m) e else Z.shiftl (Zpos m) e).
Proof. destruct e; reflexivity. Qed.

Lemma of_int_cases (z : Z) :
  0 <= z < 2 ^ 53 ->
  (z = 0 /\ Prim2SF (of_int z) = S754_zero false)
  \/ (exists m e, Prim2SF (of_int z) = S754_finite false m e
                  /\ Z.shiftl (Zpos m) e = z).
Proof.
  intros Hz. rewrite of_int_SF by exact Hz.
  destruct (Z.eq_dec z 0) as [->|Hnz]; [left; split; reflexivity|right].
  apply binary_normalize_exact. lia.
Qed.

Lemma to_int_of_int (z : Z) : 0 <= z < 2 ^ 53 -> to_int (of_int z) = z.
Proof.
  intros Hz. unfold to_int.
  destruct (of_int_cases z Hz) as [[-> ->]|(m & e & -> & He)]; [reflexivity|].
  now rewrite trunc_SF_finite.
Qed.

(** [fmin] of a slice that is at least 1 and an exact integer: the
    integer part is between 0 and the integer. *)
Lemma to_int_fmin_bounds (x : float) (z : Z) :
  0 <= z < 2 ^ 53 ->
  let ts := if PrimFloat.ltb x 1 then 1%float else x in
  0 <= to_int (fmin ts (of_int z)) <= z.
Proof.
  intros Hz ts.
  assert (Hts : PrimFloat.ltb ts 1 = false).
  { unfold ts. destruct (PrimFloat.ltb x 1) eqn:E; [reflexivity|exact E]. }
  clearbody ts. unfold fmin.
  destruct (PrimFloat.is_nan ts) eqn:Hn1; [rewrite to_int_of_int; lia|].
  destruct (PrimFloat.is_nan (of_int z)) eqn:Hn2.
  { exfalso. unfold PrimFloat.is_nan in Hn2. rewrite FloatAxioms.eqb_spec in Hn2.
    unfold SFeqb in Hn2. rewrite SFcompare_refl in Hn2; [discriminate|].
    destruct (of_int_cases z Hz) as [[_ ->]|(m & e & -> & _)]; discriminate. }
  destruct (PrimFloat.ltb (of_int z) ts) eqn:Hlt; [rewrite to_int_of_int; lia|].
  apply is_nan_spec in Hn1.
  rewrite FloatAxioms.ltb_spec in Hts, Hlt.
  pose proof (SFltb_one_pos _ Hn1 Hts) as Hpos.
  pose proof (Prim2SF_valid ts) as Hv.
  pose proof (Prim2SF_valid (of_int z)) as Hvz.
  unfold to_int.
  destruct (of_int_cases z Hz) as [[-> E]|(m & e & E & He)]; rewrite E in *.
  - rewrite SFltb_zero_pos in Hlt by exact Hpos. discriminate.
  - destruct (Prim2SF ts) as [[]|[]| |[] mt et]; simpl in Hpos; try tauto.
    + discriminate.
    + rewrite trunc_SF_finite.
      pose proof (SFltb_trunc_le prec emax eq_refl mt et m e Hv Hvz Hlt).
      split; [apply Z.shiftl_nonneg|]; lia.
Qed.

Lemma add_nonneg (x y : float) :
  PrimFloat.leb 0 x = true -> PrimFloat.leb 0 y = true ->
  PrimFloat.leb 0 (x + y) = true.
Proof.
  rewrite !leb0_nonneg, FloatAxioms.add_spec. apply SFadd_nonneg.
Qed.

Lemma add_pos (x y : float) :
  PrimFloat.ltb 0 x = true -> PrimFloat.leb 0 y = true ->
  PrimFloat.ltb 0 (x + y) = true.
Proof.
  rewrite !ltb0_pos, leb0_nonneg, FloatAxioms.add_spec.
  apply SFadd_pos; [reflexivity|apply Prim2SF_valid..].
Qed.

Lemma div_nonneg (z : Z) (w : float) :
  0 <= z < 2 ^ 53 -> PrimFloat.ltb 0 w = true ->
  PrimFloat.leb 0 (of_int z / w) = true.
Proof.
  intros Hz. rewrite ltb0_pos, leb0_nonneg, FloatAxioms.div_spec.
  intros Hw. apply SFdiv_nonneg; [|exact Hw].
  destruct (of_int_cases z Hz) as [[_ ->]|(m & e & -> & _)]; exact I.
Qed.

Lemma ltb_nonneg_pos (a b : float) :
  PrimFloat.leb 0 a = true -> PrimFloat.ltb a b = true ->
  PrimFloat.ltb 0 b = true.
Proof.
  rewrite leb0_nonneg, ltb0_pos, FloatAxioms.ltb_spec. apply SFltb_nonneg_pos.
Qed.

End DoubleFacts.

(** ** The event loops on the late-arrival inputs *)

Module Runs.
Import Gantt Scenario.

(** C1.  A job that arrives at the instant a slice ends is inserted by
    both arrival loops; its second entry is dispatched after the job
    has finished and is counted as one more completion.  On
    [cfs_input] the loop of CFS.c stops with job 3 unfinished (4 units
    left, 18 of 22 units executed); on [dps_input] the loop of
    DPS-DTQ.c stops with job 2 never dispatched (8 of 19 units
    executed). *)
Theorem C1_run_ends_with_unfinished_work :
  option_map
    (fun s => (map CFS.remaining_burst (CFS.processes s),
               map CFS.completed (CFS.processes s),
               executed_total (CFS.gantt_chart s),
               CFS.completed_processes s))
    (CFS.runCFS 5 cfs_input)
  = Some ([0; 0; 4], [true; true; false], 18, 3)
  /\ total_burst cfs_input = 22
  /\ option_map
       (fun s => (map DPS.remaining_burst (DPS.processes s),
                  map DPS.executed (DPS.processes s),
                  executed_total (DPS.gantt_chart s),
                  DPS.completed_processes s))
       (DPS.runDPS_DTQ 6 dps_input)
     = Some ([0; 1; 0], [true; false; true], 18, 3)
  /\ total_burst dps_input = 19.
Proof. vm_compute. repeat split. Qed.

(** C2.  At the third iteration of CFS.c on [cfs_input] (time 8), after
    the arrival loop, the tree holds the entry of job 2 twice, while
    exactly one process has arrived and is unfinished.  In DPS-DTQ.c
    on [dps_input] the queue holds job 3 twice at the second iteration
    (time 5). *)
Theorem C2_structure_holds_a_process_twice :
  (let s := CFS.arrivals (CFS.iterate 2 (CFS.initial_state cfs_input)) in
   CFS.current_time s = 8
   /\ CFS.inorder (CFS.root s) = [1%nat; 1%nat]
   /\ cfs_arrived_unfinished s = [1%nat])
  /\ (let s := DPS.arrivals (DPS.iterate 1 (DPS.initial_state dps_input)) in
      DPS.current_time s = 5
      /\ DPS.ready_queue s = [0%nat; 1%nat; 2%nat; 2%nat]).
Proof. vm_compute. repeat split. Qed.

(** C3.  The loop of CFS.c on [cfs_input] terminates after 5
    iterations, and its fifth iteration is a dispatch (of the second
    entry of job 2, which is finished) that executes nothing: the
    remaining work is 4 before and after it. *)
Theorem C3_dispatch_without_progress :
  let s := CFS.iterate 4 (CFS.initial_state cfs_input) in
  option_map fst (CFS.extractMinVruntime (CFS.root (CFS.arrivals s)))
  = Some 1%nat
  /\ cfs_remaining_work s = 4
  /\ cfs_remaining_work (CFS.iteration s) = 4
  /\ CFS.current_time (CFS.iteration s) = CFS.current_time s
  /\ option_map CFS.completed_processes (CFS.loop 1 s) = Some 3.
Proof. vm_compute. repeat split. Qed.

(** C8.  The chart CFS.c records on [cfs_input] ends with the empty
    interval (job 2, 18, 18): its start is not smaller than its end. *)
Theorem C8_chart_with_empty_interval :
  option_map CFS.gantt_chart (CFS.runCFS 5 cfs_input)
  = Some [mkItem 1 0 6; mkItem 1 6 8; mkItem 2 8 12; mkItem 3 12 18;
          mkItem 2 18 18]
  /\ option_map
       (fun s => map (fun it => start_time it <? end_time it)
                   (DPS.gantt_chart s))
       (DPS.runDPS_DTQ 6 dps_input)
     = Some [true; true; true; true; true; false].
Proof. vm_compute. repeat split. Qed.

End Runs.

(** ** Equal keys in the selection structures *)

Module Ties.
Import Scenario.

(** *** The tree of CFS.c *)



(** *** The bubble sort of DPS-DTQ.c *)

Section Bubble.
Variable ps : list DPS.Process.

Lemma bubble_pass_perm (k : nat) (q : list nat) :
  Permutation (DPS.bubble_pass ps k q) q.
Proof.
  revert q. induction k as [|k IH]; intros q; [destruct q; reflexivity|].
  destruct q as [|a [|b r]]; simpl; try reflexivity.
  destruct (_ <? _).
  - rewrite IH. apply perm_swap.
  - now rewrite IH.
Qed.

Lemma bubble_pass_length (k : nat) (q : list nat) :
  length (DPS.bubble_pass ps k q) = length q.
Proof. apply Permutation_length, bubble_pass_perm. Qed.

(** Entries of one DPS.system_priority_at ps keep their order: only entries of different keys
    are swapped. *)
Lemma bubble_pass_filter (K : Z) (k : nat) (q : list nat) :
  filter (fun i => DPS.system_priority_at ps i =? K) (DPS.bubble_pass ps k q)
  = filter (fun i => DPS.system_priority_at ps i =? K) q.
Proof.
  revert q. induction k as [|k IH]; intros q; [destruct q; reflexivity|].
  destruct q as [|a [|b r]]; simpl; try reflexivity.
  destruct (Z.ltb_spec (DPS.system_priority_at ps a) (DPS.system_priority_at ps b)) as [Hlt|Hge]; simpl; rewrite IH; simpl.
  - destruct (Z.eqb_spec (DPS.system_priority_at ps a) K), (Z.eqb_spec (DPS.system_priority_at ps b) K);
      try reflexivity; lia.
  - reflexivity.
Qed.

Lemma bubble_pass_app (k : nat) (A B : list nat) :
  (k < length A)%nat ->
  DPS.bubble_pass ps k (A ++ B) = DPS.bubble_pass ps k A ++ B.
Proof.
  revert A. induction k as [|k IH]; intros A Hk.
  - reflexivity.
  - destruct A as [|a [|b r]]; simpl in Hk; try lia. simpl.
    destruct (_ <? _); simpl; f_equal.
    + apply (IH (a :: r)). simpl. lia.
    + apply (IH (b :: r)). simpl. lia.
Qed.

(** A pass over a whole list leaves an entry of the smallest DPS.system_priority_at ps last. *)
Lemma bubble_pass_last (k : nat) (A : list nat) :
  length A = S k ->
  exists A' m, DPS.bubble_pass ps k A = A' ++ [m]
               /\ forall x, In x A -> DPS.system_priority_at ps m <= DPS.system_priority_at ps x.
Proof.
  revert A. induction k as [|k IH]; intros A Hl.
  - destruct A as [|a [|b r]]; try discriminate.
    exists [], a. split; [reflexivity|]. intros x [->|[]]. lia.
  - destruct A as [|a [|b r]]; try discriminate. simpl.
      destruct (Z.ltb_spec (DPS.system_priority_at ps a) (DPS.system_priority_at ps b)) as [Hlt|Hge].
    + destruct (IH (a :: r)) as (A' & m & He & Hm); [simpl in *; lia|].
      exists (b :: A'), m. rewrite He. split; [reflexivity|].
      intros x [->|[->|Hx]].
      * apply Hm. now left.
      * specialize (Hm a (or_introl eq_refl)). lia.
      * apply Hm. now right.
    + destruct (IH (b :: r)) as (A' & m & He & Hm); [simpl in *; lia|].
      exists (a :: A'), m. rewrite He. split; [reflexivity|].
      intros x [->|[->|Hx]].
      * specialize (Hm b (or_introl eq_refl)). lia.
      * apply Hm. now left.
      * apply Hm. now right.
Qed.

Lemma settled_pass (n i : nat) (q : list nat) :
  (S i < n)%nat -> settled (DPS.system_priority_at ps) n i q ->
  settled (DPS.system_priority_at ps) n (S i) (DPS.bubble_pass ps (length q - i - 1) q).
Proof.
  intros Hi (A & B & -> & Hn & HB & Hs & HAB).
  rewrite length_app in Hn.
  rewrite bubble_pass_app by (rewrite length_app; lia).
  destruct (bubble_pass_last (length (A ++ B) - i - 1) A) as (A' & m & He & Hm).
  { rewrite length_app. lia. }
  rewrite He.
  assert (Hp : Permutation (A' ++ [m]) A)
    by (rewrite <- He; apply bubble_pass_perm).
  exists A', (m :: B). repeat split.
  - now rewrite <- app_assoc.
  - rewrite length_app, (Permutation_length Hp). lia.
  - simpl. lia.
  - constructor; [exact Hs|]. apply Forall_forall. intros b Hb.
    apply HAB; [|exact Hb].
    eapply Permutation_in; [exact Hp|]. apply in_or_app. right. now left.
  - intros a b Ha [<-|Hb].
    + apply Hm. eapply Permutation_in; [exact Hp|]. apply in_or_app. now left.
    + apply HAB; [|exact Hb].
      eapply Permutation_in; [exact Hp|]. apply in_or_app. now left.
Qed.

Lemma settled_fold (n k i : nat) (q : list nat) :
  (i + k < n)%nat -> settled (DPS.system_priority_at ps) n i q ->
  settled (DPS.system_priority_at ps) n (i + k)
    (fold_left (fun q i => DPS.bubble_pass ps (length q - i - 1) q) (seq i k) q).
Proof.
  revert i q. induction k as [|k IH]; intros i q Hk Hq; simpl.
  - now rewrite Nat.add_0_r.
  - replace (i + S k)%nat with (S i + k)%nat by lia.
    apply IH; [lia|]. apply settled_pass; [lia|exact Hq].
Qed.

Lemma bubble_sort_sorted (q : list nat) :
  StronglySorted (fun a b => DPS.system_priority_at ps b <= DPS.system_priority_at ps a) (DPS.bubble_sort ps q).
Proof.
  unfold DPS.bubble_sort.
  destruct q as [|a q]; [constructor|].
  destruct (settled_fold (length (a :: q)) (length (a :: q) - 1) 0 (a :: q))
    as (A & B & He & Hn & HB & Hs & HAB).
  { simpl. lia. }
  { exists (a :: q), []. rewrite app_nil_r. repeat split; [constructor|].
    intros ? ? _ []. }
  simpl Nat.add in He. rewrite He.
  rewrite He, length_app in Hn. simpl in Hn, HB.
  destruct A as [|x [|y A]]; simpl in Hn; try lia.
  simpl. constructor; [exact Hs|].
  apply Forall_forall. intros b Hb. apply HAB; [now left|exact Hb].
Qed.

Lemma bubble_sort_perm (q : list nat) : Permutation (DPS.bubble_sort ps q) q.
Proof.
  unfold DPS.bubble_sort. generalize (seq 0 (length q - 1)) as l.
  intros l. revert q. induction l as [|i l IH]; intros q; simpl; [reflexivity|].
  rewrite IH. apply bubble_pass_perm.
Qed.

Lemma bubble_sort_filter (K : Z) (q : list nat) :
  filter (fun i => DPS.system_priority_at ps i =? K) (DPS.bubble_sort ps q)
  = filter (fun i => DPS.system_priority_at ps i =? K) q.
Proof.
  unfold DPS.bubble_sort. generalize (seq 0 (length q - 1)) as l.
  intros l. revert q. induction l as [|i l IH]; intros q; simpl; [reflexivity|].
  rewrite IH. apply bubble_pass_filter.
Qed.




End Bubble.




End Ties.

(** ** The total weight of CFS.c *)

Module TotalWeight.
Import CFS Scenario.

Lemma cfs_arrive_now (s : State) (i : nat) : cfs (arrive_now s i) = cfs s.
Proof.
  unfold arrive_now. destruct (nth_error (processes s) i); [|reflexivity].
  destruct (_ && _); reflexivity.
Qed.

Lemma cfs_arrive_during (e : Z) (s : State) (i : nat) :
  cfs (arrive_during e s i) = cfs s.
Proof.
  unfold arrive_during. destruct (nth_error (processes s) i); [|reflexivity].
  destruct (_ && _); reflexivity.
Qed.

Lemma cfs_fold (f : State -> nat -> State)
    (Hf : forall s i, cfs (f s i) = cfs s) (l : list nat) (s : State) :
  cfs (fold_left f l s) = cfs s.
Proof.
  revert s. induction l as [|i l IH]; intros s; simpl; [reflexivity|].
  rewrite IH. apply Hf.
Qed.

Lemma total_weight_execute (s : State) (cur : nat) (rest : RBNode) :
  total_weight (cfs (fst (execute s cur rest))) = total_weight (cfs s).
Proof.
  unfold execute. destruct (nth_error (processes s) cur); [|reflexivity].
  cbv zeta. destruct (_ <=? 0); reflexivity.
Qed.

Lemma total_weight_iteration (s : State) :
  total_weight (cfs (iteration s)) = total_weight (cfs s).
Proof.
  unfold iteration. cbv zeta.
  assert (Ha : cfs (arrivals s) = cfs s)
    by (unfold arrivals; apply cfs_fold, cfs_arrive_now).
  destruct (extractMinVruntime (root (arrivals s))) as [[cur rest]|].
  - unfold dispatch.
    pose proof (total_weight_execute (arrivals s) cur rest) as He.
    destruct (execute (arrivals s) cur rest) as [s' e]. simpl in He.
    unfold late_arrivals.
    rewrite cfs_fold by apply cfs_arrive_during. now rewrite He, Ha.
  - unfold idle_step. simpl. now rewrite Ha.
Qed.

Lemma snd_execute (s : State) (cur : nat) (rest : RBNode) (p : Process) :
  nth_error (processes s) cur = Some p ->
  let target := target_latency_of (cfs s) (Z.of_nat (num s))
                  (completed_processes s) in
  snd (execute s cur rest)
  = execution_time_of
      (mkParams (min_granularity (cfs s)) (latency (cfs s)) target
         (total_weight (cfs s))) target p.
Proof.
  intros Hp. unfold execute. rewrite Hp. cbv zeta.
  destruct (_ <=? 0); reflexivity.
Qed.

(** C5 (as the code has it).  Whatever the input, at every iteration of
    the loop, when the process to run is selected, [cfs->total_weight]
    is the value stored before the loop, the sum of the weights of all
    the processes of the table, and it is the total weight the time
    slice of the dispatch is computed from. *)
Theorem C5_total_weight_is_computed_once (input : list Input) (k : nat) :
  let s := arrivals (iterate k (initial_state input)) in
  let target := target_latency_of (cfs s) (Z.of_nat (num s))
                  (completed_processes s) in
  total_weight (cfs s) = initial_total_weight (map init_process input)
  /\ forall cur rest,
       match nth_error (processes s) cur with
       | Some p =>
           snd (execute s cur rest)
           = execution_time_of
               (mkParams (min_granularity (cfs s)) (latency (cfs s)) target
                  (initial_total_weight (map init_process input)))
               target p
       | None => True
       end.
Proof.
  cbv zeta.
  assert (H : forall k s, total_weight (cfs (iterate k s)) = total_weight (cfs s)).
  { clear. induction k as [|k IH]; intros s; simpl; [reflexivity|].
    rewrite IH. apply total_weight_iteration. }
  specialize (H k (initial_state input)). simpl in H.
  assert (Ha : total_weight (cfs (arrivals (iterate k (initial_state input))))
               = initial_total_weight (map init_process input)).
  { unfold arrivals. rewrite cfs_fold by apply cfs_arrive_now. exact H. }
  split; [exact Ha|].
  intros cur rest.
  destruct (nth_error (processes (arrivals (iterate k (initial_state input)))) cur)
    as [p|] eqn:Hp; [|exact I].
  rewrite (snd_execute _ _ _ _ Hp). cbv zeta. now rewrite Ha.
Qed.

(** C5 as stated fails at the first dispatch of the sample input: one
    process has arrived (weight 1.0015...), the total weight used is 3,
    and the slice is 6 where the total over the arrived processes
    gives 8. *)
Lemma C5_counterexample :
  let s := arrivals (initial_state sample_input) in
  cfs_arrived_unfinished s = [0%nat]
  /\ total_weight (cfs s) = 3
  /\ PrimFloat.eqb (CDouble.of_int (total_weight (cfs s))) (cfs_active_weight s)
     = false
  /\ option_map (fun p => (snd (execute s 0 NULL), cfs_quantum_spec s p))
       (nth_error (processes s) 0)
     = Some (6, 8).
Proof. vm_compute. repeat split. Qed.

End TotalWeight.

(** ** The priority of DPS-DTQ.c *)

Module Priority.
Import DPS Scenario.

(** C6.  [calculateDynamicPriority] stores 100 times the priority into
    [system_priority], the field the manual-priority component is read
    from.  On the sample input, at the first dispatch the sort leaves
    30 in the field of job 1 (input priority 5), so the priority the
    quantum is computed from has the component 3 and is 0.559 and not
    0.309; at the second dispatch the components of the ready
    processes are 5.5, 0.8 and 0.3. *)
Theorem C6_priority_feeds_back_into_itself :
  (let s := arrivals (initial_state sample_input) in
   let '(q, ps, d) := dps_sorted s in
   hd_error q = Some 0%nat
   /\ map system_priority ps = [30; 8; 3]
   /\ option_map
        (fun p => (system_priority_component p,
                   CDouble.to_int (dynamic_priority p 0 d * 1000),
                   CDouble.to_int
                     (dps_priority_spec (1, 0, 8, 20, 7, 0, 5) 0 0 * 1000)))
        (nth_error ps 0)
      = Some (3%float, 559, 309))
  /\ (let s := arrivals (iterate 1 (initial_state sample_input)) in
      current_time s = 5
      /\ ready_queue s = [0%nat; 1%nat; 2%nat]
      /\ map system_priority_component (processes s)
         = [5.5%float; 0.8%float; 0.3%float]).
Proof. vm_compute. repeat split. Qed.

End Priority.

(** ** The quantum of reference-paper-algo.c *)

Module Quantum.
Import SRPT Scenario.

(** *** The sort of [median] *)

Lemma exchange_pass_spec (rest : list Z) (x : Z) :
  Permutation (x :: rest) (fst (exchange_pass x rest) :: snd (exchange_pass x rest))
  /\ Forall (Z.le (fst (exchange_pass x rest))) (snd (exchange_pass x rest))
  /\ length (snd (exchange_pass x rest)) = length rest.
Proof.
  revert x. induction rest as [|y r IH]; intros x; simpl.
  - repeat split; auto.
  - destruct (Z.gtb_spec x y) as [Hgt|Hle].
    + destruct (IH y) as (Hp & Hf & Hl).
      destruct (exchange_pass y r) as [m r'] eqn:E. simpl in *.
      repeat split.
      * transitivity (x :: m :: r'); [now constructor|apply perm_swap].
      * constructor; [|exact Hf].
        assert (Hin : In y (m :: r')) by (eapply Permutation_in; [exact Hp|now left]).
        destruct Hin as [->|Hin]; [lia|].
        rewrite Forall_forall in Hf. specialize (Hf _ Hin). lia.
      * now rewrite Hl.
    + destruct (IH x) as (Hp & Hf & Hl).
      destruct (exchange_pass x r) as [m r'] eqn:E. simpl in *.
      repeat split.
      * transitivity (y :: x :: r); [apply perm_swap|].
        transitivity (y :: m :: r'); [now constructor|apply perm_swap].
      * constructor; [|exact Hf].
        assert (Hin : In x (m :: r')) by (eapply Permutation_in; [exact Hp|now left]).
        destruct Hin as [->|Hin]; [lia|].
        rewrite Forall_forall in Hf. specialize (Hf _ Hin). lia.
      * now rewrite Hl.
Qed.

Lemma exchange_sort_from_spec (k : nat) (l : list Z) :
  (length l <= k)%nat ->
  Permutation l (exchange_sort_from k l)
  /\ StronglySorted Z.le (exchange_sort_from k l).
Proof.
  revert l. induction k as [|k IH]; intros l Hk.
  - destruct l; [|simpl in Hk; lia]. simpl. split; constructor.
  - destruct l as [|x r]; simpl; [split; constructor|].
    destruct (exchange_pass_spec r x) as (Hp & Hf & Hl).
    destruct (exchange_pass x r) as [m r'] eqn:E. simpl in *.
    destruct (IH r') as (Hp' & Hs'); [lia|].
    split.
    + rewrite Hp. now constructor.
    + constructor; [exact Hs'|].
      eapply Permutation_Forall; [exact Hp'|exact Hf].
Qed.

Lemma exchange_sort_spec (l : list Z) :
  Permutation l (exchange_sort l) /\ StronglySorted Z.le (exchange_sort l).
Proof. apply exchange_sort_from_spec. lia. Qed.

(** *** The ascending arrangement *)

Lemma insert_time_perm (x : Z) (l : list Z) :
  Permutation (x :: l) (insert_time x l).
Proof.
  induction l as [|y l IH]; simpl; [reflexivity|].
  destruct (x <=? y); [reflexivity|].
  rewrite perm_swap. now constructor.
Qed.

Lemma insert_time_sorted (x : Z) (l : list Z) :
  StronglySorted Z.le l -> StronglySorted Z.le (insert_time x l).
Proof.
  induction 1 as [|y l Hs IH Hf]; simpl.
  - repeat constructor.
  - destruct (Z.leb_spec x y).
    + constructor; [now constructor|].
      constructor; [assumption|].
      eapply Forall_impl; [|exact Hf]. intros; simpl in *; lia.
    + constructor; [exact IH|].
      eapply Permutation_Forall; [apply insert_time_perm|].
      constructor; [lia|exact Hf].
Qed.

Lemma ascending_spec (l : list Z) :
  Permutation l (ascending l) /\ StronglySorted Z.le (ascending l).
Proof.
  induction l as [|x l [Hp Hs]]; simpl; [split; constructor|].
  split.
  - rewrite <- insert_time_perm. now constructor.
  - now apply insert_time_sorted.
Qed.

Lemma sorted_permutation_unique (l1 l2 : list Z) :
  StronglySorted Z.le l1 -> StronglySorted Z.le l2 -> Permutation l1 l2 ->
  l1 = l2.
Proof.
  intros H1. revert l2. induction H1 as [|a l1 Hs1 IH Hf1]; intros l2 H2 Hp.
  - now apply Permutation_nil in Hp.
  - destruct H2 as [|b l2 Hs2 Hf2].
    + symmetry in Hp. now apply Permutation_nil in Hp.
    + assert (a = b).
      { assert (Ha : In a (b :: l2)) by (eapply Permutation_in; [exact Hp|now left]).
        assert (Hb : In b (a :: l1))
          by (eapply Permutation_in; [symmetry; exact Hp|now left]).
        rewrite Forall_forall in Hf1, Hf2.
        destruct Ha as [->|Ha]; [reflexivity|].
        destruct Hb as [->|Hb]; [reflexivity|].
        specialize (Hf1 _ Hb). specialize (Hf2 _ Ha). lia. }
      subst b. f_equal. apply IH; [exact Hs2|].
      now apply Permutation_cons_inv in Hp.
Qed.

Lemma exchange_sort_ascending (l1 l2 : list Z) :
  Permutation l1 l2 -> exchange_sort l1 = ascending l2.
Proof.
  intros Hp.
  destruct (exchange_sort_spec l1) as [Hp1 Hs1].
  destruct (ascending_spec l2) as [Hp2 Hs2].
  apply sorted_permutation_unique; [assumption..|].
  now rewrite <- Hp1, Hp.
Qed.

(** *** Mean and median over the ready set *)

Lemma fold_left_add (l : list Z) (a : Z) :
  fold_left Z.add l a = a + fold_right Z.add 0 l.
Proof.
  revert a. induction l as [|x l IH]; intros a; simpl; [lia|].
  rewrite IH. lia.
Qed.

Lemma sum_permutation (l1 l2 : list Z) :
  Permutation l1 l2 -> fold_right Z.add 0 l1 = fold_right Z.add 0 l2.
Proof. induction 1; simpl; lia. Qed.

Lemma mean_is_spec (l1 l2 : list Z) :
  Permutation l1 l2 -> mean l1 = srpt_mean_spec l2.
Proof.
  intros Hp. unfold mean, srpt_mean_spec.
  rewrite fold_left_add, (sum_permutation _ _ Hp), (Permutation_length Hp).
  reflexivity.
Qed.

Lemma even_mod2 (n : nat) : (n mod 2 =? 0)%nat = Nat.even n.
Proof.
  destruct (Nat.even n) eqn:E.
  - apply Nat.eqb_eq. apply Nat.even_spec in E. destruct E as [k ->].
    rewrite Nat.mul_comm. apply Nat.Div0.mod_mul.
  - apply Nat.eqb_neq. intros H.
    assert (Nat.even n = true); [|congruence].
    apply Nat.even_spec. exists (n / 2)%nat.
    pose proof (Nat.div_mod_eq n 2). lia.
Qed.

Lemma median_is_spec (l1 l2 : list Z) :
  Permutation l1 l2 -> median l1 = srpt_median_spec l2.
Proof.
  intros Hp. unfold median, srpt_median_spec. cbv zeta.
  rewrite (exchange_sort_ascending _ _ Hp), (Permutation_length Hp), even_mod2.
  destruct (Nat.even (length l2)); [|reflexivity].
  now rewrite Z.add_comm.
Qed.


(** *** One admissible [qsort] *)

Lemma insert_sorted_perm (p : Process) (l : list Process) :
  Permutation (insert_sorted p l) (p :: l).
Proof.
  induction l as [|q l IH]; simpl; [reflexivity|].
  destruct (_ <? 0); [reflexivity|].
  rewrite IH. apply perm_swap.
Qed.

Lemma stable_sort_perm (l : list Process) : Permutation (stable_sort l) l.
Proof.
  induction l as [|p l IH]; simpl; [reflexivity|].
  rewrite insert_sorted_perm. now constructor.
Qed.






End Quantum.

(** ** The load balancing efficiency of [calculateMetrics] *)

Module MetricsFacts.
Import Metrics Scenario.

Section Calc.
Variable Process : Type.
Variables turnaround_time waiting_time response_time : Process -> Z.

Lemma total_waiting_fold (ps : list Process) (a : Sums) :
  total_waiting_time (fold_left (accumulate Process turnaround_time waiting_time response_time) ps a)
  = fold_left PrimFloat.add (map CDouble.of_int (map waiting_time ps))
      (total_waiting_time a).
Proof.
  revert a. induction ps as [|p ps IH]; intros a; simpl; [reflexivity|].
  now rewrite IH.
Qed.

Lemma variance_sum_fold (m : float) (ps : list Process) (v : float) :
  fold_left
    (fun v p => (v + pow2 (CDouble.of_int (waiting_time p) - m))%float) ps v
  = fold_left PrimFloat.add
      (map (fun w => pow2 (CDouble.of_int w - m)) (map waiting_time ps)) v.
Proof.
  revert v. induction ps as [|p ps IH]; intros v; simpl; [reflexivity|].
  now rewrite IH.
Qed.



End Calc.




End MetricsFacts.

(** ** New arrivals in the tree of CFS.c *)

Module FairnessFacts.
Import CFS Fairness DoubleFacts.

(** *** The table *)

Lemma update_nil (i : nat) (f : Process -> Process) : update i f [] = [].
Proof. unfold update. now destruct i. Qed.

Lemma update_cons_0 (f : Process -> Process) (p : Process) (ps : list Process) :
  update 0 f (p :: ps) = f p :: ps.
Proof. reflexivity. Qed.

Lemma update_cons_S (i : nat) (f : Process -> Process) (p : Process)
    (ps : list Process) :
  update (S i) f (p :: ps) = p :: update i f ps.
Proof. unfold update. simpl. now destruct (nth_error ps i). Qed.

Lemma nth_error_update (f : Process -> Process) (ps : list Process) (i j : nat) :
  nth_error (update i f ps) j
  = if (j =? i)%nat then option_map f (nth_error ps j) else nth_error ps j.
Proof.
  revert i j. induction ps as [|p ps IH]; intros i j.
  - rewrite update_nil. destruct (j =? i)%nat, j; reflexivity.
  - destruct i as [|i].
    + rewrite update_cons_0. destruct j; reflexivity.
    + rewrite update_cons_S. destruct j as [|j]; [reflexivity|]. simpl. apply IH.
Qed.

Lemma Forall_update (P : Process -> Prop) (f : Process -> Process)
    (ps : list Process) (i : nat) :
  Forall P ps -> (forall p, nth_error ps i = Some p -> P (f p)) ->
  Forall P (update i f ps).
Proof.
  revert i. induction ps as [|p ps IH]; intros i Hps Hf.
  - now rewrite update_nil.
  - inversion Hps as [|? ? Hp Hps']; subst. destruct i as [|i].
    + rewrite update_cons_0. constructor; [now apply Hf|exact Hps'].
    + rewrite update_cons_S. constructor; [exact Hp|]. now apply IH.
Qed.

Lemma vruntime_at_update (f : Process -> Process) (ps : list Process)
    (i j : nat) :
  vruntime_at (update i f ps) j
  = if (j =? i)%nat
    then match nth_error ps j with
         | Some p => vruntime (f p)
         | None => 0%float
         end
    else vruntime_at ps j.
Proof.
  unfold vruntime_at. rewrite nth_error_update.
  destruct (j =? i)%nat; [|reflexivity]. now destruct (nth_error ps j).
Qed.

Lemma Forall_nth_error (P : Process -> Prop) (ps : list Process) (i : nat)
    (p : Process) :
  Forall P ps -> nth_error ps i = Some p -> P p.
Proof.
  intros H Hp. rewrite Forall_forall in H. eapply H, nth_error_In, Hp.
Qed.

Lemma vruntime_at_nonneg (ps : list Process) (j : nat) :
  Forall process_ok ps -> PrimFloat.leb 0 (vruntime_at ps j) = true.
Proof.
  intros H. unfold vruntime_at.
  destruct (nth_error ps j) as [p|] eqn:Hp; [|reflexivity].
  apply (Forall_nth_error _ _ _ _ H Hp).
Qed.

(** *** The tree *)

Lemma tree_ok_ext (ps ps' : list Process) (t : RBNode) :
  (forall j, PrimFloat.ltb 0 (vruntime_at ps' j) = false ->
             PrimFloat.ltb 0 (vruntime_at ps j) = false) ->
  tree_ok ps t -> tree_ok ps' t.
Proof.
  intros Hext. induction t as [|q l IHl r IHr]; simpl; [trivial|].
  intros (Hq & Hl & Hr). repeat split; auto.
Qed.

Lemma insert_ext (ps ps' : list Process) (t : RBNode) (i : nat) :
  (forall j, vruntime_at ps' j = vruntime_at ps j) ->
  insert ps' t i = insert ps t i.
Proof.
  intros Hext. induction t as [|q l IHl r IHr]; simpl; [reflexivity|].
  now rewrite !Hext, IHl, IHr.
Qed.

Lemma insert_ok (ps : list Process) (t : RBNode) (i : nat) :
  PrimFloat.leb 0 (vruntime_at ps i) = true ->
  tree_ok ps t -> tree_ok ps (insert ps t i).
Proof.
  intros Hi. induction t as [|q l IHl r IHr]; simpl.
  - intros _. repeat split; trivial.
  - intros (Hq & Hl & Hr).
    destruct (PrimFloat.ltb (vruntime_at ps i) (vruntime_at ps q)) eqn:Hlt;
      simpl; repeat split; auto.
    intros Hz. rewrite (ltb_nonneg_pos _ _ Hi Hlt) in Hz. discriminate.
Qed.

Lemma extract_ok (ps : list Process) (t : RBNode) (p : nat) (t' : RBNode) :
  tree_ok ps t -> extractMinVruntime t = Some (p, t') -> tree_ok ps t'.
Proof.
  revert p t'. induction t as [|q l IHl r IHr]; intros p t'; simpl;
    [discriminate|].
  intros (Hq & Hl & Hr).
  destruct (extractMinVruntime l) as [[m l']|] eqn:El; intros [= <- <-].
  - simpl. repeat split; [|eapply IHl; eauto|exact Hr].
    intros Hz. specialize (Hq Hz). subst l. discriminate.
  - exact Hr.
Qed.

(** [extractMinVruntime] returns the entries in the order of [inorder]. *)
Lemma extract_inorder (t : RBNode) :
  match extractMinVruntime t with
  | Some (p, t') => inorder t = p :: inorder t'
  | None => inorder t = []
  end.
Proof.
  induction t as [|q l IHl r _]; simpl; [reflexivity|].
  destruct (extractMinVruntime l) as [[m l']|]; simpl.
  - now rewrite IHl.
  - now rewrite IHl.
Qed.

(** A process of key 0 is inserted behind entries whose key is not
    strictly positive only. *)
Lemma insert_inorder (ps : list Process) (t : RBNode) (i : nat) :
  vruntime_at ps i = 0%float -> tree_ok ps t ->
  exists before after,
    inorder t = before ++ after
    /\ inorder (insert ps t i) = before ++ i :: after
    /\ forall j, In j before -> PrimFloat.ltb 0 (vruntime_at ps j) = false.
Proof.
  intros Hi. induction t as [|q l IHl r IHr]; simpl.
  - intros _. exists [], []. repeat split. intros j [].
  - intros (Hq & Hl & Hr). rewrite Hi.
    destruct (PrimFloat.ltb 0 (vruntime_at ps q)) eqn:Hlt; simpl.
    + destruct (IHl Hl) as (b & a & E1 & E2 & Hb).
      exists b, (a ++ q :: inorder r). rewrite E1, E2, <- !app_assoc.
      repeat split. exact Hb.
    + rewrite (Hq eq_refl). simpl.
      destruct (IHr Hr) as (b & a & E1 & E2 & Hb).
      exists (q :: b), a. rewrite E1, E2. repeat split.
      intros j [<-|Hj]; [exact Hlt|now apply Hb].
Qed.

(** *** The invariant *)

Lemma nice_of_criticality_range (c : Z) : -20 <= nice_of_criticality c <= 19.
Proof.
  unfold nice_of_criticality, MIN_NICE_VALUE, MAX_NICE_VALUE. cbv zeta.
  destruct (Z.ltb_spec (19 - c * 3) (-20));
    match goal with |- context [?a >? ?b] => destruct (Z.gtb_spec a b) end; lia.
Qed.

Lemma weight_of_nice_pos (n : Z) :
  -20 <= n <= 19 -> PrimFloat.ltb 0 (weight_of_nice n) = true.
Proof.
  intros Hn.
  assert (H : forallb (fun k => PrimFloat.ltb 0 (weight_of_nice (Z.of_nat k - 20)))
                (seq 0 40) = true) by (vm_compute; reflexivity).
  rewrite forallb_forall in H. specialize (H (Z.to_nat (n + 20))).
  rewrite Z2Nat.id in H by lia.
  replace (n + 20 - 20) with n in H by lia.
  apply H, in_seq. lia.
Qed.

Lemma initial_ok (input : list Input) :
  valid_input input -> invariant (initial_state input).
Proof.
  intros Hv. split; [|exact I]. simpl.
  unfold valid_input in Hv. induction Hv as [|x input Hx _ IH]; simpl;
    constructor; [|exact IH].
  destruct x as [[[[[[i a] b] d] c] pe] ni]. simpl in Hx.
  unfold process_ok. simpl. repeat split; try lia.
  apply weight_of_nice_pos, nice_of_criticality_range.
Qed.

Lemma reset_same (ps : list Process) (i : nat) (p : Process) :
  nth_error ps i = Some p -> vruntime p = 0%float ->
  forall j, vruntime_at (update i (set_vruntime 0%float) ps) j = vruntime_at ps j.
Proof.
  intros Hp Hv j. rewrite vruntime_at_update.
  destruct (Nat.eqb_spec j i) as [->|]; [|reflexivity].
  unfold vruntime_at. rewrite Hp. simpl. now rewrite Hv.
Qed.

Lemma reset_ok (ps : list Process) (i : nat) :
  Forall process_ok ps -> Forall process_ok (update i (set_vruntime 0%float) ps).
Proof.
  intros H. apply Forall_update; [exact H|].
  intros p Hp. destruct (Forall_nth_error _ _ _ _ H Hp) as (_ & _ & Hw & Hr).
  unfold process_ok. simpl. repeat split; trivial; lia.
Qed.

(** The insertion of an arrival loop, for a process not yet executed. *)
Lemma enter_ok (ps : list Process) (t : RBNode) (i : nat) (p : Process) :
  Forall process_ok ps -> tree_ok ps t ->
  nth_error ps i = Some p -> executed p = false ->
  let ps' := update i (set_vruntime 0%float) ps in
  Forall process_ok ps' /\ tree_ok ps' (insert ps' t i).
Proof.
  intros Hps Ht Hp He ps'.
  destruct (Forall_nth_error _ _ _ _ Hps Hp) as (_ & Hv & _).
  pose proof (reset_same ps i p Hp (Hv He)) as Hsame.
  split; [now apply reset_ok|].
  unfold ps'. rewrite (insert_ext ps _ t i Hsame).
  apply (tree_ok_ext ps); [intros j; now rewrite Hsame|].
  apply insert_ok; [now apply vruntime_at_nonneg|exact Ht].
Qed.

Lemma arrive_now_ok (s : State) (i : nat) :
  invariant s -> invariant (arrive_now s i).
Proof.
  intros [Hps Ht]. unfold arrive_now.
  destruct (nth_error (processes s) i) as [p|] eqn:Hp; [|now split].
  destruct (_ && _); [|now split].
  destruct (executed p) eqn:He; simpl.
  - split; simpl; [exact Hps|].
    apply insert_ok; [now apply vruntime_at_nonneg|exact Ht].
  - apply (enter_ok _ _ _ _ Hps Ht Hp He).
Qed.

Lemma arrive_during_ok (e : Z) (s : State) (i : nat) :
  invariant s -> invariant (arrive_during e s i).
Proof.
  intros [Hps Ht]. unfold arrive_during.
  destruct (nth_error (processes s) i) as [p|] eqn:Hp; [|now split].
  destruct (executed p) eqn:He; simpl; [now split|].
  destruct (_ && _); [|now split].
  apply (enter_ok _ _ _ _ Hps Ht Hp He).
Qed.

Lemma idle_ok (s : State) : invariant s -> invariant (idle_step s).
Proof. intros [Hps Ht]. now split. Qed.

(** The slice of a dispatch is between 0 and the remaining time. *)
Lemma execution_time_bounds (c : CFSParams) (target : float) (p : Process) :
  0 <= remaining_burst p < 2 ^ 31 ->
  0 <= execution_time_of c target p <= remaining_burst p.
Proof.
  intros Hr. unfold execution_time_of, timeslice_of. cbv zeta.
  apply to_int_fmin_bounds. split; [lia|].
  apply Z.lt_trans with (2 ^ 31); [lia|reflexivity].
Qed.

(** The table entry of the dispatched process is replaced by [p']. *)
Lemma replace_ok (ps : list Process) (t : RBNode) (cur : nat) (p p' : Process) :
  Forall process_ok ps -> tree_ok ps t -> nth_error ps cur = Some p ->
  process_ok p' ->
  (PrimFloat.ltb 0 (vruntime p) = true -> PrimFloat.ltb 0 (vruntime p') = true) ->
  let ps' := update cur (fun _ => p') ps in
  Forall process_ok ps' /\ tree_ok ps' t /\ tree_ok ps' (insert ps' t cur).
Proof.
  intros Hps Ht Hp Hp' Hpos ps'.
  assert (Hps' : Forall process_ok ps') by (apply Forall_update; auto).
  assert (Ht' : tree_ok ps' t).
  { apply (tree_ok_ext ps); [|exact Ht].
    intros j. unfold ps'. rewrite vruntime_at_update.
    destruct (Nat.eqb_spec j cur) as [->|]; [|trivial].
    rewrite Hp. unfold vruntime_at. rewrite Hp.
    destruct (PrimFloat.ltb 0 (vruntime p)); [|trivial].
    rewrite Hpos; [discriminate|reflexivity]. }
  repeat split; trivial.
  apply insert_ok; [now apply vruntime_at_nonneg|exact Ht'].
Qed.

Lemma execute_ok (s : State) (cur : nat) (rest : RBNode) :
  invariant s -> extractMinVruntime (root s) = Some (cur, rest) ->
  invariant (fst (execute s cur rest)).
Proof.
  intros [Hps Ht] Hex. unfold execute.
  destruct (nth_error (processes s) cur) as [p|] eqn:Hp; [|now split].
  cbv zeta.
  destruct (Forall_nth_error _ _ _ _ Hps Hp) as (Hv & _ & Hw & Hr).
  set (c := mkParams _ _ _ _).
  set (target := target_latency_of _ _ _).
  pose proof (execution_time_bounds c target p Hr) as He.
  set (e := execution_time_of c target p) in *.
  set (p1 := if negb (executed p) then set_first_execution (current_time s) p else p).
  assert (H1 : vruntime p1 = vruntime p /\ weight p1 = weight p
                /\ remaining_burst p1 = remaining_burst p /\ executed p1 = true).
  { unfold p1. destruct (executed p) eqn:Ee; simpl; auto. }
  destruct H1 as (E1 & E2 & E3 & E4).
  set (p3 := set_vruntime _ _).
  assert (Hez : 0 <= e < 2 ^ 53).
  { split; [lia|]. apply Z.le_lt_trans with (2 ^ 31); [lia|reflexivity]. }
  assert (Hd : PrimFloat.leb 0 (CDouble.of_int e / weight p) = true)
    by (apply div_nonneg; assumption).
  assert (Hp3 : process_ok p3).
  { unfold process_ok, p3. simpl. rewrite E1, E2, E3, E4.
    repeat split; try lia; try discriminate; trivial.
    now apply add_nonneg. }
  assert (Hpos : PrimFloat.ltb 0 (vruntime p) = true ->
                 PrimFloat.ltb 0 (vruntime p3) = true).
  { intros Hlt. unfold p3. simpl. rewrite E1, E2. now apply add_pos. }
  pose proof (extract_ok _ _ _ _ Ht Hex) as Hrest.
  destruct (remaining_burst p3 <=? 0); simpl.
  - destruct (replace_ok _ _ _ _ (complete_at (current_time s + e) p3)
                Hps Hrest Hp) as (Ha & Hb & _); [exact Hp3|exact Hpos|].
    now split.
  - destruct (replace_ok _ _ _ _ p3 Hps Hrest Hp Hp3 Hpos) as (Ha & _ & Hb).
    now split.
Qed.

Lemma reachable_ok (input : list Input) (s : State) :
  valid_input input -> reachable input s -> invariant s.
Proof.
  intros Hv. induction 1.
  - now apply initial_ok.
  - now apply arrive_now_ok.
  - now apply idle_ok.
  - now apply execute_ok.
  - now apply arrive_during_ok.
Qed.

(** *** The loop goes through reachable states only *)

Lemma reachable_fold_now (input : list Input) (l : list nat) (s : State) :
  reachable input s -> reachable input (fold_left arrive_now l s).
Proof.
  revert s. induction l as [|i l IH]; intros s Hs; simpl; [exact Hs|].
  apply IH. now constructor.
Qed.

Lemma reachable_fold_during (input : list Input) (e : Z) (l : list nat)
    (s : State) :
  reachable input s -> reachable input (fold_left (arrive_during e) l s).
Proof.
  revert s. induction l as [|i l IH]; intros s Hs; simpl; [exact Hs|].
  apply IH. now constructor.
Qed.

Lemma reachable_iteration (input : list Input) (s : State) :
  reachable input s -> reachable input (iteration s).
Proof.
  intros Hs. unfold iteration. cbv zeta.
  assert (Ha : reachable input (arrivals s)) by now apply reachable_fold_now.
  destruct (extractMinVruntime (root (arrivals s))) as [[cur rest]|] eqn:Hex.
  - unfold dispatch.
    pose proof (reach_execute input _ _ _ Ha Hex) as He.
    destruct (execute (arrivals s) cur rest) as [s1 e]. simpl in He.
    now apply reachable_fold_during.
  - now constructor.
Qed.

Lemma reachable_iterate (input : list Input) (k : nat) :
  reachable input (iterate k (initial_state input)).
Proof.
  assert (H : forall s, reachable input s -> reachable input (iterate k s)).
  { induction k as [|k IH]; intros s Hs; simpl; [exact Hs|].
    now apply IH, reachable_iteration. }
  apply H. constructor.
Qed.

(** C10.  On an input whose burst times are positive and fit an [int],
    in every state the loop of [runCFS] goes through: when one of the
    arrival loops inserts a process that has not been dispatched yet, its
    virtual time is 0 afterwards, no process already in the tree has a
    smaller key, and in the order the tree returns its entries the new
    entry stands behind entries whose virtual time is not strictly
    positive only, that is, before every incumbent of strictly positive
    virtual time. *)
Theorem C10_new_arrival_has_the_smallest_key
    (input : list Input) (s s' : State) (i : nat) :
  valid_input input -> reachable input s -> enters s i s' ->
  vruntime_at (processes s') i = 0%float
  /\ (forall j, In j (inorder (root s)) ->
        PrimFloat.leb (vruntime_at (processes s') i)
          (vruntime_at (processes s') j) = true)
  /\ exists before after,
       inorder (root s) = before ++ after
       /\ inorder (root s') = before ++ i :: after
       /\ forall j, In j before ->
            PrimFloat.ltb 0 (vruntime_at (processes s') j) = false.
Proof.
  intros Hv Hs (p & Hp & He & Hin).
  destruct (reachable_ok _ _ Hv Hs) as [Hps Ht].
  assert (E : processes s' = update i (set_vruntime 0%float) (processes s)
              /\ root s' = insert (processes s') (root s) i).
  { destruct Hin as [[Hc ->]|(e & Hc & ->)].
    - unfold arrive_now. rewrite Hp, Hc, He. split; reflexivity.
    - unfold arrive_during. rewrite Hp, Hc. split; reflexivity. }
  destruct E as [Eps Eroot]. rewrite Eroot, Eps.
  destruct (Forall_nth_error _ _ _ _ Hps Hp) as (_ & Hz & _).
  pose proof (reset_same _ _ _ Hp (Hz He)) as Hsame.
  assert (Hi : vruntime_at (update i (set_vruntime 0%float) (processes s)) i
               = 0%float).
  { rewrite Hsame. unfold vruntime_at. rewrite Hp. now apply Hz. }
  split; [exact Hi|split].
  - intros j _. rewrite Hi. apply vruntime_at_nonneg. now apply reset_ok.
  - apply insert_inorder; [exact Hi|].
    apply (tree_ok_ext (processes s)); [intros j; now rewrite Hsame|exact Ht].
Qed.

(** On the sample input, job 2 arrives during the first slice of job 1
    (time 0 to 6): it enters before job 1, whose virtual time is 5.99. *)
Lemma C10_new_arrival_witness :
  let s := fst (execute (arrivals (initial_state Scenario.sample_input)) 0 NULL) in
  let s' := arrive_during 6 s 1 in
  vruntime_at (processes s') 1 = 0%float
  /\ (forall j, In j (inorder (root s)) ->
        PrimFloat.leb (vruntime_at (processes s') 1)
          (vruntime_at (processes s') j) = true)
  /\ exists before after,
       inorder (root s) = before ++ after
       /\ inorder (root s') = before ++ 1%nat :: after
       /\ forall j, In j before ->
            PrimFloat.ltb 0 (vruntime_at (processes s') j) = false.
Proof.
  intros s s'.
  apply (C10_new_arrival_has_the_smallest_key Scenario.sample_input s s' 1).
  - repeat constructor.
  - apply (reach_execute _ _ 0%nat NULL).
    + apply reachable_fold_now. constructor.
    + vm_compute. reflexivity.
  - exists (mkProcess 2 2 4 4 0 0 0 0 (-1) 15 9 0 (-8) 0%float
              (weight_of_nice (-8)) false false).
    split; [vm_compute; reflexivity|]. split; [reflexivity|].
    right. exists 6. split; [vm_compute; reflexivity|reflexivity].
Defined.

End FairnessFacts.

(** ** The chart of CFS.c *)

Module ChartFacts.
Import Gantt CFS Fairness FairnessFacts.

Lemma chain_app (chart : list GanttChartItem) (it : GanttChartItem) (a t : Z) :
  chain a chart = Some t -> start_time it = t -> t <= end_time it ->
  chain a (chart ++ [it]) = Some (end_time it).
Proof.
  revert a. induction chart as [|x chart IH]; intros a; simpl.
  - intros [= ->] Hs Hle. rewrite Hs, Z.eqb_refl.
    destruct (Z.leb_spec t (end_time it)); [reflexivity|lia].
  - destruct (_ && _); [|discriminate]. apply IH.
Qed.

Lemma chain_app_inv (chart : list GanttChartItem) (it : GanttChartItem) (a t : Z) :
  chain a (chart ++ [it]) = Some t ->
  chain a chart = Some (start_time it)
  /\ start_time it <= end_time it /\ end_time it = t.
Proof.
  revert a. induction chart as [|x chart IH]; intros a; simpl.
  - destruct (Z.eqb_spec (start_time it) a) as [E|]; [|discriminate].
    destruct (Z.leb_spec (start_time it) (end_time it)); [|discriminate].
    simpl. intros [= <-]. rewrite E. repeat split. lia.
  - destruct (_ && _); [|discriminate]. apply IH.
Qed.

Lemma no_double_idle_app (chart : list GanttChartItem) (it : GanttChartItem) :
  no_double_idle chart = true ->
  last_idle chart && is_idle it = false ->
  no_double_idle (chart ++ [it]) = true.
Proof.
  unfold last_idle.
  induction chart as [|x chart IH]; simpl; [reflexivity|].
  intros Hn Hl. apply andb_prop in Hn as [Hx Hn].
  destruct chart as [|y chart].
  - simpl in *. now rewrite Hl.
  - change ((y :: chart) ++ [it]) with (y :: (chart ++ [it])).
    cbv iota. rewrite Hx. apply IH; [exact Hn|].
    simpl in Hl |- *.
    destruct (rev chart ++ [y]) eqn:E; [now destruct (rev chart)|].
    exact Hl.
Qed.

Lemma last_idle_app (chart : list GanttChartItem) (it : GanttChartItem) :
  last_idle (chart ++ [it]) = is_idle it.
Proof. unfold last_idle. now rewrite rev_app_distr. Qed.

Lemma no_double_idle_set_last (before : list GanttChartItem)
    (it : GanttChartItem) (t : Z) :
  no_double_idle (before ++ [it]) = true ->
  no_double_idle (before ++ [mkItem (process_id it) (start_time it) t]) = true.
Proof.
  induction before as [|x before IH]; simpl; [reflexivity|].
  intros Hn. apply andb_prop in Hn as [Hx Hn].
  rewrite (IH Hn), andb_true_r.
  destruct before; exact Hx.
Qed.

Lemma last_split (chart : list GanttChartItem) :
  last_idle chart = true ->
  exists before it, chart = before ++ [it] /\ is_idle it = true.
Proof.
  unfold last_idle. destruct (rev chart) as [|it r] eqn:E; [discriminate|].
  intros Hi. exists (rev r), it. split; [|exact Hi].
  rewrite <- (rev_involutive chart), E. reflexivity.
Qed.

Lemma set_last_end_app (before : list GanttChartItem) (it : GanttChartItem)
    (t : Z) :
  set_last_end (before ++ [it]) t
  = before ++ [mkItem (process_id it) (start_time it) t].
Proof.
  unfold set_last_end. rewrite rev_app_distr. simpl.
  now rewrite rev_involutive.
Qed.

Lemma add_length (chart : list GanttChartItem) (pid a b : Z) :
  (length (addToGanttChart chart pid a b) < MAX_GANTT_CHART_SIZE)%nat ->
  addToGanttChart chart pid a b = chart ++ [mkItem pid a b]
  /\ (length chart < MAX_GANTT_CHART_SIZE)%nat.
Proof.
  unfold addToGanttChart.
  destruct (Nat.ltb_spec (length chart) MAX_GANTT_CHART_SIZE); [auto|lia].
Qed.










(** CFS.c: on an input whose burst times are positive and fit an int,
    after any number of iterations of the loop of [runCFS] no process
    has a negative remaining_burst or a negative (or NaN) vruntime. *)
Theorem cfs_remaining_and_vruntime_never_negative
    (input : list Input) (k : nat) :
  valid_input input ->
  Forall (fun p => 0 <= remaining_burst p
                   /\ PrimFloat.leb 0 (vruntime p) = true)
    (processes (iterate k (initial_state input))).
Proof.
  intros Hv.
  destruct (reachable_ok input _ Hv (reachable_iterate input k)) as [Hps _].
  revert Hps. apply Forall_impl. intros p (Hvr & _ & _ & Hr).
  split; [lia|exact Hvr].
Qed.

Lemma cfs_remaining_witness :
  Forall (fun p => 0 <= remaining_burst p
                   /\ PrimFloat.leb 0 (vruntime p) = true)
    (processes (iterate 5 (initial_state Scenario.cfs_input))).
Proof.
  apply (cfs_remaining_and_vruntime_never_negative Scenario.cfs_input 5).
  repeat constructor.
Defined.

End ChartFacts.

(** ** CFS.c: [calculateWeight] *)

Module WeightFacts.
Import CFS FairnessFacts.


Lemma weight_of_nice_antitone (n1 n2 : Z) :
  -20 <= n1 -> n1 <= n2 -> n2 <= 19 ->
  PrimFloat.leb (weight_of_nice n2) (weight_of_nice n1) = true.
Proof.
  intros H1 H12 H2.
  assert (H : forallb (fun a => forallb (fun b =>
                 if (a <=? b)%nat
                 then PrimFloat.leb (weight_of_nice (Z.of_nat b - 20))
                        (weight_of_nice (Z.of_nat a - 20))
                 else true) (seq 0 40)) (seq 0 40) = true)
    by (vm_compute; reflexivity).
  rewrite forallb_forall in H.
  assert (Ha : In (Z.to_nat (n1 + 20)) (seq 0 40)) by (apply in_seq; lia).
  specialize (H _ Ha). rewrite forallb_forall in H.
  specialize (H (Z.to_nat (n2 + 20))).
  rewrite !Z2Nat.id in H by lia.
  replace (n1 + 20 - 20) with n1 in H by lia.
  replace (n2 + 20 - 20) with n2 in H by lia.
  destruct (Nat.leb_spec (Z.to_nat (n1 + 20)) (Z.to_nat (n2 + 20))); [|lia].
  apply H, in_seq. lia.
Qed.

(** CFS.c, [calculateWeight] as [readProcessesFromFile] applies it to a
    line of the input: whatever the criticality, the nice value lies
    between MIN_NICE_VALUE and MAX_NICE_VALUE and the weight between
    1024/1039.2 (nice 19) and 1024/1008 (nice -20), so it is strictly
    positive; the seventh column of the line does not change the entry. *)
Theorem calculateWeight_range (x : Input) :
  MIN_NICE_VALUE <= nice (init_process x) <= MAX_NICE_VALUE
  /\ PrimFloat.leb (weight_of_nice MAX_NICE_VALUE) (weight (init_process x))
     = true
  /\ PrimFloat.leb (weight (init_process x)) (weight_of_nice MIN_NICE_VALUE)
     = true
  /\ PrimFloat.ltb 0 (weight (init_process x)) = true
  /\ forall seventh,
       init_process (let '(i, a, b, d, c, p, _) := x in (i, a, b, d, c, p, seventh))
       = init_process x.
Proof.
  destruct x as [[[[[[i a] b] d] c] pe] ni]. simpl.
  pose proof (nice_of_criticality_range c) as Hn.
  unfold MIN_NICE_VALUE, MAX_NICE_VALUE.
  repeat split; try lia.
  - apply weight_of_nice_antitone; lia.
  - apply weight_of_nice_antitone; lia.
  - now apply weight_of_nice_pos.
Qed.



End WeightFacts.

(** ** CFS.c: the tree *)

Module TreeFacts.
Import CFS TreeOrder DoubleFacts.

(** *** The order of binary64 values *)

Lemma SFcompare_antisym (x y : spec_float) :
  SFcompare y x = option_map CompOpp (SFcompare x y).
Proof.
  destruct x as [[]|[]| |[] mx ex], y as [[]|[]| |[] my ey]; simpl;
    try reflexivity;
    rewrite (Z.compare_antisym ey ex);
    destruct (ey ?= ex); simpl; try reflexivity;
    change (Pos.compare_cont Eq mx my) with (Pos.compare mx my);
    change (Pos.compare_cont Eq my mx) with (Pos.compare my mx);
    rewrite (Pos.compare_antisym my mx);
    destruct (my ?= mx)%positive; reflexivity.
Qed.

Lemma SFleb_trans (x y z : spec_float) :
  SFleb x y = true -> SFleb y z = true -> SFleb x z = true.
Proof.
  unfold SFleb.
  destruct x as [[]|[]| |[] mx ex], y as [[]|[]| |[] my ey],
           z as [[]|[]| |[] mz ez]; simpl;
    try reflexivity; try discriminate;
    change (Pos.compare_cont Eq mx my) with (Pos.compare mx my);
    change (Pos.compare_cont Eq my mz) with (Pos.compare my mz);
    change (Pos.compare_cont Eq mx mz) with (Pos.compare mx mz);
    destruct (Z.compare_spec ex ey), (Z.compare_spec ey ez),
             (Z.compare_spec ex ez);
    try reflexivity; try discriminate; try lia; subst;
    destruct (Pos.compare_spec mx my), (Pos.compare_spec my mz),
             (Pos.compare_spec mx mz);
    simpl; try reflexivity; try discriminate; lia.
Qed.

Lemma leb_trans (x y z : float) :
  PrimFloat.leb x y = true -> PrimFloat.leb y z = true ->
  PrimFloat.leb x z = true.
Proof. rewrite !FloatAxioms.leb_spec. apply SFleb_trans. Qed.

Lemma ltb_leb (x y : float) :
  PrimFloat.ltb x y = true -> PrimFloat.leb x y = true.
Proof.
  rewrite FloatAxioms.ltb_spec, FloatAxioms.leb_spec. unfold SFltb, SFleb.
  now destruct (SFcompare (Prim2SF x) (Prim2SF y)) as [[]|].
Qed.

Lemma not_ltb_leb (x y : float) :
  PrimFloat.is_nan x = false -> PrimFloat.is_nan y = false ->
  PrimFloat.ltb x y = false -> PrimFloat.leb y x = true.
Proof.
  intros Hx%is_nan_spec Hy%is_nan_spec.
  rewrite FloatAxioms.ltb_spec, FloatAxioms.leb_spec. unfold SFltb, SFleb.
  rewrite (SFcompare_antisym (Prim2SF x) (Prim2SF y)).
  destruct (Prim2SF x) as [[]|[]| |[] mx ex], (Prim2SF y) as [[]|[]| |[] my ey];
    try congruence; simpl; try reflexivity; try discriminate;
    destruct (ex ?= ey); simpl; try reflexivity; try discriminate;
    destruct (Pos.compare_cont Eq mx my); simpl;
    try reflexivity; discriminate.
Qed.

(** *** Entries *)

Lemma sorted_app (R : nat -> nat -> Prop) (l1 l2 : list nat) :
  StronglySorted R (l1 ++ l2)
  <-> StronglySorted R l1 /\ StronglySorted R l2
      /\ forall a b, In a l1 -> In b l2 -> R a b.
Proof.
  induction l1 as [|x l1 IH]; simpl.
  - split; [intros H; repeat split; [constructor|exact H|intros ? ? []]|tauto].
  - split.
    + intros H. inversion H as [|? ? Hs Hf]; subst.
      apply IH in Hs as (H1 & H2 & H12). rewrite Forall_app in Hf.
      destruct Hf as [Hf1 Hf2]. repeat split.
      * now constructor.
      * exact H2.
      * intros a b [<-|Ha] Hb; [|now apply H12].
        rewrite Forall_forall in Hf2. now apply Hf2.
    + intros (H1 & H2 & H12). inversion H1 as [|? ? Hs Hf]; subst.
      constructor.
      * apply IH. repeat split; auto.
      * rewrite Forall_app. split; [exact Hf|].
        rewrite Forall_forall. intros b Hb. apply H12; [now left|exact Hb].
Qed.

(** [insert] adds one entry and keeps the others where they are. *)
Lemma insert_splits (ps : list Process) (t : RBNode) (i : nat) :
  exists before after,
    inorder t = before ++ after
    /\ inorder (insert ps t i) = before ++ i :: after.
Proof.
  induction t as [|q l IHl r IHr]; simpl.
  - now exists [], [].
  - destruct (PrimFloat.ltb (vruntime_at ps i) (vruntime_at ps q)); simpl.
    + destruct IHl as (b & a & E1 & E2).
      exists b, (a ++ q :: inorder r). now rewrite E1, E2, <- !app_assoc.
    + destruct IHr as (b & a & E1 & E2).
      exists (inorder l ++ q :: b), a.
      now rewrite E1, E2, <- !app_assoc.
Qed.

Lemma insert_In (ps : list Process) (t : RBNode) (i j : nat) :
  In j (inorder (insert ps t i)) <-> j = i \/ In j (inorder t).
Proof.
  destruct (insert_splits ps t i) as (b & a & E1 & E2).
  rewrite E1, E2, !in_app_iff. simpl. intuition congruence.
Qed.

Lemma insert_ordered (ps : list Process) (t : RBNode) (i : nat) :
  comparable ps (i :: inorder t) -> ordered ps t ->
  ordered ps (insert ps t i).
Proof.
  unfold ordered, comparable.
  induction t as [|q l IHl r IHr]; simpl; intros Hc Ho.
  - repeat constructor.
  - inversion Hc as [|? ? Hi Hc']; subst.
    rewrite Forall_app in Hc'. destruct Hc' as [Hcl Hcr].
    inversion Hcr as [|? ? Hq Hcr']; subst.
    apply sorted_app in Ho as (Hl & Hqr & Hlr).
    inversion Hqr as [|? ? Hr Hqle]; subst.
    rewrite Forall_forall in Hqle.
    destruct (PrimFloat.ltb (vruntime_at ps i) (vruntime_at ps q)) eqn:Hlt;
      simpl; apply sorted_app.
    + split; [apply IHl; [now constructor|exact Hl]|]. split; [exact Hqr|].
      intros a b Ha Hb. apply insert_In in Ha as [->|Ha]; [|now apply Hlr].
      apply ltb_leb in Hlt. destruct Hb as [<-|Hb]; [exact Hlt|].
      eapply leb_trans; [exact Hlt|now apply Hqle].
    + apply (not_ltb_leb _ _ Hi Hq) in Hlt.
      split; [exact Hl|]. split.
      * constructor; [apply IHr; [now constructor|exact Hr]|].
        rewrite Forall_forall. intros b Hb.
        apply insert_In in Hb as [->|Hb]; [exact Hlt|now apply Hqle].
      * intros a b Ha [<-|Hb]; [apply Hlr; [exact Ha|now left]|].
        apply insert_In in Hb as [->|Hb].
        -- eapply leb_trans; [|exact Hlt]. apply Hlr; [exact Ha|now left].
        -- apply Hlr; [exact Ha|now right].
Qed.

Lemma extract_splits (t : RBNode) :
  match extractMinVruntime t with
  | Some (p, t') => inorder t = p :: inorder t'
  | None => t = NULL
  end.
Proof.
  induction t as [|q l IHl r _]; simpl; [reflexivity|].
  destruct (extractMinVruntime l) as [[m l']|]; simpl.
  - now rewrite IHl.
  - now rewrite IHl.
Qed.

(** CFS.c, [insert]: whatever the tree and the table, the inserted
    process becomes one more entry of the tree, and the entries that were
    there stay, in the order they were in. *)
Theorem insert_adds_one_entry (ps : list Process) (t : RBNode) (i : nat) :
  exists before after,
    inorder t = before ++ after
    /\ inorder (insert ps t i) = before ++ i :: after.
Proof. apply insert_splits. Qed.

(** CFS.c, [extractMinVruntime]: it returns NULL exactly on the empty
    tree; otherwise it returns the leftmost entry and leaves the other
    entries, in their order. *)
Theorem extractMinVruntime_removes_the_first_entry (t : RBNode) :
  (extractMinVruntime t = None <-> t = NULL)
  /\ forall p t', extractMinVruntime t = Some (p, t') ->
                  inorder t = p :: inorder t'.
Proof.
  pose proof (extract_splits t) as H. split; [split|].
  - intros E. now rewrite E in H.
  - now intros ->.
  - intros p t' E. now rewrite E in H.
Qed.

(** CFS.c, [insert]: in a tree whose entries are in non-decreasing order
    of vruntime, and with no NaN among the vruntimes, the entries are
    still in non-decreasing order after an insertion. *)
Theorem insert_keeps_the_order (ps : list Process) (t : RBNode) (i : nat) :
  comparable ps (i :: inorder t) -> ordered ps t ->
  ordered ps (insert ps t i).
Proof. apply insert_ordered. Qed.

(** On the sample input, after the first slice of job 1 (vruntime 5.99),
    job 2 (vruntime 0) is inserted in front of it. *)
Lemma insert_keeps_the_order_witness :
  let s := fst (execute (arrivals (initial_state Scenario.sample_input)) 0 NULL) in
  inorder (root s) = [0%nat]
  /\ inorder (insert (processes s) (root s) 1) = [1%nat; 0%nat]
  /\ ordered (processes s) (insert (processes s) (root s) 1).
Proof.
  intros s. split; [vm_compute; reflexivity|].
  split; [vm_compute; reflexivity|].
  apply (insert_keeps_the_order (processes s) (root s) 1).
  - repeat constructor.
  - repeat constructor.
Defined.

(** CFS.c, [extractMinVruntime]: from a tree whose entries are in
    non-decreasing order of vruntime, the process returned has a vruntime
    that is at most that of every entry left, and the tree left is still
    in order. *)
Theorem extractMinVruntime_returns_the_minimum
    (ps : list Process) (t : RBNode) (p : nat) (t' : RBNode) :
  ordered ps t -> extractMinVruntime t = Some (p, t') ->
  ordered ps t'
  /\ forall j, In j (inorder t') ->
       PrimFloat.leb (vruntime_at ps p) (vruntime_at ps j) = true.
Proof.
  unfold ordered. intros Ho E. pose proof (extract_splits t) as H.
  rewrite E in H. rewrite H in Ho. inversion Ho as [|? ? Hs Hf]; subst.
  split; [exact Hs|]. now rewrite Forall_forall in Hf.
Qed.

(** The same tree: job 2 (vruntime 0) is returned, job 1 stays. *)
Lemma extractMinVruntime_minimum_witness :
  let s := fst (execute (arrivals (initial_state Scenario.sample_input)) 0 NULL) in
  let t := insert (processes s) (root s) 1 in
  ordered (processes s) (createNode 0)
  /\ forall j, In j (inorder (createNode 0)) ->
       PrimFloat.leb (vruntime_at (processes s) 1) (vruntime_at (processes s) j)
       = true.
Proof.
  intros s t.
  apply (extractMinVruntime_returns_the_minimum (processes s) t 1 (createNode 0)).
  - repeat constructor.
  - vm_compute. reflexivity.
Defined.

End TreeFacts.

(** ** DPS-DTQ.c: [sortQueueByPriority] *)

Module SortFacts.
Import DPS DPSFrame.

Lemma dps_update_nil (i : nat) (f : Process -> Process) : update i f [] = [].
Proof. unfold update. now destruct i. Qed.

Lemma dps_update_cons_0 (f : Process -> Process) (p : Process) (ps : list Process) :
  update 0 f (p :: ps) = f p :: ps.
Proof. reflexivity. Qed.

Lemma dps_update_cons_S (i : nat) (f : Process -> Process) (p : Process)
    (ps : list Process) :
  update (S i) f (p :: ps) = p :: update i f ps.
Proof. unfold update. simpl. now destruct (nth_error ps i). Qed.

Lemma dps_nth_error_update (f : Process -> Process) (ps : list Process) (i j : nat) :
  nth_error (update i f ps) j
  = if (j =? i)%nat then option_map f (nth_error ps j) else nth_error ps j.
Proof.
  revert i j. induction ps as [|p ps IH]; intros i j.
  - rewrite dps_update_nil. destruct (j =? i)%nat, j; reflexivity.
  - destruct i as [|i].
    + rewrite dps_update_cons_0. destruct j; reflexivity.
    + rewrite dps_update_cons_S. destruct j as [|j]; [reflexivity|]. simpl. apply IH.
Qed.

Lemma dps_length_update (f : Process -> Process) (ps : list Process) (i : nat) :
  length (update i f ps) = length ps.
Proof.
  revert i. induction ps as [|p ps IH]; intros i.
  - now rewrite dps_update_nil.
  - destruct i as [|i]; [reflexivity|]. rewrite dps_update_cons_S. simpl.
    now rewrite IH.
Qed.

Lemma dps_Forall_update (P : Process -> Prop) (f : Process -> Process)
    (ps : list Process) (i : nat) :
  Forall P ps -> (forall p, nth_error ps i = Some p -> P (f p)) ->
  Forall P (update i f ps).
Proof.
  revert i. induction ps as [|p ps IH]; intros i Hps Hf.
  - now rewrite dps_update_nil.
  - inversion Hps as [|? ? Hp Hps']; subst. destruct i as [|i].
    + rewrite dps_update_cons_0. constructor; [now apply Hf|exact Hps'].
    + rewrite dps_update_cons_S. constructor; [exact Hp|]. now apply IH.
Qed.

Lemma same_but_priority_refl (p : Process) : same_but_priority p p.
Proof. now destruct p. Qed.

Lemma same_but_priority_trans (p q r : Process) :
  same_but_priority p q -> same_but_priority q r -> same_but_priority p r.
Proof.
  unfold same_but_priority, set_system_priority.
  destruct p, q, r; simpl. intros H1 H2.
  injection H1 as -> -> -> -> -> -> -> -> -> -> -> -> -> ->.
  injection H2 as -> -> -> -> -> -> -> -> -> -> -> -> -> ->.
  reflexivity.
Qed.

Lemma same_but_current_refl (d : DynamicQuantum) : same_but_current d d.
Proof. now destruct d. Qed.

Lemma same_but_current_trans (a b c : DynamicQuantum) :
  same_but_current a b -> same_but_current b c -> same_but_current a c.
Proof.
  unfold same_but_current, set_current.
  destruct a, b, c; simpl. intros H1 H2.
  injection H1 as -> -> -> -> -> ->.
  injection H2 as -> -> -> -> -> ->.
  reflexivity.
Qed.

(** The priority does not depend on [dtq->current]. *)
Lemma dynamic_priority_current (p : Process) (t : Z) (d d' : DynamicQuantum) :
  same_but_current d d' -> dynamic_priority p t d' = dynamic_priority p t d.
Proof. intros <-. reflexivity. Qed.

(** The table and [dtq] after the first loop of [sortQueueByPriority]. *)
Lemma calc_fold_frame (t : Z) (q : ReadyQueue) (ps : list Process)
    (d : DynamicQuantum) :
  let '(ps', d') := fold_left (calc_at t) q (ps, d) in
  same_but_current d d'
  /\ length ps' = length ps
  /\ forall i,
       match nth_error ps i, nth_error ps' i with
       | Some p, Some p' =>
           same_but_priority p p' /\ (~ In i q -> p' = p)
       | None, None => True
       | _, _ => False
       end.
Proof.
  revert ps d. induction q as [|a q IH]; intros ps d; simpl.
  - split; [apply same_but_current_refl|]. split; [reflexivity|].
    intros i. destruct (nth_error ps i); [|exact I].
    split; [apply same_but_priority_refl|reflexivity].
  - destruct (nth_error ps a) as [pa|] eqn:Ha.
    + specialize (IH (update a (fun _ => set_system_priority
                        (CDouble.to_int (dynamic_priority pa t d * 100)) pa) ps)
                    (set_current (base d * (1.0 + dynamic_priority pa t d)
                                  * (1.0 - 0.5 * load_factor d)) d)).
      simpl.
      destruct (fold_left (calc_at t) q _) as [ps' d'].
      destruct IH as (Hd & Hlen & Hi). split; [|split].
      * eapply same_but_current_trans; [|exact Hd]. now destruct d.
      * now rewrite Hlen, dps_length_update.
      * intros i. specialize (Hi i). rewrite dps_nth_error_update in Hi.
        destruct (Nat.eqb_spec i a) as [E|Hne].
        -- subst i. rewrite Ha in *. simpl in Hi.
           destruct (nth_error ps' a) as [p'|]; [|exact Hi].
           destruct Hi as [Hs _]. split; [|intros Hn; exfalso; apply Hn; now left].
           eapply same_but_priority_trans; [|exact Hs]. now destruct pa.
        -- destruct (nth_error ps i), (nth_error ps' i); trivial.
           destruct Hi as [Hs Hn]. split; [exact Hs|].
           intros Hin. apply Hn. intros Hq. apply Hin. now right.
    + specialize (IH ps d). destruct (fold_left (calc_at t) q (ps, d)) as [ps' d'].
      destruct IH as (Hd & Hlen & Hi). split; [exact Hd|]. split; [exact Hlen|].
      intros i. specialize (Hi i).
      destruct (nth_error ps i), (nth_error ps' i); trivial.
      destruct Hi as [Hs Hn]. split; [exact Hs|].
      intros Hin. apply Hn. intros Hq. apply Hin. now right.
Qed.


(** DPS-DTQ.c, [sortQueueByPriority]: the queue it leaves holds the same
    entries, in non-increasing order of the keys it has just written
    into [system_priority], entries of equal key in the order they were
    in. *)
Theorem sortQueueByPriority_sorts (q : ReadyQueue) (t : Z)
    (ps : list Process) (d : DynamicQuantum) :
  let '(q', ps', _) := sortQueueByPriority q t ps d in
  Permutation q' q
  /\ StronglySorted
       (fun a b => system_priority_at ps' b <= system_priority_at ps' a) q'
  /\ forall K,
       filter (fun i => system_priority_at ps' i =? K) q'
       = filter (fun i => system_priority_at ps' i =? K) q.
Proof.
  unfold sortQueueByPriority.
  destruct (fold_left (calc_at t) q (ps, d)) as [ps' d'].
  split; [apply Ties.bubble_sort_perm|].
  split; [apply Ties.bubble_sort_sorted|].
  intros K. apply Ties.bubble_sort_filter.
Qed.

(** DPS-DTQ.c, [sortQueueByPriority]: of the process table it changes
    the field [system_priority] of the entries that are in the queue and
    nothing else; of [dtq] it changes [current] only. *)
Theorem sortQueueByPriority_frame (q : ReadyQueue) (t : Z)
    (ps : list Process) (d : DynamicQuantum) :
  let '(_, ps', d') := sortQueueByPriority q t ps d in
  set_current (current d') d = d'
  /\ length ps' = length ps
  /\ forall i,
       match nth_error ps i, nth_error ps' i with
       | Some p, Some p' =>
           set_system_priority (system_priority p') p = p'
           /\ (~ In i q -> p' = p)
       | None, None => True
       | _, _ => False
       end.
Proof.
  unfold sortQueueByPriority.
  pose proof (calc_fold_frame t q ps d) as H.
  destruct (fold_left (calc_at t) q (ps, d)) as [ps' d']. exact H.
Qed.



End SortFacts.

(** ** reference-paper-algo.c: [median] and [mean] *)

Module MedianFacts.
Import SRPT Scenario.

Lemma exchange_sort_length (arr : list Z) :
  length (exchange_sort arr) = length arr.
Proof.
  symmetry. apply Permutation_length, Quantum.exchange_sort_spec.
Qed.

(** reference-paper-algo.c, [median]: the two nested loops leave the
    copy [temp] in ascending order, with the values of [arr], each as
    many times as [arr] has it. *)
Theorem median_sorts_its_copy (arr : list Z) :
  Permutation arr (exchange_sort arr)
  /\ StronglySorted Z.le (exchange_sort arr)
  /\ length (exchange_sort arr) = length arr.
Proof.
  destruct (Quantum.exchange_sort_spec arr) as [Hp Hs].
  split; [exact Hp|]. split; [exact Hs|]. apply exchange_sort_length.
Qed.

(** reference-paper-algo.c, [median] and [mean]: the results do not
    depend on the order of the values in the array. *)
Theorem median_and_mean_ignore_the_order (a b : list Z) :
  Permutation a b -> median a = median b /\ mean a = mean b.
Proof.
  intros Hp. split.
  - rewrite (Quantum.median_is_spec a b Hp).
    symmetry. apply Quantum.median_is_spec. apply Permutation_refl.
  - rewrite (Quantum.mean_is_spec a b Hp).
    symmetry. apply Quantum.mean_is_spec. apply Permutation_refl.
Qed.

Lemma median_and_mean_witness :
  median [4; 2; 7; 5] = median [7; 5; 4; 2]
  /\ mean [4; 2; 7; 5] = mean [7; 5; 4; 2].
Proof.
  apply (median_and_mean_ignore_the_order [4; 2; 7; 5] [7; 5; 4; 2]).
  apply (Permutation_app_comm [4; 2] [7; 5]).
Defined.

End MedianFacts.

(** ** [calculateMetrics]: the starvation count and the case of no waiting *)

Module MetricsEdge.
Import Metrics DoubleFacts.

Section Calc.
Variable Process : Type.
Variables turnaround_time waiting_time response_time : Process -> Z.

Lemma starved_count_fold (ps : list Process) (a : Sums) :
  starved_count
    (fold_left (accumulate Process turnaround_time waiting_time response_time)
       ps a)
  = starved_count a
    + Z.of_nat (length (filter (fun p => waiting_time p >? starvation_threshold)
                          ps)).
Proof.
  revert a. induction ps as [|p ps IH]; intros a; simpl; [lia|].
  rewrite IH. simpl. destruct (waiting_time p >? starvation_threshold); simpl; lia.
Qed.

Lemma sum_of_zeros (ws : list Z) :
  Forall (fun w => w = 0) ws ->
  fold_left PrimFloat.add (map CDouble.of_int ws) 0%float = 0%float.
Proof.
  induction 1 as [|w ws -> _ IH]; simpl; [reflexivity|]. exact IH.
Qed.

Lemma squares_of_zeros (ws : list Z) :
  Forall (fun w => w = 0) ws ->
  fold_left PrimFloat.add
    (map (fun w => pow2 (CDouble.of_int w - 0)) ws) 0%float = 0%float.
Proof.
  induction 1 as [|w ws -> _ IH]; simpl; [reflexivity|]. exact IH.
Qed.

(** Zero divided by the number of processes is zero. *)
Lemma zero_div_count (n : Z) :
  0 < n < 2 ^ 53 -> (0 / CDouble.of_int n)%float = 0%float.
Proof.
  intros Hn. apply FloatAxioms.Prim2SF_inj.
  rewrite FloatAxioms.div_spec.
  destruct (of_int_cases n) as [[-> _]|(m & e & E & _)]; [lia|lia|].
  rewrite E. reflexivity.
Qed.

End Calc.

(** CFS.c and DPS-DTQ.c, [calculateMetrics]: the starvation count is the
    number of processes whose waiting_time exceeds 20, so it lies
    between 0 and n. *)
Theorem starvation_count_counts
    (Process : Type) (turnaround_time waiting_time response_time : Process -> Z)
    (ps : list Process) (total_time : Z) :
  starvation_count
    (calculateMetrics Process turnaround_time waiting_time response_time
       ps total_time)
  = Z.of_nat (length (filter (fun p => waiting_time p >? 20) ps))
  /\ 0 <= starvation_count
            (calculateMetrics Process turnaround_time waiting_time
               response_time ps total_time)
     <= Z.of_nat (length ps).
Proof.
  unfold calculateMetrics. cbv zeta. simpl starvation_count.
  rewrite starved_count_fold. simpl starved_count.
  pose proof (filter_length_le (fun p => waiting_time p >? starvation_threshold) ps).
  unfold starvation_threshold in *. split; lia.
Qed.

(** CFS.c and DPS-DTQ.c, [calculateMetrics]: when no process has waited
    (every waiting_time is 0), for any number of processes from 1 on,
    the mean waiting time is 0, the coefficient of variation is 0/0 and
    the load balancing efficiency stored is a NaN. *)
Theorem efficiency_is_nan_when_nobody_waits
    (Process : Type) (turnaround_time waiting_time response_time : Process -> Z)
    (ps : list Process) (total_time : Z) :
  0 < Z.of_nat (length ps) < 2 ^ 53 ->
  Forall (fun p => waiting_time p = 0) ps ->
  avg_waiting_time
    (calculateMetrics Process turnaround_time waiting_time response_time
       ps total_time) = 0%float
  /\ PrimFloat.is_nan
       (load_balancing_efficiency
          (calculateMetrics Process turnaround_time waiting_time response_time
             ps total_time)) = true.
Proof.
  intros Hn Hw.
  assert (Hz : Forall (fun w => w = 0) (map waiting_time ps)).
  { apply Forall_map. exact Hw. }
  unfold calculateMetrics. cbv zeta.
  simpl avg_waiting_time. simpl load_balancing_efficiency.
  rewrite MetricsFacts.total_waiting_fold. simpl total_waiting_time.
  rewrite (sum_of_zeros _ Hz), (zero_div_count _ Hn).
  split; [reflexivity|].
  unfold variance_sum. rewrite MetricsFacts.variance_sum_fold.
  rewrite (squares_of_zeros _ Hz), (zero_div_count _ Hn).
  reflexivity.
Qed.

(** One process that runs as soon as it arrives. *)
Lemma efficiency_is_nan_witness :
  let ps := [CFS.complete_at 8
               (CFS.set_first_execution 0
                  (CFS.init_process (1, 0, 8, 20, 7, 0, 5)))] in
  avg_waiting_time (calculateMetrics_CFS ps 8) = 0%float
  /\ PrimFloat.is_nan (load_balancing_efficiency (calculateMetrics_CFS ps 8))
     = true.
Proof.
  intros ps.
  apply (efficiency_is_nan_when_nobody_waits CFS.Process
           CFS.turnaround_time CFS.waiting_time CFS.response_time ps 8).
  - simpl. split; [lia|reflexivity].
  - repeat constructor.
Defined.

End MetricsEdge.

(** ** DPS-DTQ.c: the loop of [runDPS_DTQ] *)

Module DPSFacts.
Import Gantt DPS DPSFrame DPSInv.

Lemma nth_error_Forall (A : Type) (P : A -> Prop) (l : list A) (i : nat) (x : A) :
  Forall P l -> nth_error l i = Some x -> P x.
Proof.
  intros H Hx. rewrite Forall_forall in H. eapply H, nth_error_In, Hx.
Qed.

Lemma chart_ok_queue (q : ReadyQueue) (s : State) :
  chart_ok s -> chart_ok (with_queue q s).
Proof. intros H. exact H. Qed.

Lemma chart_ok_arrive_now_dps (s : State) (i : nat) :
  chart_ok s -> chart_ok (arrive_now s i).
Proof.
  intros H. unfold arrive_now.
  destruct (nth_error (processes s) i) as [p|]; [|exact H].
  now destruct (arrival_time p =? current_time s).
Qed.

Lemma chart_ok_arrive_during_dps (e : Z) (s : State) (i : nat) :
  chart_ok s -> chart_ok (arrive_during e s i).
Proof.
  intros H. unfold arrive_during.
  destruct (nth_error (processes s) i) as [p|]; [|exact H].
  now destruct (_ && _).
Qed.

Lemma chart_ok_fold (f : State -> nat -> State) (l : list nat) (s : State) :
  (forall s i, chart_ok s -> chart_ok (f s i)) ->
  chart_ok s -> chart_ok (fold_left f l s).
Proof.
  intros Hf. revert s. induction l as [|i l IH]; intros s Hs; simpl; auto.
Qed.

Lemma chart_ok_idle_dps (s : State) : chart_ok s -> chart_ok (idle_step s).
Proof.
  intros (Hi & Hps & Hc). unfold idle_step, chart_ok. cbv zeta. simpl.
  split; [lia|]. split; [exact Hps|].
  destruct (Z.eqb_spec (idle_time s + 1) 1) as [E|E].
  - intros Hlen. apply ChartFacts.add_length in Hlen as [-> Hlen].
    destruct (Hc Hlen) as (Hch & Hn & Hl).
    replace (current_time s + 1 - 1) with (current_time s) by lia.
    repeat split.
    + now apply (ChartFacts.chain_app _
                   (mkItem (-1) (current_time s) (current_time s + 1))
                   _ (current_time s)); simpl; try lia.
    + apply ChartFacts.no_double_idle_app; [exact Hn|].
      rewrite Hl. destruct (Z.ltb_spec 0 (idle_time s)); [lia|reflexivity].
    + rewrite ChartFacts.last_idle_app. simpl.
      destruct (Z.ltb_spec 0 (idle_time s + 1)); [reflexivity|lia].
  - intros Hlen.
    assert (Hlen' : (length (gantt_chart s) < MAX_GANTT_CHART_SIZE)%nat).
    { revert Hlen. unfold set_last_end.
      destruct (rev (gantt_chart s)) as [|it r] eqn:Er; [trivial|].
      rewrite length_app, length_rev. simpl.
      rewrite <- (length_rev (gantt_chart s)), Er. simpl. lia. }
    destruct (Hc Hlen') as (Hch & Hn & Hl).
    assert (Hpos : last_idle (gantt_chart s) = true).
    { rewrite Hl. destruct (Z.ltb_spec 0 (idle_time s)); [reflexivity|lia]. }
    destruct (ChartFacts.last_split _ Hpos) as (before & it & Eb & Hit).
    rewrite Eb in *. rewrite ChartFacts.set_last_end_app.
    apply ChartFacts.chain_app_inv in Hch as (Hb & Hle & He).
    repeat split.
    + now apply (ChartFacts.chain_app _
                   (mkItem (process_id it) (start_time it) (current_time s + 1))
                   _ (start_time it)); simpl; try lia.
    + now apply ChartFacts.no_double_idle_set_last.
    + rewrite ChartFacts.last_idle_app. unfold is_idle in *. simpl. rewrite Hit.
      destruct (Z.ltb_spec 0 (idle_time s + 1)); [reflexivity|lia].
Qed.

(** The table after the first loop of [sortQueueByPriority]. *)
Lemma calc_fold_ok (t : Z) (q : ReadyQueue) (ps : list Process)
    (d : DynamicQuantum) :
  Forall process_ok ps ->
  Forall process_ok (fst (fold_left (calc_at t) q (ps, d))).
Proof.
  intros Hps. pose proof (SortFacts.calc_fold_frame t q ps d) as H.
  destruct (fold_left (calc_at t) q (ps, d)) as [ps' d']. simpl.
  destruct H as (_ & _ & H). apply Forall_forall. intros p' Hin.
  apply In_nth_error in Hin as [i Hi]. specialize (H i). rewrite Hi in H.
  destruct (nth_error ps i) as [p|] eqn:Hp; [|destruct H].
  destruct H as [<- _]. apply (nth_error_Forall _ _ _ _ _ Hps Hp).
Qed.

Lemma time_quantum_min (d : DynamicQuantum) : 1 <= time_quantum_of d.
Proof.
  unfold time_quantum_of. cbv zeta.
  destruct (Z.ltb_spec (CDouble.to_int (current d)) 1); lia.
Qed.

Lemma chart_ok_dispatch (s : State) : chart_ok s -> chart_ok (dispatch s).
Proof.
  intros H. unfold dispatch. cbv zeta.
  set (d0 := set_load_factor _ _).
  unfold sortQueueByPriority.
  pose proof (calc_fold_ok (current_time s) (ready_queue s) (processes s) d0
                (proj1 (proj2 H))) as Hps'.
  destruct (fold_left (calc_at (current_time s)) (ready_queue s)
              (processes s, d0)) as [ps' d']. simpl in Hps'.
  destruct (dequeue _) as [[cur q]|]; [|exact H].
  destruct (nth_error ps' cur) as [p|] eqn:Hp; [|exact H].
  destruct H as (Hi & _ & Hc).
  destruct (nth_error_Forall _ _ _ _ _ Hps' Hp) as (Hr & Hid).
  set (p1 := if negb (executed p) then set_first_execution (current_time s) p
             else p).
  assert (E1 : id p1 = id p /\ remaining_burst p1 = remaining_burst p
               /\ burst_time p1 = burst_time p)
    by (unfold p1; now destruct (negb (executed p))).
  destruct E1 as (E1 & E2 & E3).
  unfold calculateDynamicPriority. cbv zeta.
  set (d2 := set_current _ d').
  set (p2 := set_system_priority _ p1).
  pose proof (time_quantum_min d2) as Hq.
  set (tq := time_quantum_of d2) in *.
  change (remaining_burst p2) with (remaining_burst p1).
  change (id p2) with (id p1).
  set (e := if remaining_burst p1 <? tq then remaining_burst p1 else tq).
  assert (He : 0 <= e <= remaining_burst p).
  { unfold e. rewrite E2. destruct (Z.ltb_spec (remaining_burst p) tq); lia. }
  assert (Hchart :
    (length (addToGanttChart (gantt_chart s) (id p1) (current_time s)
               (current_time s + e)) < MAX_GANTT_CHART_SIZE)%nat ->
    chain 0 (addToGanttChart (gantt_chart s) (id p1) (current_time s)
               (current_time s + e)) = Some (current_time s + e)
    /\ no_double_idle (addToGanttChart (gantt_chart s) (id p1) (current_time s)
                         (current_time s + e)) = true
    /\ last_idle (addToGanttChart (gantt_chart s) (id p1) (current_time s)
                    (current_time s + e)) = (0 <? 0)).
  { intros Hlen. apply ChartFacts.add_length in Hlen as [-> Hlen].
    destruct (Hc Hlen) as (Hch & Hn & Hl).
    assert (Hni : is_idle (mkItem (id p1) (current_time s) (current_time s + e))
                  = false).
    { unfold is_idle. simpl. rewrite E1. now apply Z.eqb_neq. }
    repeat split.
    + now apply (ChartFacts.chain_app _
                   (mkItem (id p1) (current_time s) (current_time s + e))
                   _ (current_time s)); simpl; try lia.
    + apply ChartFacts.no_double_idle_app; [exact Hn|]. rewrite Hni.
      apply andb_false_r.
    + rewrite ChartFacts.last_idle_app. exact Hni. }
  simpl remaining_burst.
  destruct (remaining_burst p1 - e =? 0);
    apply chart_ok_fold; try apply chart_ok_arrive_during_dps.
  all: unfold chart_ok; simpl.
  all: split; [lia|]; (split; [|exact Hchart]).
  all: apply SortFacts.dps_Forall_update; trivial; intros p0 _.
  all: unfold process_ok; simpl; rewrite E1, E2, E3; split; [lia|exact Hid].
Qed.

Lemma chart_ok_iteration (s : State) : chart_ok s -> chart_ok (iteration s).
Proof.
  intros H. unfold iteration. cbv zeta.
  assert (Ha : chart_ok (arrivals s))
    by (apply chart_ok_fold; [apply chart_ok_arrive_now_dps|exact H]).
  destruct (isQueueEmpty _);
    [now apply chart_ok_idle_dps|now apply chart_ok_dispatch].
Qed.

Lemma chart_ok_initial_dps (input : list Input) :
  valid_input input -> chart_ok (initial_state input).
Proof.
  intros Hv. unfold chart_ok. simpl. split; [lia|]. split; [|auto].
  induction Hv as [|x input Hx _ IH]; simpl; constructor; [|exact IH].
  destruct x as [[[[[[i a] b] dl] c] pe] sp]. simpl in Hx.
  unfold process_ok. simpl. lia.
Qed.

Lemma chart_ok_iterate (input : list Input) (k : nat) :
  valid_input input -> chart_ok (iterate k (initial_state input)).
Proof.
  intros Hv.
  assert (H : forall s, chart_ok s -> chart_ok (iterate k s)).
  { induction k as [|k IH]; intros s Hs; simpl; [exact Hs|].
    now apply IH, chart_ok_iteration. }
  now apply H, chart_ok_initial_dps.
Qed.



(** DPS-DTQ.c: on such an input, after any number of iterations of the
    loop of [runDPS_DTQ], the remaining_burst of every process is
    between 0 and its burst_time: no dispatch runs a process for longer
    than it has left. *)
Theorem dps_remaining_stays_in_range (input : list Input) (k : nat) :
  valid_input input ->
  Forall (fun p => 0 <= remaining_burst p <= burst_time p)
    (processes (iterate k (initial_state input))).
Proof.
  intros Hv. destruct (chart_ok_iterate input k Hv) as (_ & Hps & _).
  revert Hps. apply Forall_impl. now intros p [Hr _].
Qed.

Lemma dps_remaining_witness :
  Forall (fun p => 0 <= remaining_burst p <= burst_time p)
    (processes (iterate 6 (initial_state Scenario.dps_input))).
Proof.
  apply (dps_remaining_stays_in_range Scenario.dps_input 6).
  repeat (constructor; [split; [discriminate|discriminate]|]). constructor.
Defined.

End DPSFacts.

(** ** DPS-DTQ.c: [calculateAgingFactor] *)

Module AgingFacts.
Import DPS DoubleFacts Sign.

Lemma nonneg_not_nan (x : spec_float) : SFnonneg x -> x <> S754_nan.
Proof. now destruct x. Qed.

Lemma not_ltb_leb_SF (x y : float) :
  Prim2SF x <> S754_nan -> Prim2SF y <> S754_nan ->
  PrimFloat.ltb x y = false -> PrimFloat.leb y x = true.
Proof.
  intros Hx Hy.
  rewrite FloatAxioms.ltb_spec, FloatAxioms.leb_spec. unfold SFltb, SFleb.
  rewrite (TreeFacts.SFcompare_antisym (Prim2SF x) (Prim2SF y)).
  destruct (Prim2SF x) as [[]|[]| |[] mx ex], (Prim2SF y) as [[]|[]| |[] my ey];
    try congruence; simpl; try reflexivity; try discriminate;
    destruct (ex ?= ey); simpl; try reflexivity; try discriminate;
    destruct (Pos.compare_cont Eq mx my); simpl;
    try reflexivity; discriminate.
Qed.

(** DPS-DTQ.c, [calculateAgingFactor]: the factor is between 0 and 1
    (it is 0 for a process that has not waited), whatever the process
    and the time, the waiting time being that of [int] operands. *)
Theorem aging_factor_range (p : Process) (current_time : Z) :
  current_time - arrival_time p - (burst_time p - remaining_burst p) < 2 ^ 53 ->
  PrimFloat.leb 0 (calculateAgingFactor p current_time) = true
  /\ PrimFloat.leb (calculateAgingFactor p current_time) 1 = true
  /\ (current_time - arrival_time p - (burst_time p - remaining_burst p) <= 0 ->
      calculateAgingFactor p current_time = 0%float).
Proof.
  intros Hw. unfold calculateAgingFactor. cbv zeta.
  set (w := current_time - arrival_time p - (burst_time p - remaining_burst p)) in *.
  destruct (Z.gtb_spec w 0) as [Hpos|Hle].
  - assert (Hd : PrimFloat.leb 0 (CDouble.of_int w / 10.0) = true)
      by (apply div_nonneg; [lia|reflexivity]).
    split; [|split; [|lia]].
    + now destruct (PrimFloat.ltb 1.0 (CDouble.of_int w / 10.0)).
    + destruct (PrimFloat.ltb 1.0 (CDouble.of_int w / 10.0)) eqn:Hlt;
        [reflexivity|].
      apply not_ltb_leb_SF; [discriminate| |exact Hlt].
      apply nonneg_not_nan. now apply leb0_nonneg.
  - repeat split.
Qed.

(** Job 1 of the sample at time 5, after one slice of 5 units: it has
    not waited. *)
Lemma aging_factor_witness :
  let p := set_remaining_burst 3 (init_process (1, 0, 8, 20, 7, 0, 5)) in
  PrimFloat.leb 0 (calculateAgingFactor p 5) = true
  /\ PrimFloat.leb (calculateAgingFactor p 5) 1 = true
  /\ (5 - arrival_time p - (burst_time p - remaining_burst p) <= 0 ->
      calculateAgingFactor p 5 = 0%float).
Proof.
  intros p. apply (aging_factor_range p 5). reflexivity.
Defined.

End AgingFacts.

(** ** reference-paper-algo.c: the simulation loop *)

Module SRPTFacts.
Import SRPT SRPTInv.

(** *** The table *)

Lemma srpt_update_nil (i : nat) (f : Process -> Process) : update i f [] = [].
Proof. unfold update. now destruct i. Qed.

Lemma srpt_update_cons_0 (f : Process -> Process) (p : Process)
    (ps : list Process) :
  update 0 f (p :: ps) = f p :: ps.
Proof. reflexivity. Qed.

Lemma srpt_update_cons_S (i : nat) (f : Process -> Process) (p : Process)
    (ps : list Process) :
  update (S i) f (p :: ps) = p :: update i f ps.
Proof. unfold update. simpl. now destruct (nth_error ps i). Qed.

Lemma srpt_nth_error_update (f : Process -> Process) (ps : list Process)
    (i j : nat) :
  nth_error (update i f ps) j
  = if (j =? i)%nat then option_map f (nth_error ps j) else nth_error ps j.
Proof.
  revert i j. induction ps as [|p ps IH]; intros i j.
  - rewrite srpt_update_nil. destruct (j =? i)%nat, j; reflexivity.
  - destruct i as [|i].
    + rewrite srpt_update_cons_0. destruct j; reflexivity.
    + rewrite srpt_update_cons_S. destruct j as [|j]; [reflexivity|].
      simpl. apply IH.
Qed.

Lemma srpt_nth_error_update_same (f : Process -> Process) (ps : list Process)
    (i : nat) (p : Process) :
  nth_error ps i = Some p -> nth_error (update i f ps) i = Some (f p).
Proof.
  intros Hp. now rewrite srpt_nth_error_update, Nat.eqb_refl, Hp.
Qed.

Lemma srpt_nth_error_update_other (f : Process -> Process) (ps : list Process)
    (i j : nat) :
  j <> i -> nth_error (update i f ps) j = nth_error ps j.
Proof.
  intros Hne. rewrite srpt_nth_error_update.
  now destruct (Nat.eqb_spec j i).
Qed.

Lemma srpt_length_update (f : Process -> Process) (ps : list Process) (i : nat) :
  length (update i f ps) = length ps.
Proof.
  revert i. induction ps as [|p ps IH]; intros i.
  - now rewrite srpt_update_nil.
  - destruct i as [|i]; [reflexivity|]. rewrite srpt_update_cons_S. simpl.
    now rewrite IH.
Qed.

Lemma srpt_map_update (A : Type) (g : Process -> A) (f : Process -> Process)
    (ps : list Process) (i : nat) :
  (forall p, g (f p) = g p) -> map g (update i f ps) = map g ps.
Proof.
  intros Hg. revert i. induction ps as [|p ps IH]; intros i.
  - now rewrite srpt_update_nil.
  - destruct i as [|i].
    + rewrite srpt_update_cons_0. simpl. now rewrite Hg.
    + rewrite srpt_update_cons_S. simpl. now rewrite IH.
Qed.

Lemma srpt_Forall_update (P : Process -> Prop) (f : Process -> Process)
    (ps : list Process) (i : nat) :
  Forall P ps -> (forall p, nth_error ps i = Some p -> P (f p)) ->
  Forall P (update i f ps).
Proof.
  revert i. induction ps as [|p ps IH]; intros i Hps Hf.
  - now rewrite srpt_update_nil.
  - inversion Hps as [|? ? Hp Hps']; subst. destruct i as [|i].
    + rewrite srpt_update_cons_0. constructor; [now apply Hf|exact Hps'].
    + rewrite srpt_update_cons_S. constructor; [exact Hp|]. now apply IH.
Qed.

Lemma sumZ_update (g : Process -> Z) (f : Process -> Process)
    (ps : list Process) (i : nat) (p : Process) :
  nth_error ps i = Some p ->
  sumZ g (update i f ps) = sumZ g ps - g p + g (f p).
Proof.
  revert i. induction ps as [|p0 ps IH]; intros i Hp.
  - now destruct i.
  - destruct i as [|i].
    + injection Hp as ->. rewrite srpt_update_cons_0. simpl. lia.
    + rewrite srpt_update_cons_S. simpl. rewrite (IH i Hp). lia.
Qed.

Lemma sumZ_le (g h : Process -> Z) (ps : list Process) :
  Forall (fun p => g p <= h p) ps -> sumZ g ps <= sumZ h ps.
Proof. induction 1; simpl; lia. Qed.

Lemma sumZ_nonneg (g : Process -> Z) (ps : list Process) :
  Forall (fun p => 0 <= g p) ps -> 0 <= sumZ g ps.
Proof. induction 1; simpl; lia. Qed.

Lemma latest_arrival_update (f : Process -> Process) (ps : list Process)
    (i : nat) :
  (forall p, arrival_time (f p) = arrival_time p) ->
  latest_arrival (update i f ps) = latest_arrival ps.
Proof.
  intros Hf. revert i. induction ps as [|p ps IH]; intros i.
  - now rewrite srpt_update_nil.
  - destruct i as [|i].
    + rewrite srpt_update_cons_0. simpl. now rewrite Hf.
    + rewrite srpt_update_cons_S. simpl. now rewrite IH.
Qed.

Lemma latest_arrival_ge (ps : list Process) (i : nat) (p : Process) :
  nth_error ps i = Some p ->
  arrival_time p <= latest_arrival ps /\ 0 <= latest_arrival ps.
Proof.
  revert i. induction ps as [|p0 ps IH]; intros i Hp; [now destruct i|].
  simpl. destruct i as [|i].
  - injection Hp as ->.
    assert (0 <= latest_arrival ps) by (clear; induction ps; simpl; lia).
    lia.
  - destruct (IH i Hp). lia.
Qed.

Lemma latest_arrival_nonneg (ps : list Process) : 0 <= latest_arrival ps.
Proof. induction ps; simpl; lia. Qed.

(** Two entries of the table with the same pid are the same entry. *)
Lemma pid_unique (ps : list Process) (i j : nat) (p p' : Process) :
  NoDup (map pid ps) -> nth_error ps i = Some p -> nth_error ps j = Some p' ->
  pid p = pid p' -> i = j.
Proof.
  intros Hnd Hi Hj E. rewrite NoDup_nth_error in Hnd. apply Hnd.
  - rewrite length_map. apply nth_error_Some. congruence.
  - rewrite !nth_error_map, Hi, Hj. simpl. now rewrite E.
Qed.

Lemma find_pid_spec (ps : list Process) (k i : nat) (p : Process) :
  NoDup (map pid ps) -> nth_error ps i = Some p ->
  find_pid (pid p) ps k = Some (k + i)%nat.
Proof.
  revert k i. induction ps as [|p0 ps IH]; intros k i Hnd Hp;
    [now destruct i|].
  simpl. destruct i as [|i].
  - injection Hp as ->. rewrite Z.eqb_refl. f_equal. lia.
  - simpl in Hp. inversion Hnd as [|? ? Hn Hnd']; subst.
    destruct (Z.eqb_spec (pid p0) (pid p)) as [E|_].
    + exfalso. apply Hn. rewrite E. apply in_map. eapply nth_error_In, Hp.
    + rewrite (IH (S k) i Hnd' Hp). f_equal. lia.
Qed.

Lemma srpt_update_update (f g : Process -> Process) (ps : list Process)
    (i : nat) :
  update i g (update i f ps) = update i (fun p => g (f p)) ps.
Proof.
  revert i. induction ps as [|p ps IH]; intros i.
  - now rewrite !srpt_update_nil.
  - destruct i as [|i].
    + now rewrite !srpt_update_cons_0.
    + rewrite !srpt_update_cons_S. now rewrite IH.
Qed.

Lemma process_ok_later (t t' : Z) (p : Process) :
  t <= t' -> process_ok t p -> process_ok t' p.
Proof.
  intros Ht (Hr & H1 & H2 & H3).
  split; [exact Hr|]. split; [|split; [exact H2|]].
  - intros Hc. destruct (H1 Hc) as (Ha & Hb & Hd). repeat split; trivial; lia.
  - intros Hf. specialize (H3 Hf). lia.
Qed.

(** *** Step 1: the arrivals *)

(** A table entry that is not flagged has no copy in the queue, and the
    queue has room for one. *)
Lemma queue_room (s : State) (i : nat) (p : Process) :
  invariant s -> nth_error (processes s) i = Some p ->
  in_ready_queue p = false ->
  ~ In (pid p) (map pid (ready_queue s))
  /\ (length (ready_queue s) < num s)%nat.
Proof.
  intros (Hnd & (Hq1 & Hq2 & Hq3) & _) Hp Hf.
  assert (Hnin : ~ In (pid p) (map pid (ready_queue s))).
  { intros Hin. apply in_map_iff in Hin as (q & E & Hq).
    destruct (Hq2 q Hq) as (j & p' & Hj & E' & _ & Hf').
    assert (j = i)
      by (apply (pid_unique (processes s) j i p' p Hnd Hj Hp); congruence).
    subst j. congruence. }
  split; [exact Hnin|].
  assert (Hl : (length (pid p :: map pid (ready_queue s))
                <= length (map pid (processes s)))%nat).
  { apply NoDup_incl_length; [now constructor|].
    intros x [<-|Hx].
    - apply in_map. eapply nth_error_In, Hp.
    - apply in_map_iff in Hx as (q & <- & Hq).
      destruct (Hq2 q Hq) as (j & p' & Hj & E' & _). rewrite <- E'.
      apply in_map. eapply nth_error_In, Hj. }
  simpl in Hl. rewrite !length_map in Hl. unfold num. lia.
Qed.

Lemma invariant_enter (s : State) (i : nat) :
  invariant s -> invariant (enter_arrived s i).
Proof.
  intros H. unfold enter_arrived.
  destruct (nth_error (processes s) i) as [p|] eqn:Hp; [|exact H].
  destruct (Z.leb_spec (arrival_time p) (current_time s)) as [Ha|_]; simpl;
    [|exact H].
  destruct (in_ready_queue p) eqn:Hf; simpl; [exact H|].
  destruct (completed p) eqn:Hc; simpl; [exact H|].
  destruct (queue_room s i p H Hp Hf) as [Hnin Hlen].
  unfold addToReadyQueue. apply Nat.ltb_lt in Hlen. rewrite Hlen.
  destruct H as (Hnd & (Hq1 & Hq2 & Hq3) & Hps & Hcount).
  split; [|split; [|split]]; simpl.
  - now rewrite srpt_map_update.
  - split; [|split]; simpl.
    + rewrite map_app. simpl.
      apply (Permutation_NoDup (Permutation_cons_append _ _)).
      now constructor.
    + intros q Hq. apply in_app_iff in Hq as [Hq|[<-|[]]].
      * destruct (Hq2 q Hq) as (j & p' & Hj & E1 & E2 & E3).
        exists j, p'. split; [|auto].
        rewrite srpt_nth_error_update_other; [exact Hj|].
        intros ->. congruence.
      * exists i, (set_in_ready_queue true p).
        split; [now apply srpt_nth_error_update_same|]. simpl. auto.
    + intros j p' Hj Hf'. rewrite map_app, in_app_iff.
      rewrite srpt_nth_error_update in Hj.
      destruct (Nat.eqb_spec j i) as [E|Hne].
      * subst j. rewrite Hp in Hj. injection Hj as <-. right. now left.
      * left. eapply Hq3; eauto.
  - apply srpt_Forall_update; [exact Hps|].
    intros p0 Hp0. rewrite Hp in Hp0. injection Hp0 as <-.
    destruct (DPSFacts.nth_error_Forall _ _ _ _ _ Hps Hp) as (Hr & H1 & H2 & H3).
    specialize (H2 Hc Hf).
    unfold process_ok, executed_time. simpl.
    split; [exact Hr|]. split; [congruence|]. split; [discriminate|].
    intros _. lia.
  - rewrite (sumZ_update _ _ _ _ _ Hp).
    change (done (set_in_ready_queue true p)) with (done p). lia.
Qed.

Lemma enter_current_time (s : State) (i : nat) :
  current_time (enter_arrived s i) = current_time s.
Proof.
  unfold enter_arrived. destruct (nth_error (processes s) i); [|reflexivity].
  now destruct (_ && _).
Qed.

Lemma enter_static (A : Type) (g : Process -> A) (s : State) (i : nat) :
  (forall b p, g (set_in_ready_queue b p) = g p) ->
  map g (processes (enter_arrived s i)) = map g (processes s).
Proof.
  intros Hg. unfold enter_arrived.
  destruct (nth_error (processes s) i); [|reflexivity].
  destruct (_ && _); [|reflexivity]. simpl. now apply srpt_map_update.
Qed.

Lemma enter_sum (g : Process -> Z) (s : State) (i : nat) :
  (forall b p, g (set_in_ready_queue b p) = g p) ->
  sumZ g (processes (enter_arrived s i)) = sumZ g (processes s).
Proof.
  intros Hg. unfold enter_arrived.
  destruct (nth_error (processes s) i) as [p|] eqn:Hp; [|reflexivity].
  destruct (_ && _); [|reflexivity]. simpl.
  rewrite (sumZ_update _ _ _ _ _ Hp), Hg. lia.
Qed.

Lemma enter_latest (s : State) (i : nat) :
  latest_arrival (processes (enter_arrived s i)) = latest_arrival (processes s).
Proof.
  unfold enter_arrived.
  destruct (nth_error (processes s) i); [|reflexivity].
  destruct (_ && _); [|reflexivity]. simpl.
  now apply latest_arrival_update.
Qed.

(** The flag of an entry is set by the step for its index and is kept
    by the steps for the others. *)
Lemma enter_flags (s : State) (i j : nat) (p' : Process) :
  nth_error (processes (enter_arrived s i)) j = Some p' ->
  exists p, nth_error (processes s) j = Some p
            /\ arrival_time p' = arrival_time p /\ completed p' = completed p
            /\ (in_ready_queue p = true -> in_ready_queue p' = true)
            /\ (j = i -> arrival_time p <= current_time s ->
                completed p = false -> in_ready_queue p' = true).
Proof.
  unfold enter_arrived.
  destruct (nth_error (processes s) i) as [p|] eqn:Hp.
  - destruct (Z.leb_spec (arrival_time p) (current_time s)) as [Ha|Ha]; simpl.
    + destruct (in_ready_queue p) eqn:Hf; simpl.
      * intros Hj. exists p'. repeat split; trivial.
        intros -> _ _. congruence.
      * destruct (completed p) eqn:Hc; simpl.
        -- intros Hj. exists p'. repeat split; trivial.
           intros -> _ Hc'. congruence.
        -- rewrite srpt_nth_error_update.
           destruct (Nat.eqb_spec j i) as [E|Hne].
           ++ subst j. rewrite Hp. simpl. intros [= <-]. exists p.
              repeat split; trivial.
           ++ intros Hj. exists p'. repeat split; trivial. contradiction.
    + intros Hj. exists p'. repeat split; trivial.
      intros -> Ha' _. rewrite Hp in Hj. injection Hj as <-. lia.
  - intros Hj. exists p'. repeat split; trivial. intros ->. congruence.
Qed.

Lemma arrivals_fold_flags (l : list nat) (s : State) (j : nat) (p' : Process) :
  nth_error (processes (fold_left enter_arrived l s)) j = Some p' ->
  exists p, nth_error (processes s) j = Some p
            /\ arrival_time p' = arrival_time p /\ completed p' = completed p
            /\ (in_ready_queue p = true -> in_ready_queue p' = true)
            /\ (In j l -> arrival_time p <= current_time s ->
                completed p = false -> in_ready_queue p' = true).
Proof.
  revert s. induction l as [|i l IH]; intros s Hj; simpl in *.
  - exists p'. repeat split; trivial. intros [].
  - destruct (IH _ Hj) as (p1 & H1 & Ea & Ec & Hk & Hin).
    destruct (enter_flags s i j p1 H1) as (p & H0 & Ea' & Ec' & Hk' & Hi).
    exists p. split; [exact H0|]. split; [congruence|]. split; [congruence|].
    split; [tauto|].
    intros [E|Hl] Ha Hc.
    + apply Hk, Hi; auto.
    + apply Hin; trivial.
      * rewrite enter_current_time. congruence.
      * congruence.
Qed.

Lemma fold_enter_current_time (l : list nat) (s : State) :
  current_time (fold_left enter_arrived l s) = current_time s.
Proof.
  revert s. induction l as [|i l IH]; intros s; simpl; [reflexivity|].
  now rewrite IH, enter_current_time.
Qed.

Lemma fold_enter_length (l : list nat) (s : State) :
  length (processes (fold_left enter_arrived l s)) = length (processes s).
Proof.
  revert s. induction l as [|i l IH]; intros s; simpl; [reflexivity|].
  rewrite IH. rewrite <- (length_map pid), <- (length_map pid (processes s)).
  f_equal. now apply enter_static.
Qed.

Lemma arrivals_current_time (s : State) :
  current_time (arrivals s) = current_time s.
Proof. apply fold_enter_current_time. Qed.

Lemma arrivals_invariant (s : State) : invariant s -> invariant (arrivals s).
Proof.
  unfold arrivals. generalize (seq 0 (num s)). intros l. revert s.
  induction l as [|i l IH]; intros s H; simpl; [exact H|].
  now apply IH, invariant_enter.
Qed.

Lemma arrivals_flagged (s : State) : arrived_flagged (arrivals s).
Proof.
  intros j p' Hj Ha Hc. unfold arrivals in *.
  destruct (arrivals_fold_flags _ _ _ _ Hj) as (p & H0 & Ea & Ec & _ & Hin).
  rewrite fold_enter_current_time in Ha.
  apply Hin; [|congruence|congruence].
  apply in_seq. split; [lia|]. simpl. unfold num.
  apply nth_error_Some. congruence.
Qed.

Lemma arrivals_sum (g : Process -> Z) (s : State) :
  (forall b p, g (set_in_ready_queue b p) = g p) ->
  sumZ g (processes (arrivals s)) = sumZ g (processes s).
Proof.
  intros Hg. unfold arrivals. generalize (seq 0 (num s)). intros l. revert s.
  induction l as [|i l IH]; intros s; simpl; [reflexivity|].
  now rewrite IH, enter_sum.
Qed.

Lemma arrivals_latest (s : State) :
  latest_arrival (processes (arrivals s)) = latest_arrival (processes s).
Proof.
  unfold arrivals. generalize (seq 0 (num s)). intros l. revert s.
  induction l as [|i l IH]; intros s; simpl; [reflexivity|].
  now rewrite IH, enter_latest.
Qed.

Lemma arrivals_static (s : State) :
  map static (processes (arrivals s)) = map static (processes s).
Proof.
  unfold arrivals. generalize (seq 0 (num s)). intros l. revert s.
  induction l as [|i l IH]; intros s; simpl; [reflexivity|].
  rewrite IH. now apply enter_static.
Qed.

Lemma arrivals_num (s : State) : num (arrivals s) = num s.
Proof. apply fold_enter_length. Qed.

Lemma arrivals_measure (s : State) : measure (arrivals s) = measure s.
Proof.
  unfold measure. rewrite arrivals_current_time. now apply arrivals_sum.
Qed.

Lemma arrivals_time_ok (s : State) : time_ok s -> time_ok (arrivals s).
Proof.
  unfold time_ok.
  rewrite arrivals_current_time, arrivals_latest, arrivals_sum; trivial.
Qed.

Lemma arrivals_completed (s : State) :
  completed_processes (arrivals s) = completed_processes s.
Proof.
  unfold arrivals. generalize (seq 0 (num s)). intros l. revert s.
  induction l as [|i l IH]; intros s; simpl; [reflexivity|].
  rewrite IH. unfold enter_arrived.
  destruct (nth_error (processes s) i); [|reflexivity].
  now destruct (_ && _).
Qed.

(** *** Steps 2 and 3: the dispatch *)

Lemma srpt_quantum_min (l : list Z) : 1 <= time_quantum l.
Proof.
  unfold time_quantum. cbv zeta.
  match goal with |- context [?a <? 1] => destruct (Z.ltb_spec a 1) end; lia.
Qed.

(** The fields the record of the first start leaves as they are. *)
Lemma start_fields (t : Z) (p : Process) :
  let p1 := if start_time p =? -1 then set_start_time t p else p in
  pid p1 = pid p /\ arrival_time p1 = arrival_time p
  /\ burst_time p1 = burst_time p /\ remaining_time p1 = remaining_time p
  /\ completed p1 = completed p /\ in_ready_queue p1 = in_ready_queue p
  /\ completion_time p1 = completion_time p.
Proof. cbv zeta. destruct (start_time p =? -1); simpl; repeat split. Qed.

(** The queue without the copy that is dispatched. *)
Lemma rest_of_queue (s : State) (cp : Process) (rest : list Process)
    (idx : nat) (p : Process) :
  invariant s -> Permutation (cp :: rest) (ready_queue s) ->
  nth_error (processes s) idx = Some p -> pid p = pid cp ->
  NoDup (map pid rest) /\ ~ In (pid cp) (map pid rest)
  /\ (forall q, In q rest ->
        exists j p', j <> idx /\ nth_error (processes s) j = Some p'
                     /\ pid p' = pid q /\ remaining_time p' = remaining_time q
                     /\ in_ready_queue p' = true)
  /\ (forall j p', j <> idx -> nth_error (processes s) j = Some p' ->
        in_ready_queue p' = true -> In (pid p') (map pid rest))
  /\ (length rest < num s)%nat.
Proof.
  intros (Hnd & (Hq1 & Hq2 & Hq3) & _) Hperm Hp Epid.
  assert (Hnd' : NoDup (map pid (cp :: rest))).
  { apply (Permutation_NoDup (Permutation_sym (Permutation_map pid Hperm))).
    exact Hq1. }
  simpl in Hnd'. inversion Hnd' as [|? ? Hn Hr]; subst.
  split; [exact Hr|]. split; [exact Hn|]. split; [|split].
  - intros q Hq.
    destruct (Hq2 q) as (j & p' & Hj & E1 & E2 & E3).
    { eapply Permutation_in; [exact Hperm|now right]. }
    exists j, p'. split; [|auto].
    intros ->. rewrite Hp in Hj. injection Hj as <-.
    apply Hn. rewrite <- Epid, E1. now apply in_map.
  - intros j p' Hne Hj Hf.
    assert (Hin : In (pid p') (map pid (cp :: rest))).
    { eapply Permutation_in;
        [exact (Permutation_sym (Permutation_map pid Hperm))|].
      eapply Hq3; eauto. }
    destruct Hin as [E|Hin]; [|exact Hin].
    exfalso. apply Hne.
    apply (pid_unique (processes s) j idx p' p Hnd Hj Hp). congruence.
  - assert (Hl : (length (map pid (cp :: rest))
                  <= length (map pid (processes s)))%nat).
    { apply NoDup_incl_length; [exact Hnd'|].
      intros x Hx.
      apply (Permutation_in _ (Permutation_map pid Hperm)) in Hx.
      apply in_map_iff in Hx as (q & <- & Hq).
      destruct (Hq2 q Hq) as (j & p' & Hj & E' & _). rewrite <- E'.
      apply in_map. eapply nth_error_In, Hj. }
    simpl in Hl. rewrite !length_map in Hl. unfold num. lia.
Qed.

Lemma work_left_later (t t' : Z) (ps : list Process) :
  t <= t' -> sumZ (work_left t') ps <= sumZ (work_left t) ps.
Proof.
  intros Ht. apply sumZ_le, Forall_forall. intros p _. unfold work_left.
  destruct (completed p); lia.
Qed.

Section Loop.
Variable qsort : list Process -> list Process.
Hypothesis qsort_perm : forall l, Permutation (qsort l) l.

Lemma schedule_step (s : State) :
  invariant s -> ready_queue s <> [] ->
  invariant (schedule qsort s)
  /\ measure (schedule qsort s) < measure s
  /\ (time_ok s -> time_ok (schedule qsort s))
  /\ map static (processes (schedule qsort s)) = map static (processes s)
  /\ current_time s <= current_time (schedule qsort s).
Proof.
  intros H Hne. unfold schedule. cbv zeta.
  pose proof (qsort_perm (ready_queue s)) as Hperm.
  destruct (qsort (ready_queue s)) as [|cp rest] eqn:Eq.
  { apply Permutation_nil in Hperm. contradiction. }
  simpl removeFromReadyQueue. cbv iota.
  pose proof (srpt_quantum_min (map remaining_time (cp :: rest))) as Htq.
  set (tq := time_quantum _) in *.
  assert (Hcp : In cp (ready_queue s))
    by (eapply Permutation_in; [exact Hperm|now left]).
  pose proof H as (Hnd & (Hq1 & Hq2 & Hq3) & Hps & Hcount).
  destruct (Hq2 cp Hcp) as (idx & p & Hp & Epid & Erem & Hflag).
  destruct (rest_of_queue s cp rest idx p H Hperm Hp Epid)
    as (Hr1 & Hr2 & Hr3 & Hr4 & Hr5).
  rewrite <- Epid, (find_pid_spec _ 0 idx p Hnd Hp). simpl (0 + idx)%nat.
  cbv iota.
  destruct (DPSFacts.nth_error_Forall _ _ _ _ _ Hps Hp) as (Hrem & H1 & H2 & H3).
  specialize (H3 Hflag).
  assert (Hc : completed p = false).
  { destruct (completed p) eqn:Hc; [|reflexivity].
    destruct (H1 eq_refl) as (_ & Hf & _). congruence. }
  set (t := current_time s) in *.
  set (fix1 := fun p : Process =>
                 if start_time p =? -1 then set_start_time t p else p).
  destruct (start_fields t p) as (F1 & F2 & F3 & F4 & F5 & F6 & F7).
  fold (fix1 p) in F1, F2, F3, F4, F5, F6, F7.
  rewrite <- Erem.
  destruct (Z.leb_spec (remaining_time p) tq) as [Hle|Hgt].
  - (* the process completes *)
    rewrite srpt_update_update.
    set (F := fun p0 : Process =>
                complete_at (t + remaining_time p) (fix1 p0)).
    assert (HF : forall p0, static (F p0) = static p0).
    { intros p0. unfold F, static. simpl.
      destruct (start_fields t p0) as (G1 & G2 & G3 & _).
      fold (fix1 p0) in G1, G2, G3. now rewrite G1, G2, G3. }
    split; [|split; [|split; [|split]]].
    + split; [|split; [|split]]; simpl.
      * rewrite srpt_map_update; [exact Hnd|].
        intros p0. now injection (HF p0).
      * split; [exact Hr1|]. split; simpl.
        -- intros q Hq. destruct (Hr3 q Hq) as (j & p' & Hj & Hn & E).
           exists j, p'. split; [|exact E].
           now rewrite srpt_nth_error_update_other.
        -- intros j p' Hj Hf. rewrite srpt_nth_error_update in Hj.
           destruct (Nat.eqb_spec j idx) as [E|Hn].
           ++ subst j. rewrite Hp in Hj. injection Hj as <-. discriminate.
           ++ eapply Hr4; eauto.
      * apply srpt_Forall_update.
        -- revert Hps. apply Forall_impl. intros p0.
           apply process_ok_later. lia.
        -- intros p0 Hp0. rewrite Hp in Hp0. injection Hp0 as <-.
           unfold process_ok, F, executed_time in *. simpl.
           rewrite F2, F3. repeat split; try lia; try discriminate.
      * rewrite (sumZ_update _ _ _ _ _ Hp).
        assert (D1 : done p = 0) by (unfold done; now rewrite Hc).
        assert (D2 : done (F p) = 1) by reflexivity.
        lia.
    + unfold measure. simpl.
      rewrite (sumZ_update _ _ _ _ _ Hp).
      pose proof (work_left_later t (t + remaining_time p) (processes s)).
      assert (W1 : 1 <= work_left (t + remaining_time p) p)
        by (unfold work_left; rewrite Hc; lia).
      assert (W2 : work_left (t + remaining_time p) (F p) = 0) by reflexivity.
      unfold t in *. lia.
    + unfold time_ok. simpl.
      rewrite (sumZ_update _ _ _ _ _ Hp), latest_arrival_update.
      * assert (X1 : executed_time (F p) = burst_time p)
          by (unfold executed_time, F; simpl; rewrite F3; lia).
        assert (X2 : executed_time p = burst_time p - remaining_time p)
          by reflexivity.
        unfold t in *. lia.
      * intros p0. now injection (HF p0).
    + simpl. now apply srpt_map_update.
    + simpl. unfold t in *. lia.
  - (* the process is preempted *)
    rewrite srpt_update_update.
    set (G := fun p0 : Process =>
                set_in_ready_queue false
                  (set_remaining_time (remaining_time (fix1 p0) - tq)
                     (fix1 p0))).
    rewrite (srpt_nth_error_update_same G _ _ _ Hp).
    rewrite srpt_update_update.
    set (F := fun p0 : Process => set_in_ready_queue true (G p0)).
    assert (HF : forall p0, static (F p0) = static p0).
    { intros p0. unfold F, G, static. simpl.
      destruct (start_fields t p0) as (G1 & G2 & G3 & _).
      fold (fix1 p0) in G1, G2, G3. now rewrite G1, G2, G3. }
    unfold addToReadyQueue. apply Nat.ltb_lt in Hr5. rewrite Hr5.
    split; [|split; [|split; [|split]]].
    + split; [|split; [|split]]; simpl.
      * rewrite srpt_map_update; [exact Hnd|].
        intros p0. now injection (HF p0).
      * split; [|split]; simpl.
        -- rewrite map_app. simpl.
           apply (Permutation_NoDup (Permutation_cons_append _ _)).
           constructor; [|exact Hr1]. unfold G. simpl. now rewrite F1, Epid.
        -- intros q Hq. apply in_app_iff in Hq as [Hq|[<-|[]]].
           ++ destruct (Hr3 q Hq) as (j & p' & Hj & Hn & E).
              exists j, p'. split; [|exact E].
              now rewrite srpt_nth_error_update_other.
           ++ exists idx, (F p).
              split; [now apply srpt_nth_error_update_same|].
              unfold F, G. simpl. auto.
        -- intros j p' Hj Hf. rewrite map_app, in_app_iff.
           rewrite srpt_nth_error_update in Hj.
           destruct (Nat.eqb_spec j idx) as [E|Hn].
           ++ subst j. rewrite Hp in Hj. injection Hj as <-.
              right. now left.
           ++ left. eapply Hr4; eauto.
      * apply srpt_Forall_update.
        -- revert Hps. apply Forall_impl. intros p0.
           apply process_ok_later. lia.
        -- intros p0 Hp0. rewrite Hp in Hp0. injection Hp0 as <-.
           unfold process_ok, F, G, executed_time in *. simpl.
           rewrite F2, F3, F4, F5.
           repeat split; try lia; try discriminate; congruence.
      * rewrite (sumZ_update _ _ _ _ _ Hp).
        assert (D1 : done (F p) = done p)
          by (unfold done, F, G; simpl; now rewrite F5).
        lia.
    + unfold measure. simpl.
      rewrite (sumZ_update _ _ _ _ _ Hp).
      pose proof (work_left_later t (t + tq) (processes s)).
      assert (W1 : work_left (t + tq) p
                   = 1 + remaining_time p
                     + Z.max 0 (arrival_time p - (t + tq)))
        by (unfold work_left; now rewrite Hc).
      assert (W2 : work_left (t + tq) (F p)
                   = 1 + (remaining_time p - tq)
                     + Z.max 0 (arrival_time p - (t + tq)))
        by (unfold work_left, F, G; simpl; now rewrite F2, F4, F5, Hc).
      unfold t in *. lia.
    + unfold time_ok. simpl.
      rewrite (sumZ_update _ _ _ _ _ Hp), latest_arrival_update.
      * assert (X1 : executed_time (F p) = executed_time p + tq)
          by (unfold executed_time, F, G; simpl; rewrite F3, F4; lia).
        unfold t in *. lia.
      * intros p0. now injection (HF p0).
    + simpl. now apply srpt_map_update.
    + simpl. unfold t in *. lia.
Qed.

End Loop.

(** *** The idle step *)

Lemma idle_invariant (s : State) :
  invariant s -> ready_queue s = [] ->
  invariant (mkState (processes s) (ready_queue s) (current_time s + 1)
               (completed_processes s)).
Proof.
  intros (Hnd & Hq & Hps & Hcount) He.
  split; [exact Hnd|]. split; [exact Hq|]. split; [|exact Hcount]. simpl.
  revert Hps. apply Forall_impl. intros p. apply process_ok_later. lia.
Qed.

(** With an empty queue after the arrivals, what is not completed has
    not arrived. *)
Lemma idle_not_arrived (s : State) :
  invariant s -> arrived_flagged s -> ready_queue s = [] ->
  Forall (fun p => completed p = false -> current_time s < arrival_time p)
    (processes s).
Proof.
  intros (_ & (_ & _ & Hq3) & _) Ha He. apply Forall_forall. intros p Hin Hc.
  apply In_nth_error in Hin as [i Hi].
  destruct (Z.lt_ge_cases (current_time s) (arrival_time p)) as [|Hle];
    [assumption|].
  assert (Hf : in_ready_queue p = true) by (apply (Ha i p Hi); [lia|exact Hc]).
  specialize (Hq3 i p Hi Hf). rewrite He in Hq3. destruct Hq3.
Qed.

Lemma work_left_idle (t : Z) (ps : list Process) :
  Forall (fun p => completed p = false -> t < arrival_time p) ps ->
  sumZ (work_left (t + 1)) ps + (Z.of_nat (length ps) - sumZ done ps)
  = sumZ (work_left t) ps.
Proof.
  induction 1 as [|p ps Hp _ IH]; [reflexivity|].
  cbn [sumZ fold_right length]. fold (sumZ (work_left (t + 1)) ps).
  fold (sumZ (work_left t) ps). fold (sumZ done ps).
  unfold work_left at 1 3. unfold done at 1.
  destruct (completed p); [lia|]. specialize (Hp eq_refl). lia.
Qed.

Lemma some_not_completed (ps : list Process) :
  sumZ done ps < Z.of_nat (length ps) ->
  exists i p, nth_error ps i = Some p /\ completed p = false.
Proof.
  induction ps as [|p ps IH]; simpl; [lia|]. intros H.
  destruct (completed p) eqn:Hc.
  - destruct IH as (i & q & Hi & Hq).
    + unfold done in H at 1. rewrite Hc in H.
      fold (sumZ done ps) in H. lia.
    + now exists (S i), q.
  - now exists 0%nat, p.
Qed.

Lemma all_completed (ps : list Process) :
  Z.of_nat (length ps) <= sumZ done ps ->
  Forall (fun p => completed p = true) ps.
Proof.
  assert (Hle : forall l, sumZ done l <= Z.of_nat (length l)).
  { induction l as [|q l IH]; simpl; [lia|].
    fold (sumZ done l). unfold done at 1. destruct (completed q); lia. }
  induction ps as [|p ps IH]; simpl; [constructor|]. intros H.
  fold (sumZ done ps) in H. specialize (Hle ps). unfold done in H at 1.
  destruct (completed p) eqn:Hc; [|lia].
  constructor; [exact Hc|]. apply IH. lia.
Qed.

Lemma executed_nonneg (t : Z) (ps : list Process) :
  Forall (process_ok t) ps -> 0 <= sumZ executed_time ps.
Proof.
  intros H. apply sumZ_nonneg. revert H. apply Forall_impl.
  intros p (Hr & _). unfold executed_time. lia.
Qed.

Lemma measure_nonneg (s : State) : invariant s -> 0 <= measure s.
Proof.
  intros (_ & _ & Hps & _). apply sumZ_nonneg. revert Hps.
  apply Forall_impl. intros p (Hr & _). unfold work_left.
  destruct (completed p); lia.
Qed.

Section Run.
Variable qsort : list Process -> list Process.
Hypothesis qsort_perm : forall l, Permutation (qsort l) l.

Lemma iteration_invariant (s : State) :
  invariant s ->
  invariant (iteration qsort s)
  /\ map static (processes (iteration qsort s)) = map static (processes s).
Proof.
  intros H. unfold iteration. cbv zeta.
  pose proof (arrivals_invariant s H) as H1.
  destruct (ready_queue (arrivals s)) as [|c r] eqn:Eq.
  - rewrite <- Eq. split; [now apply idle_invariant|].
    simpl. apply arrivals_static.
  - destruct (schedule_step qsort qsort_perm (arrivals s) H1)
      as (Hi & _ & _ & Hs & _); [congruence|].
    split; [exact Hi|]. rewrite Hs. apply arrivals_static.
Qed.

Lemma iteration_progress (s : State) :
  invariant s -> time_ok s -> completed_processes s < Z.of_nat (num s) ->
  measure (iteration qsort s) < measure s /\ time_ok (iteration qsort s).
Proof.
  intros H Ht Hg. unfold iteration. cbv zeta.
  pose proof (arrivals_invariant s H) as H1.
  pose proof (arrivals_time_ok s Ht) as Ht1.
  rewrite <- (arrivals_measure s).
  rewrite <- (arrivals_completed s), <- (arrivals_num s) in Hg.
  destruct (ready_queue (arrivals s)) as [|c r] eqn:Eq.
  - pose proof (idle_not_arrived _ H1 (arrivals_flagged s) Eq) as Hn.
    pose proof H1 as (_ & _ & Hps & Hcount). rewrite Hcount in Hg.
    split.
    + unfold measure. simpl.
      pose proof (work_left_idle _ _ Hn). unfold num in Hg. lia.
    + destruct (some_not_completed _ Hg) as (i & p & Hi & Hc).
      rewrite Forall_forall in Hn.
      specialize (Hn p (nth_error_In _ _ Hi) Hc).
      destruct (latest_arrival_ge _ _ _ Hi) as [Hl _].
      pose proof (executed_nonneg _ _ Hps).
      unfold time_ok in *. simpl. lia.
  - destruct (schedule_step qsort qsort_perm (arrivals s) H1)
      as (_ & Hm & Ht' & _); [congruence|].
    split; [exact Hm|now apply Ht'].
Qed.

Lemma loop_terminates (fuel : nat) (s : State) :
  invariant s -> time_ok s -> measure s <= Z.of_nat fuel ->
  exists s', loop qsort fuel s = Some s'
             /\ invariant s' /\ time_ok s'
             /\ map static (processes s') = map static (processes s)
             /\ Z.of_nat (num s') <= completed_processes s'.
Proof.
  revert s. induction fuel as [|fuel IH]; intros s H Ht Hm; simpl.
  - destruct (Z.ltb_spec (completed_processes s) (Z.of_nat (num s))) as [Hg|Hg].
    + destruct (iteration_progress s H Ht Hg) as [Hlt _].
      destruct (iteration_invariant s H) as [Hi _].
      pose proof (measure_nonneg _ Hi). lia.
    + exists s. split; [reflexivity|]. split; [exact H|].
      split; [exact Ht|]. split; [reflexivity|exact Hg].
  - destruct (Z.ltb_spec (completed_processes s) (Z.of_nat (num s))) as [Hg|Hg].
    + destruct (iteration_progress s H Ht Hg) as [Hlt Ht'].
      destruct (iteration_invariant s H) as [Hi Hs].
      destruct (IH (iteration qsort s) Hi Ht') as (s' & E & A & B & C & D);
        [lia|].
      exists s'. split; [exact E|]. split; [exact A|].
      split; [exact B|]. split; [congruence|exact D].
    + exists s. split; [reflexivity|]. split; [exact H|].
      split; [exact Ht|]. split; [reflexivity|exact Hg].
Qed.

Lemma iterate_invariant (k : nat) (s : State) :
  invariant s -> invariant (iterate qsort k s).
Proof.
  revert s. induction k as [|k IH]; intros s H; simpl; [exact H|].
  apply IH. now apply iteration_invariant.
Qed.

End Run.

(** *** The initial state *)

Lemma initial_invariant (input : list Input) :
  valid_input input ->
  invariant (initial_state input) /\ time_ok (initial_state input).
Proof.
  intros [Hnd Hb]. unfold initial_state.
  assert (Hpid : map pid (map init_process input) = map Scenario.id_of input).
  { rewrite map_map. apply map_ext.
    now intros [[[[[[i a] b] d] c] pe] ni]. }
  assert (Hok : Forall (fun p => process_ok 0 p /\ in_ready_queue p = false
                                 /\ completed p = false
                                 /\ executed_time p = 0)
                  (map init_process input)).
  { clear Hnd Hpid. induction Hb as [|x input Hx _ IH]; simpl; constructor.
    - destruct x as [[[[[[i a] b] d] c] pe] ni]. simpl in Hx.
      unfold process_ok, executed_time. simpl.
      repeat split; try lia; try discriminate.
    - exact IH. }
  split; [split; [|split; [|split]]|]; simpl.
  - now rewrite Hpid.
  - split; [constructor|]. split; [intros q []|].
    intros i p Hi Hf. rewrite Forall_forall in Hok.
    destruct (Hok p (nth_error_In _ _ Hi)) as (_ & Hf' & _). congruence.
  - revert Hok. apply Forall_impl. tauto.
  - clear Hpid. induction Hok as [|p ps (_ & _ & Hc & _) _ IH]; simpl;
      [reflexivity|].
    fold (sumZ done ps). unfold done at 1. rewrite Hc. lia.
  - unfold time_ok. simpl.
    assert (E : sumZ executed_time (map init_process input) = 0).
    { clear Hpid. induction Hok as [|p ps (_ & _ & _ & He) _ IH]; simpl;
        [reflexivity|].
      fold (sumZ executed_time ps). lia. }
    rewrite E. pose proof (latest_arrival_nonneg (map init_process input)).
    lia.
Qed.

Lemma sumZ_map (g : Process -> Z) (ps : list Process) :
  sumZ g ps = fold_right Z.add 0 (map g ps).
Proof. induction ps as [|p ps IH]; simpl; [reflexivity|]. now rewrite <- IH. Qed.

Lemma burst_of_static (ps : list Process) :
  map burst_time ps = map (fun x : Z * Z * Z => snd x) (map static ps).
Proof. now rewrite map_map. Qed.

Lemma arrival_of_static (ps qs : list Process) :
  map static ps = map static qs -> latest_arrival ps = latest_arrival qs.
Proof.
  revert qs. induction ps as [|p ps IH]; intros [|q qs]; simpl;
    try discriminate; [reflexivity|].
  intros [= E1 E2 E3 E]. now rewrite E2, (IH qs E).
Qed.

(** reference-paper-algo.c, simulation loop: on an input whose pids are
    all different and whose burst times are not negative, and whatever
    order [qsort] leaves equal entries in, the [while] loop ends, after
    at most one iteration per process, per unit of burst time and per
    unit of time before an arrival.  At its end the ready queue is empty
    and every process is completed exactly once, with no time
    remaining and a completion time that is at least its arrival time
    plus its burst time; the clock is at least the sum of the burst
    times and at most that sum after the latest arrival. *)
Theorem simulation_completes_every_process
    (qsort : list Process -> list Process) (input : list Input) :
  (forall l, Permutation (qsort l) l) -> valid_input input ->
  exists s,
    simulate qsort (Z.to_nat (measure (initial_state input))) input = Some s
    /\ map static (processes s) = map static (map init_process input)
    /\ ready_queue s = []
    /\ completed_processes s = Z.of_nat (length input)
    /\ Forall (fun p => completed p = true /\ remaining_time p = 0
                        /\ arrival_time p + burst_time p <= completion_time p
                           <= current_time s)
         (processes s)
    /\ Scenario.total_burst input <= current_time s
       <= latest_arrival (map init_process input) + Scenario.total_burst input.
Proof.
  intros Hperm Hv. destruct (initial_invariant input Hv) as [Hi Ht].
  destruct (loop_terminates qsort Hperm
              (Z.to_nat (measure (initial_state input))) _ Hi Ht)
    as (s & E & Hs & Hts & Hst & Hn).
  { pose proof (measure_nonneg _ Hi). lia. }
  exists s. split; [exact E|]. split; [exact Hst|].
  pose proof Hs as (Hnd & (Hq1 & Hq2 & Hq3) & Hps & Hcount).
  assert (Hall : Forall (fun p => completed p = true) (processes s)).
  { apply all_completed. unfold num in Hn. lia. }
  assert (Hlen : length (processes s) = length input).
  { rewrite <- (length_map static), Hst. simpl. now rewrite !length_map. }
  assert (Hdone : Forall (fun p => completed p = true /\ remaining_time p = 0
                            /\ arrival_time p + burst_time p
                               <= completion_time p <= current_time s)
                    (processes s)).
  { rewrite Forall_forall in *. intros p Hp.
    destruct (Hps p Hp) as (_ & H1 & _).
    destruct (H1 (Hall p Hp)) as (A & _ & B). auto. }
  split; [|split; [|split; [exact Hdone|]]].
  - destruct (ready_queue s) as [|q r]; [reflexivity|]. exfalso.
    destruct (Hq2 q (or_introl eq_refl)) as (i & p & Hp & _ & _ & Hf).
    rewrite Forall_forall in Hps, Hall.
    destruct (Hps p (nth_error_In _ _ Hp)) as (_ & H1 & _).
    destruct (H1 (Hall p (nth_error_In _ _ Hp))) as (_ & Hf' & _). congruence.
  - rewrite Hcount, <- Hlen.
    assert (Hle : forall l, Forall (fun p => completed p = true) l ->
                            sumZ done l = Z.of_nat (length l)).
    { induction 1 as [|p l Hc _ IH]; [reflexivity|].
      cbn [sumZ fold_right length]. fold (sumZ done l).
      unfold done at 1. rewrite Hc. lia. }
    now apply Hle.
  - assert (Hex : sumZ executed_time (processes s) = Scenario.total_burst input).
    { transitivity (sumZ burst_time (processes s)).
      - clear - Hdone. induction Hdone as [|p l (_ & Hr & _) _ IH];
          [reflexivity|].
        cbn [sumZ fold_right]. fold (sumZ executed_time l).
        fold (sumZ burst_time l). unfold executed_time at 1. lia.
      - rewrite sumZ_map, burst_of_static, Hst. unfold Scenario.total_burst.
        f_equal. simpl. rewrite !map_map. apply map_ext.
        now intros [[[[[[i a] b] d] c] pe] ni]. }
    unfold time_ok in Hts. rewrite Hex in Hts.
    rewrite (arrival_of_static _ _ Hst) in Hts. exact Hts.
Qed.

(** The sample input, with a stable sort for [qsort]: the loop ends at
    time 14, the sum of the burst times. *)
Lemma simulation_completes_witness :
  exists s,
    simulate stable_sort
      (Z.to_nat (measure (initial_state Scenario.sample_input)))
      Scenario.sample_input = Some s
    /\ map static (processes s)
       = map static (map init_process Scenario.sample_input)
    /\ ready_queue s = []
    /\ completed_processes s = Z.of_nat (length Scenario.sample_input)
    /\ Forall (fun p => completed p = true /\ remaining_time p = 0
                        /\ arrival_time p + burst_time p <= completion_time p
                           <= current_time s)
         (processes s)
    /\ Scenario.total_burst Scenario.sample_input <= current_time s
       <= latest_arrival (map init_process Scenario.sample_input)
          + Scenario.total_burst Scenario.sample_input.
Proof.
  apply (simulation_completes_every_process stable_sort Scenario.sample_input).
  - apply Quantum.stable_sort_perm.
  - split.
    + repeat constructor; simpl; intuition discriminate.
    + repeat constructor; discriminate.
Defined.

(** reference-paper-algo.c, ready queue: on such an input, in every
    iteration of the loop and once step 1 has added the arrivals, the
    ready queue holds no process twice; it holds a copy of exactly the
    processes that have arrived and are not completed, each copy with
    the remaining time of the table entry; and it is never full when a
    process is added. *)
Theorem ready_queue_holds_each_process_once
    (qsort : list Process -> list Process) (input : list Input) (k : nat) :
  (forall l, Permutation (qsort l) l) -> valid_input input ->
  let s := arrivals (iterate qsort k (initial_state input)) in
  NoDup (map pid (ready_queue s))
  /\ (forall p, In p (processes s) ->
        (In (pid p) (map pid (ready_queue s))
         <-> arrival_time p <= current_time s /\ completed p = false))
  /\ (forall q, In q (ready_queue s) ->
        exists p, In p (processes s) /\ pid p = pid q
                  /\ remaining_time p = remaining_time q)
  /\ (length (ready_queue s) <= length input)%nat.
Proof.
  intros Hperm Hv s.
  destruct (initial_invariant input Hv) as [Hi _].
  pose proof (iterate_invariant qsort Hperm k _ Hi) as Hk.
  pose proof (arrivals_invariant _ Hk) as Hs. fold s in Hs.
  pose proof (arrivals_flagged (iterate qsort k (initial_state input))) as Hf.
  fold s in Hf.
  pose proof Hs as (Hnd & (Hq1 & Hq2 & Hq3) & Hps & Hcount).
  split; [exact Hq1|]. split; [|split].
  - intros p Hp. apply In_nth_error in Hp as [i Hp]. split.
    + intros Hin. apply in_map_iff in Hin as (q & E & Hq).
      destruct (Hq2 q Hq) as (j & p' & Hj & E' & _ & Hflag).
      assert (j = i)
        by (apply (pid_unique (processes s) j i p' p Hnd Hj Hp); congruence).
      subst j. rewrite Hp in Hj. injection Hj as <-.
      destruct (DPSFacts.nth_error_Forall _ _ _ _ _ Hps Hp)
        as (Hr & H1 & _ & H3).
      specialize (H3 Hflag). unfold executed_time in H3. split; [lia|].
      destruct (completed p) eqn:Hc; [|reflexivity].
      destruct (H1 eq_refl) as (_ & Hx & _). congruence.
    + intros [Ha Hc]. apply (Hq3 i p Hp). now apply (Hf i p Hp).
  - intros q Hq. destruct (Hq2 q Hq) as (j & p' & Hj & E1 & E2 & _).
    exists p'. split; [eapply nth_error_In, Hj|auto].
  - assert (Hl : (length (map pid (ready_queue s))
                  <= length (map pid (processes s)))%nat).
    { apply NoDup_incl_length; [exact Hq1|].
      intros x Hx. apply in_map_iff in Hx as (q & <- & Hq).
      destruct (Hq2 q Hq) as (j & p' & Hj & E' & _). rewrite <- E'.
      apply in_map. eapply nth_error_In, Hj. }
    rewrite !length_map in Hl.
    assert (Hlen : length (processes s) = length input).
    { unfold s. fold (num (arrivals (iterate qsort k (initial_state input)))).
      rewrite arrivals_num. unfold num.
      rewrite <- (length_map static).
      assert (Hst : forall n t, invariant t ->
                map static (processes (iterate qsort n t))
                = map static (processes t)).
      { induction n as [|n IH]; intros t Ht; simpl; [reflexivity|].
        destruct (iteration_invariant qsort Hperm t Ht) as [Hit Hst].
        now rewrite IH, Hst. }
      rewrite (Hst k _ Hi). simpl. now rewrite !length_map. }
    lia.
Qed.

(** The second iteration on the sample input: jobs 2 and 3 are in the
    queue, job 1 is completed. *)
Lemma ready_queue_witness :
  let s := arrivals (iterate stable_sort 1 (initial_state Scenario.sample_input)) in
  NoDup (map pid (ready_queue s))
  /\ (forall p, In p (processes s) ->
        (In (pid p) (map pid (ready_queue s))
         <-> arrival_time p <= current_time s /\ completed p = false))
  /\ (forall q, In q (ready_queue s) ->
        exists p, In p (processes s) /\ pid p = pid q
                  /\ remaining_time p = remaining_time q)
  /\ (length (ready_queue s) <= length Scenario.sample_input)%nat.
Proof.
  apply (ready_queue_holds_each_process_once stable_sort Scenario.sample_input 1).
  - apply Quantum.stable_sort_perm.
  - split.
    + repeat constructor; simpl; intuition discriminate.
    + repeat constructor; discriminate.
Defined.

End SRPTFacts.

(** ** DPS-DTQ.c: the circular buffer of the ready queue *)

Module QueueFacts.
Import CircularQueue.

Lemma capacity_100 : capacity = 100.
Proof. reflexivity. Qed.

Lemma rem_cases (x : Z) :
  0 <= x < 2 * capacity ->
  (x < capacity /\ Z.rem x capacity = x)
  \/ (capacity <= x /\ Z.rem x capacity = x - capacity).
Proof.
  rewrite capacity_100. intros Hx. rewrite Z.rem_mod_nonneg by lia.
  destruct (Z.lt_ge_cases x 100) as [Hlt|Hge].
  - left. rewrite Z.mod_small; lia.
  - right. split; [exact Hge|].
    replace x with ((x - 100) + 1 * 100) at 1 by lia.
    rewrite Z.mod_add by lia. rewrite Z.mod_small; lia.
Qed.

Lemma length_store_at (a : list nat) (i v : nat) :
  length (store_at a i v) = length a.
Proof.
  revert i. induction a as [|x a IH]; intros [|i]; simpl; auto.
Qed.

Lemma nth_store_at (a : list nat) (i j v d : nat) :
  (i < length a)%nat ->
  nth j (store_at a i v) d = if (j =? i)%nat then v else nth j a d.
Proof.
  revert i j. induction a as [|x a IH]; intros i j Hi; simpl in Hi; [lia|].
  destruct i as [|i], j as [|j]; simpl; trivial. apply IH. lia.
Qed.

Lemma length_store (a : list nat) (i : Z) (v : nat) :
  length (store a i v) = length a.
Proof.
  unfold store. destruct (0 <=? i); [apply length_store_at|reflexivity].
Qed.

Lemma load_store (a : list nat) (i j : Z) (v : nat) :
  0 <= i < Z.of_nat (length a) -> 0 <= j ->
  load (store a i v) j = if j =? i then v else load a j.
Proof.
  intros Hi Hj. unfold load, store.
  destruct (Z.leb_spec 0 i); [|lia]. destruct (Z.leb_spec 0 j); [|lia].
  rewrite nth_store_at by lia.
  destruct (Z.eqb_spec j i) as [->|Hne].
  - now rewrite Nat.eqb_refl.
  - destruct (Nat.eqb_spec (Z.to_nat j) (Z.to_nat i)); [lia|reflexivity].
Qed.

Lemma length_contents (q : Buffer) :
  length (contents q) = Z.to_nat (size q).
Proof. unfold contents. now rewrite length_map, length_seq. Qed.

Lemma nth_contents (q : Buffer) (k : nat) :
  (k < Z.to_nat (size q))%nat ->
  nth k (contents q) 0%nat
  = load (cells q) (Z.rem (front q + Z.of_nat k) capacity).
Proof.
  intros Hk. apply nth_error_nth. unfold contents.
  rewrite nth_error_map, nth_error_seq.
  destruct (Nat.ltb_spec k (Z.to_nat (size q))); [reflexivity|lia].
Qed.

(** The cells of two positions of the queue are two cells. *)
Lemma index_injective (f i j : Z) :
  0 <= f < capacity -> 0 <= i < capacity -> 0 <= j < capacity ->
  Z.rem (f + i) capacity = Z.rem (f + j) capacity -> i = j.
Proof.
  intros Hf Hi Hj.
  destruct (rem_cases (f + i)) as [[? ->]|[? ->]]; [lia| |];
    destruct (rem_cases (f + j)) as [[? ->]|[? ->]]; lia.
Qed.

Lemma index_range (x : Z) :
  0 <= x < 2 * capacity -> 0 <= Z.rem x capacity < capacity.
Proof. intros Hx. destruct (rem_cases x Hx) as [[? ->]|[? ->]]; lia. Qed.

Lemma rem_rem_add (a b : Z) :
  0 <= a -> 0 <= b ->
  Z.rem (Z.rem a capacity + b) capacity = Z.rem (a + b) capacity.
Proof.
  intros Ha Hb. rewrite capacity_100.
  rewrite (Z.rem_mod_nonneg a) by lia.
  pose proof (Z.mod_pos_bound a 100).
  rewrite !Z.rem_mod_nonneg by lia. apply Z.add_mod_idemp_l. lia.
Qed.

Lemma enqueue_refines (q : Buffer) (p : nat) :
  well_formed q ->
  well_formed (enqueue q p)
  /\ contents (enqueue q p) = DPS.enqueue (contents q) p.
Proof.
  intros (Hlen & Hf & Hs & Hr & Hrear).
  unfold enqueue, DPS.enqueue, isQueueFull, DPS.isQueueFull.
  rewrite length_contents.
  destruct (Z.eqb_spec (size q) capacity) as [E|Hne].
  - rewrite E. change (Z.to_nat capacity) with DPS.MAX_QUEUE_SIZE.
    rewrite Nat.eqb_refl. split; [now repeat split|reflexivity].
  - assert (Hlt : size q < capacity) by lia.
    destruct (Nat.eqb_spec (Z.to_nat (size q)) DPS.MAX_QUEUE_SIZE) as [E|_].
    { unfold capacity in Hlt. lia. }
    cbv zeta. rewrite Hrear.
    pose proof (index_range (front q + size q)) as Hidx.
    assert (Hcap : capacity = Z.of_nat (length (cells q)))
      by (rewrite Hlen; reflexivity).
    split.
    + unfold well_formed. simpl. rewrite length_store.
      split; [exact Hlen|]. split; [exact Hf|]. split; [lia|].
      split; [lia|].
      rewrite rem_rem_add by lia. f_equal. lia.
    + unfold contents. simpl.
      replace (Z.to_nat (size q + 1)) with (S (Z.to_nat (size q))) by lia.
      rewrite seq_S, map_app. simpl. f_equal.
      * apply map_ext_in. intros i Hi. apply in_seq in Hi.
        rewrite load_store; [|lia|].
        -- destruct (Z.eqb_spec
                       (Z.rem (front q + Z.of_nat i) capacity)
                       (Z.rem (front q + size q) capacity)) as [E|_];
             [|reflexivity].
           apply index_injective in E; lia.
        -- apply index_range. lia.
      * rewrite Z2Nat.id by lia. rewrite load_store; [|lia|lia].
        now rewrite Z.eqb_refl.
Qed.

Lemma dequeue_refines (q : Buffer) :
  well_formed q ->
  match dequeue q with
  | None => DPS.dequeue (contents q) = None
  | Some (p, q') =>
      well_formed q' /\ DPS.dequeue (contents q) = Some (p, contents q')
  end.
Proof.
  intros (Hlen & Hf & Hs & Hr & Hrear). unfold dequeue, isQueueEmpty.
  destruct (Z.eqb_spec (size q) 0) as [E|Hne].
  - unfold contents. now rewrite E.
  - split.
    + unfold well_formed. simpl.
      split; [exact Hlen|]. split; [apply index_range; lia|].
      split; [lia|]. split; [exact Hr|]. rewrite Hrear.
      rewrite rem_rem_add by lia. f_equal. lia.
    + unfold contents. simpl.
      replace (Z.to_nat (size q)) with (S (Z.to_nat (size q - 1))) by lia.
      simpl. rewrite Z.add_0_r.
      destruct (rem_cases (front q)) as [[_ ->]|[? _]]; [lia| |lia].
      f_equal. f_equal. rewrite <- seq_shift, map_map.
      apply map_ext_in. intros i Hi. apply in_seq in Hi. f_equal.
      rewrite rem_rem_add by lia. f_equal. lia.
Qed.

(** DPS-DTQ.c, the ready queue: on a buffer whose indices are in the
    array, [isQueueEmpty], [isQueueFull], [enqueue] and [dequeue] act on
    the sequence of the pointers held, from [front] on, as on a
    first-in first-out list of at most [MAX_QUEUE_SIZE] entries, the
    wrap-around of [front] and [rear] included: [enqueue] appends (a
    full queue is left as it is), [dequeue] returns the first and keeps
    the others, and NULL on the empty queue; the indices stay in the
    array.  [initializeQueue] gives such a buffer, empty. *)
Theorem circular_buffer_is_a_fifo (q : Buffer) (p : nat) :
  well_formed q ->
  isQueueEmpty q = DPS.isQueueEmpty (contents q)
  /\ isQueueFull q = DPS.isQueueFull (contents q)
  /\ well_formed (enqueue q p)
  /\ contents (enqueue q p) = DPS.enqueue (contents q) p
  /\ match dequeue q with
     | None => DPS.dequeue (contents q) = None
     | Some (p', q') =>
         well_formed q' /\ DPS.dequeue (contents q) = Some (p', contents q')
     end
  /\ well_formed (initializeQueue q)
  /\ contents (initializeQueue q) = [].
Proof.
  intros H. pose proof H as (Hlen & Hf & Hs & Hr & Hrear).
  split; [|split].
  - unfold isQueueEmpty, DPS.isQueueEmpty. rewrite length_contents.
    destruct (Z.eqb_spec (size q) 0), (Nat.eqb_spec (Z.to_nat (size q)) 0);
      trivial; lia.
  - unfold isQueueFull, DPS.isQueueFull. rewrite length_contents.
    destruct (Z.eqb_spec (size q) capacity),
             (Nat.eqb_spec (Z.to_nat (size q)) DPS.MAX_QUEUE_SIZE);
      trivial; unfold capacity in *; lia.
  - destruct (enqueue_refines q p H) as [A B].
    split; [exact A|]. split; [exact B|].
    split; [now apply dequeue_refines|].
    split; [|reflexivity].
    unfold well_formed. simpl. rewrite capacity_100.
    repeat split; trivial; lia.
Qed.

(** A queue of one entry held in the last cell: the next one goes into
    cell 0. *)
Lemma circular_buffer_witness :
  let q := mkBuffer (repeat 0%nat 99 ++ [7%nat]) 99 99 1 in
  contents q = [7%nat]
  /\ rear (enqueue q 8) = 0
  /\ contents (enqueue q 8) = [7%nat; 8%nat]
  /\ option_map (fun r => (fst r, contents (snd r))) (dequeue (enqueue q 8))
     = Some (7%nat, [8%nat]).
Proof.
  intros q.
  destruct (circular_buffer_is_a_fifo q 8) as (_ & _ & _ & E & _).
  { unfold well_formed. simpl. rewrite capacity_100.
    repeat split; try reflexivity; lia. }
  split; [reflexivity|]. split; [reflexivity|]. split; [|reflexivity].
  rewrite E. reflexivity.
Defined.

(** *** The bubble sort on the buffer *)

Section RingSort.
Variable ps : list DPS.Process.

Lemma swap_step_length (l : list nat) (j : nat) :
  length (swap_step ps l j) = length l.
Proof.
  revert j. induction l as [|a l IH]; intros j; [now destruct j|].
  destruct j as [|j].
  - destruct l as [|b r]; [reflexivity|]. simpl.
    now destruct (_ <? _).
  - simpl. destruct l as [|b r]; simpl; [reflexivity|].
    f_equal. apply (IH j).
Qed.

Lemma swap_step_S (a : nat) (l : list nat) (j : nat) :
  swap_step ps (a :: l) (S j) = a :: swap_step ps l j.
Proof. simpl. now destruct l. Qed.

Lemma swap_step_nth (l : list nat) (j k : nat) :
  (S j < length l)%nat ->
  nth k (swap_step ps l j) 0%nat
  = if DPS.system_priority_at ps (nth j l 0%nat)
       <? DPS.system_priority_at ps (nth (S j) l 0%nat)
    then if (k =? j)%nat then nth (S j) l 0%nat
         else if (k =? S j)%nat then nth j l 0%nat
         else nth k l 0%nat
    else nth k l 0%nat.
Proof.
  revert j k. induction l as [|a l IH]; intros j k Hj; simpl in Hj; [lia|].
  destruct j as [|j].
  - destruct l as [|b r]; simpl in Hj; [lia|]. simpl.
    destruct (_ <? _); [|reflexivity].
    destruct k as [|[|k]]; reflexivity.
  - rewrite swap_step_S. destruct k as [|k].
    + simpl. now destruct (_ <? _).
    + change (nth (S k) (a :: swap_step ps l j) 0%nat)
        with (nth k (swap_step ps l j) 0%nat).
      rewrite IH by lia. reflexivity.
Qed.

(** The comparisons of one pass, one after the other, are the pass of
    the bubble sort on the list. *)
Lemma swap_fold_shift (k s : nat) (x : nat) (l : list nat) :
  fold_left (swap_step ps) (seq (S s) k) (x :: l)
  = x :: fold_left (swap_step ps) (seq s k) l.
Proof.
  revert s l. induction k as [|k IH]; intros s l; simpl; [reflexivity|].
  rewrite <- IH. f_equal. now destruct l.
Qed.

Lemma swap_fold_short (k s : nat) (l : list nat) :
  (length l <= 1)%nat -> fold_left (swap_step ps) (seq s k) l = l.
Proof.
  revert s. induction k as [|k IH]; intros s Hl; simpl; [reflexivity|].
  destruct l as [|a [|b r]]; simpl in Hl; try lia.
  - destruct s; apply (IH _ Hl).
  - destruct s; apply (IH _ Hl).
Qed.

Lemma swap_fold_pass (k : nat) (l : list nat) :
  fold_left (swap_step ps) (seq 0 k) l = DPS.bubble_pass ps k l.
Proof.
  revert l. induction k as [|k IH]; intros l; simpl.
  - now destruct l as [|a [|b r]].
  - destruct l as [|a [|b r]].
    + apply (swap_fold_short k 1 []). simpl. lia.
    + apply (swap_fold_short k 1 [a]). simpl. lia.
    + cbn [swap_step].
      destruct (_ <? _); rewrite swap_fold_shift, IH; reflexivity.
Qed.

Lemma compare_swap_refines (q : Buffer) (j : nat) :
  well_formed q -> (S j < Z.to_nat (size q))%nat ->
  well_formed (compare_swap ps q j)
  /\ size (compare_swap ps q j) = size q
  /\ contents (compare_swap ps q j) = swap_step ps (contents q) j.
Proof.
  intros H Hj. pose proof H as (Hlen & Hf & Hs & Hr & Hrear).
  assert (Hcap : capacity = Z.of_nat (length (cells q)))
    by (rewrite Hlen; reflexivity).
  assert (E1 : nth j (contents q) 0%nat
               = load (cells q) (Z.rem (front q + Z.of_nat j) capacity))
    by (apply nth_contents; lia).
  assert (E2 : nth (S j) (contents q) 0%nat
               = load (cells q) (Z.rem (front q + Z.of_nat j + 1) capacity)).
  { rewrite nth_contents by lia. f_equal. f_equal. lia. }
  unfold compare_swap. cbv zeta.
  set (idx1 := Z.rem (front q + Z.of_nat j) capacity) in *.
  set (idx2 := Z.rem (front q + Z.of_nat j + 1) capacity) in *.
  assert (R1 : 0 <= idx1 < capacity) by (apply index_range; lia).
  assert (R2 : 0 <= idx2 < capacity) by (apply index_range; lia).
  assert (N12 : idx1 <> idx2).
  { unfold idx1, idx2. intros E.
    replace (front q + Z.of_nat j + 1) with (front q + (Z.of_nat j + 1)) in E
      by lia.
    apply index_injective in E; lia. }
  destruct (DPS.system_priority_at ps (load (cells q) idx1)
            <? DPS.system_priority_at ps (load (cells q) idx2)) eqn:Hlt.
  - split; [|split; [reflexivity|]].
    + unfold well_formed. simpl. rewrite !length_store. now repeat split.
    + apply nth_ext with (d := 0%nat) (d' := 0%nat).
      * now rewrite swap_step_length, !length_contents.
      * intros k Hk. rewrite length_contents in Hk. simpl in Hk.
        rewrite swap_step_nth by (rewrite length_contents; lia).
        rewrite E1, E2, Hlt.
        rewrite nth_contents by (simpl; lia). simpl.
        assert (Rk : 0 <= Z.rem (front q + Z.of_nat k) capacity < capacity)
          by (apply index_range; lia).
        rewrite load_store; [|rewrite length_store; lia|lia].
        rewrite load_store; [|lia|lia].
        destruct (Nat.eqb_spec k j) as [->|Hkj].
        -- fold idx1. destruct (Z.eqb_spec idx1 idx2); [contradiction|].
           now rewrite Z.eqb_refl.
        -- destruct (Nat.eqb_spec k (S j)) as [->|Hks].
           ++ replace (front q + Z.of_nat (S j)) with (front q + Z.of_nat j + 1)
                by lia.
              fold idx2. now rewrite Z.eqb_refl.
           ++ destruct (Z.eqb_spec (Z.rem (front q + Z.of_nat k) capacity) idx2)
                as [E|_].
              { unfold idx2 in E.
                replace (front q + Z.of_nat j + 1)
                  with (front q + (Z.of_nat j + 1)) in E by lia.
                apply index_injective in E; lia. }
              destruct (Z.eqb_spec (Z.rem (front q + Z.of_nat k) capacity) idx1)
                as [E|_].
              { unfold idx1 in E. apply index_injective in E; lia. }
              now rewrite nth_contents by lia.
  - split; [exact H|]. split; [reflexivity|].
    apply nth_ext with (d := 0%nat) (d' := 0%nat).
    + now rewrite swap_step_length.
    + intros k Hk. rewrite swap_step_nth by (rewrite length_contents; lia).
      now rewrite E1, E2, Hlt.
Qed.

Lemma compare_swap_fold (m : nat) (q : Buffer) :
  well_formed q -> (m < Z.to_nat (size q))%nat ->
  well_formed (fold_left (compare_swap ps) (seq 0 m) q)
  /\ size (fold_left (compare_swap ps) (seq 0 m) q) = size q
  /\ contents (fold_left (compare_swap ps) (seq 0 m) q)
     = fold_left (swap_step ps) (seq 0 m) (contents q).
Proof.
  induction m as [|m IH]; intros H Hm;
    [simpl; split; [exact H|split; reflexivity]|].
  rewrite seq_S, !fold_left_app. simpl.
  destruct IH as (A & B & C); [exact H|lia|].
  destruct (compare_swap_refines _ m A) as (A' & B' & C'); [lia|].
  split; [exact A'|]. split; [congruence|]. now rewrite C', C.
Qed.

Lemma sort_pass_refines (q : Buffer) (i : nat) :
  well_formed q ->
  well_formed (sort_pass ps q i)
  /\ size (sort_pass ps q i) = size q
  /\ contents (sort_pass ps q i)
     = DPS.bubble_pass ps (length (contents q) - i - 1) (contents q).
Proof.
  intros H. unfold sort_pass. rewrite length_contents.
  replace (Z.to_nat (size q - Z.of_nat i - 1))
    with (Z.to_nat (size q) - i - 1)%nat by lia.
  destruct (Nat.eq_dec (Z.to_nat (size q) - i - 1) 0) as [E|Hne].
  - rewrite E. simpl. split; [exact H|]. split; [reflexivity|].
    now destruct (contents q) as [|a [|b r]].
  - destruct (compare_swap_fold (Z.to_nat (size q) - i - 1) q H) as (A & B & C);
      [lia|].
    split; [exact A|]. split; [exact B|]. now rewrite C, swap_fold_pass.
Qed.

Lemma sort_fold_refines (l : list nat) (q : Buffer) :
  well_formed q ->
  well_formed (fold_left (sort_pass ps) l q)
  /\ contents (fold_left (sort_pass ps) l q)
     = fold_left (fun c i => DPS.bubble_pass ps (length c - i - 1) c) l
         (contents q).
Proof.
  revert q. induction l as [|i l IH]; intros q H; simpl; [now split|].
  destruct (sort_pass_refines q i H) as (A & B & C).
  destruct (IH _ A) as (A' & C'). split; [exact A'|]. now rewrite C', C.
Qed.

End RingSort.

(** DPS-DTQ.c, [sortQueueByPriority]: on a buffer whose indices are in
    the array, the two loops, which address the cells by
    [(front + i) % MAX_QUEUE_SIZE], leave the indices as they are and
    act on the sequence of the pointers held as the bubble sort does on
    the list; the table and [dtq] they leave are the same. *)
Theorem buffer_sort_is_the_bubble_sort (q : Buffer) (current_time : Z)
    (ps : list DPS.Process) (dtq : DPS.DynamicQuantum) :
  well_formed q ->
  let '(q', ps', dtq') := sortQueueByPriority q current_time ps dtq in
  well_formed q'
  /\ DPS.sortQueueByPriority (contents q) current_time ps dtq
     = (contents q', ps', dtq').
Proof.
  intros H. unfold sortQueueByPriority, DPS.sortQueueByPriority.
  destruct (fold_left (DPS.calc_at current_time) (contents q) (ps, dtq))
    as [ps' dtq'].
  unfold sort, DPS.bubble_sort.
  destruct (sort_fold_refines ps' (seq 0 (Z.to_nat (size q - 1))) q H)
    as (A & C).
  split; [exact A|]. rewrite C, length_contents.
  replace (Z.to_nat (size q - 1)) with (Z.to_nat (size q) - 1)%nat by lia.
  reflexivity.
Qed.

(** Three entries held across the end of the array, jobs 1, 2 and 3 of
    the sample at time 5. *)
Lemma buffer_sort_witness :
  let q := mkBuffer ([2%nat] ++ repeat 0%nat 97 ++ [0%nat; 1%nat]) 98 0 3 in
  let s := DPS.arrivals (DPS.iterate 1 (DPS.initial_state Scenario.sample_input)) in
  contents q = DPS.ready_queue s
  /\ (let '(q', ps', dtq') :=
        sortQueueByPriority q (DPS.current_time s) (DPS.processes s) (DPS.dtq s) in
      well_formed q'
      /\ DPS.sortQueueByPriority (contents q) (DPS.current_time s)
           (DPS.processes s) (DPS.dtq s)
         = (contents q', ps', dtq')).
Proof.
  intros q s. split; [vm_compute; reflexivity|].
  apply (buffer_sort_is_the_bubble_sort q (DPS.current_time s)
           (DPS.processes s) (DPS.dtq s)).
  unfold well_formed. simpl. rewrite capacity_100.
  repeat split; try reflexivity; lia.
Defined.

End QueueFacts.

(** ** CFS.c and DPS-DTQ.c: [readProcessesFromFile] *)

Module ReaderFacts.
Import Reader.

Lemma read_entries_some (n : nat) (file : File)
    (l : list (Z * Z * Z * Z * Z * Z * Z)) :
  read_entries n file = Some l ->
  length l = n /\ (7 * n <= length file)%nat.
Proof.
  revert file l. induction n as [|n IH]; intros file l; simpl.
  - intros [= <-]. split; [reflexivity|lia].
  - destruct file as [|i [|a [|b [|d [|c [|p [|x rest]]]]]]]; try discriminate.
    destruct (read_entries n rest) as [l'|] eqn:E; [|discriminate].
    intros [= <-]. destruct (IH _ _ E). simpl. split; lia.
Qed.

Lemma read_entries_none (n : nat) (file : File) :
  read_entries n file = None -> (length file < 7 * n)%nat.
Proof.
  revert file. induction n as [|n IH]; intros file; simpl; [discriminate|].
  destruct file as [|i [|a [|b [|d [|c [|p [|x rest]]]]]]]; simpl; try lia.
  destruct (read_entries n rest) as [l'|] eqn:E; [discriminate|].
  intros _. specialize (IH _ E). lia.
Qed.

Lemma read_entries_more (n : nat) (file more : File)
    (l : list (Z * Z * Z * Z * Z * Z * Z)) :
  read_entries n file = Some l -> read_entries n (file ++ more) = Some l.
Proof.
  revert file l. induction n as [|n IH]; intros file l; simpl; [trivial|].
  destruct file as [|i [|a [|b [|d [|c [|p [|x rest]]]]]]]; try discriminate.
  simpl. destruct (read_entries n rest) as [l'|] eqn:E; [|discriminate].
  now rewrite (IH _ _ E).
Qed.

Lemma read_input_spec (file : File) :
  match read_input file with
  | Some l =>
      exists n rest,
        file = n :: rest /\ 1 <= n <= MAX_PROCESSES
        /\ Z.of_nat (length l) = n /\ 7 * n <= Z.of_nat (length rest)
        /\ forall more, read_input (file ++ more) = Some l
  | None =>
      file = []
      \/ exists n rest,
           file = n :: rest
           /\ (n <= 0 \/ MAX_PROCESSES < n \/ Z.of_nat (length rest) < 7 * n)
  end.
Proof.
  unfold read_input. destruct file as [|n rest]; [now left|].
  destruct (Z.leb_spec n 0) as [Hle|Hpos]; cbn [orb].
  { right. exists n, rest. auto. }
  destruct (Z.gtb_spec n MAX_PROCESSES) as [Hgt|Hle]; cbn [orb].
  { right. exists n, rest. split; [reflexivity|]. right. left. lia. }
  destruct (read_entries (Z.to_nat n) rest) as [l|] eqn:E.
  - destruct (read_entries_some _ _ _ E) as [Hl Hr].
    exists n, rest. split; [reflexivity|]. split; [lia|]. split; [lia|].
    split; [lia|]. intros more. cbn [app].
    destruct (Z.leb_spec n 0); [lia|]. destruct (Z.gtb_spec n MAX_PROCESSES);
      [lia|]. cbn [orb]. now apply read_entries_more.
  - apply read_entries_none in E. right. exists n, rest.
    split; [reflexivity|]. right. right. lia.
Qed.

(** CFS.c and DPS-DTQ.c, [readProcessesFromFile]: it returns a table
    exactly when the file starts with a number of processes n between 1
    and MAX_PROCESSES followed by at least 7 n integers, and exits
    otherwise; the table has n entries, each with remaining_burst equal
    to burst_time, the times 0, first_execution_time -1 and the flags
    false; what the file holds after the 7 n integers is ignored. *)
Theorem readProcessesFromFile_accepts (file : File) :
  match readProcessesFromFile_CFS (Some file),
        readProcessesFromFile_DPS (Some file) with
  | Some ps, Some ps' =>
      (exists n rest,
         file = n :: rest /\ 1 <= n <= MAX_PROCESSES
         /\ Z.of_nat (length ps) = n /\ Z.of_nat (length ps') = n
         /\ 7 * n <= Z.of_nat (length rest))
      /\ Forall fresh_CFS ps /\ Forall fresh_DPS ps'
      /\ forall more,
           readProcessesFromFile_CFS (Some (file ++ more)) = Some ps
           /\ readProcessesFromFile_DPS (Some (file ++ more)) = Some ps'
  | None, None =>
      file = []
      \/ exists n rest,
           file = n :: rest
           /\ (n <= 0 \/ MAX_PROCESSES < n \/ Z.of_nat (length rest) < 7 * n)
  | _, _ => False
  end.
Proof.
  unfold readProcessesFromFile_CFS, readProcessesFromFile_DPS.
  pose proof (read_input_spec file) as H.
  destruct (read_input file) as [l|]; simpl; [|exact H].
  destruct H as (n & rest & E & Hn & Hl & Hr & Hmore).
  split; [|split; [|split]].
  - exists n, rest. rewrite !length_map. auto.
  - apply Forall_forall. intros p Hp. apply in_map_iff in Hp as (x & <- & _).
    destruct x as [[[[[[i a] b] d] c] pe] ni]. now repeat split.
  - apply Forall_forall. intros p Hp. apply in_map_iff in Hp as (x & <- & _).
    destruct x as [[[[[[i a] b] d] c] pe] ni]. now repeat split.
  - intros more. now rewrite Hmore.
Qed.

End ReaderFacts.

(** ** CFS.c: the loop of [runCFS] ends *)

Module CFSProgressFacts.
Import CFS Fairness CFSProgress DoubleFacts SFFacts Sign.

(** [fmin] of a slice that is at least 1 and an exact integer that is
    at least 1: the integer part is at least 1. *)
Lemma to_int_fmin_positive (x : float) (z : Z) :
  1 <= z < 2 ^ 53 ->
  let ts := if PrimFloat.ltb x 1 then 1%float else x in
  1 <= CDouble.to_int (CDouble.fmin ts (CDouble.of_int z)).
Proof.
  intros Hz ts.
  assert (Hts : PrimFloat.ltb ts 1 = false).
  { unfold ts. destruct (PrimFloat.ltb x 1) eqn:E; [reflexivity|exact E]. }
  clearbody ts. unfold CDouble.fmin.
  destruct (PrimFloat.is_nan ts) eqn:Hn1; [rewrite to_int_of_int; lia|].
  destruct (PrimFloat.is_nan (CDouble.of_int z)) eqn:Hn2.
  { exfalso. unfold PrimFloat.is_nan in Hn2.
    rewrite FloatAxioms.eqb_spec in Hn2.
    unfold SFeqb in Hn2. rewrite SFcompare_refl in Hn2; [discriminate|].
    destruct (of_int_cases z) as [[_ ->]|(m & e & -> & _)];
      [lia|discriminate|discriminate]. }
  destruct (PrimFloat.ltb (CDouble.of_int z) ts) eqn:Hlt;
    [rewrite to_int_of_int; lia|].
  apply is_nan_spec in Hn1.
  rewrite FloatAxioms.ltb_spec in Hts, Hlt.
  pose proof (SFltb_one_pos _ Hn1 Hts) as Hpos.
  pose proof (FloatAxioms.Prim2SF_valid ts) as Hv.
  unfold CDouble.to_int.
  destruct (of_int_cases z) as [[-> E]|(m & e & E & He)]; [lia|lia|].
  rewrite E in *.
  destruct (Prim2SF ts) as [[]|[]| |[] mt et]; simpl in Hpos; try tauto.
  - discriminate.
  - rewrite trunc_SF_finite.
    assert (H1 : SpecFloat.valid_binary prec emax
                   (S754_finite false 4503599627370496 (-52)) = true)
      by reflexivity.
    pose proof (SFltb_trunc_le prec emax eq_refl 4503599627370496 (-52) mt et
                  H1 Hv Hts) as Hle.
    change (Z.shiftl 4503599627370496 (-52)) with 1 in Hle. exact Hle.
Qed.

(** The slice of a dispatch of a process that has time left is 1 at
    least. *)
Lemma execution_time_positive (c : CFSParams) (target : float) (p : Process) :
  1 <= remaining_burst p < 2 ^ 31 -> 1 <= execution_time_of c target p.
Proof.
  intros Hr. unfold execution_time_of, timeslice_of. cbv zeta.
  apply to_int_fmin_positive. split; [lia|].
  apply Z.lt_trans with (2 ^ 31); [lia|reflexivity].
Qed.

(** *** The table *)

Lemma cfs_length_update (f : Process -> Process) (ps : list Process) (i : nat) :
  length (update i f ps) = length ps.
Proof.
  revert i. induction ps as [|p ps IH]; intros i.
  - now rewrite FairnessFacts.update_nil.
  - destruct i as [|i]; [reflexivity|].
    rewrite FairnessFacts.update_cons_S. simpl. now rewrite IH.
Qed.

Lemma sumP_update (g : Process -> Z) (f : Process -> Process)
    (ps : list Process) (i : nat) (p : Process) :
  nth_error ps i = Some p ->
  sumP g (update i f ps) = sumP g ps - g p + g (f p).
Proof.
  revert i. induction ps as [|p0 ps IH]; intros i Hp.
  - now destruct i.
  - destruct i as [|i].
    + injection Hp as ->. rewrite FairnessFacts.update_cons_0. simpl. lia.
    + rewrite FairnessFacts.update_cons_S. simpl. rewrite (IH i Hp). lia.
Qed.

Lemma sumP_le (g h : Process -> Z) (ps : list Process) :
  Forall (fun p => g p <= h p) ps -> sumP g ps <= sumP h ps.
Proof. induction 1; simpl; lia. Qed.

Lemma sumP_nonneg (g : Process -> Z) (ps : list Process) :
  Forall (fun p => 0 <= g p) ps -> 0 <= sumP g ps.
Proof. induction 1; simpl; lia. Qed.

Lemma same_core_refl (ps : list Process) : Forall2 same_core ps ps.
Proof. induction ps; constructor; [now repeat split|assumption]. Qed.

Lemma same_core_update (f : Process -> Process) (ps : list Process) (i : nat) :
  (forall p, same_core p (f p)) -> Forall2 same_core ps (update i f ps).
Proof.
  intros Hf. revert i. induction ps as [|p ps IH]; intros i.
  - rewrite FairnessFacts.update_nil. constructor.
  - destruct i as [|i].
    + rewrite FairnessFacts.update_cons_0. constructor; [apply Hf|].
      apply same_core_refl.
    + rewrite FairnessFacts.update_cons_S. constructor; [|apply IH].
      now repeat split.
Qed.

Lemma core_nth_l (ps ps' : list Process) (j : nat) (p : Process) :
  Forall2 same_core ps ps' -> nth_error ps j = Some p ->
  exists p', nth_error ps' j = Some p' /\ same_core p p'.
Proof.
  intros H. revert j. induction H as [|x y l l' Hxy _ IH]; intros j Hj;
    [now destruct j|].
  destruct j as [|j]; simpl in *.
  - injection Hj as <-. now exists y.
  - now apply IH.
Qed.

Lemma core_nth_r (ps ps' : list Process) (j : nat) (p' : Process) :
  Forall2 same_core ps ps' -> nth_error ps' j = Some p' ->
  exists p, nth_error ps j = Some p /\ same_core p p'.
Proof.
  intros H. revert j. induction H as [|x y l l' Hxy _ IH]; intros j Hj;
    [now destruct j|].
  destruct j as [|j]; simpl in *.
  - injection Hj as <-. now exists x.
  - now apply IH.
Qed.

Lemma core_sum (g : Process -> Z) (ps ps' : list Process) :
  (forall p p', same_core p p' -> g p' = g p) ->
  Forall2 same_core ps ps' -> sumP g ps' = sumP g ps.
Proof.
  intros Hg. induction 1 as [|x y l l' Hxy _ IH]; simpl; [reflexivity|].
  fold (sumP g l'). fold (sumP g l). now rewrite IH, (Hg x y Hxy).
Qed.

Lemma core_length (ps ps' : list Process) :
  Forall2 same_core ps ps' -> length ps' = length ps.
Proof. induction 1; simpl; congruence. Qed.

Lemma core_Forall (P : Process -> Prop) (ps ps' : list Process) :
  (forall p p', same_core p p' -> P p -> P p') ->
  Forall2 same_core ps ps' -> Forall P ps -> Forall P ps'.
Proof.
  intros HP. induction 1 as [|x y l l' Hxy _ IH]; intros Hl; constructor;
    inversion Hl; subst; eauto.
Qed.

(** *** The arrival loops *)

(** What a step of an arrival loop does: the table keeps its entries,
    a reset of vruntime apart, the tree keeps its entries and may get
    the process [i], which has arrived. *)
Lemma arrive_now_step (s : State) (i : nat) :
  Forall2 same_core (processes s) (processes (arrive_now s i))
  /\ current_time (arrive_now s i) = current_time s
  /\ completed_processes (arrive_now s i) = completed_processes s
  /\ (forall k, In k (inorder (root (arrive_now s i))) <->
        In k (inorder (root s))
        \/ (k = i /\ exists p, nth_error (processes s) i = Some p
                               /\ arrival_time p = current_time s
                               /\ completed p = false)).
Proof.
  unfold arrive_now.
  destruct (nth_error (processes s) i) as [p|] eqn:Hp.
  - destruct (Z.eqb_spec (arrival_time p) (current_time s)) as [Ha|Ha]; simpl.
    + destruct (completed p) eqn:Hc; simpl.
      * split; [apply same_core_refl|]. repeat split; auto.
        intros [H|(_ & p' & [= <-] & _ & Hc')]; [exact H|congruence].
      * split.
        { destruct (negb (executed p)); [|apply same_core_refl].
          apply same_core_update. now repeat split. }
        repeat split; trivial.
        -- intros H. apply TreeFacts.insert_In in H as [->|H]; [|now left].
           right. split; [reflexivity|]. now exists p.
        -- intros [H|[-> _]]; apply TreeFacts.insert_In; auto.
    + split; [apply same_core_refl|]. repeat split; auto.
      intros [H|(_ & p' & [= <-] & Ha' & _)]; [exact H|contradiction].
  - split; [apply same_core_refl|]. repeat split; auto.
    intros [H|(_ & p' & [=] & _)]. exact H.
Qed.

Lemma arrive_during_step (e : Z) (s : State) (i : nat) :
  Forall2 same_core (processes s) (processes (arrive_during e s i))
  /\ current_time (arrive_during e s i) = current_time s
  /\ completed_processes (arrive_during e s i) = completed_processes s
  /\ (forall k, In k (inorder (root (arrive_during e s i))) <->
        In k (inorder (root s))
        \/ (k = i /\ exists p, nth_error (processes s) i = Some p
                               /\ executed p = false /\ completed p = false
                               /\ current_time s - e < arrival_time p
                                  <= current_time s)).
Proof.
  unfold arrive_during.
  destruct (nth_error (processes s) i) as [p|] eqn:Hp.
  - destruct (executed p) eqn:He; simpl.
    { split; [apply same_core_refl|]. repeat split; auto.
      intros [H|(_ & p' & [= <-] & He' & _)]; [exact H|congruence]. }
    destruct (completed p) eqn:Hc; simpl.
    { split; [apply same_core_refl|]. repeat split; auto.
      intros [H|(_ & p' & [= <-] & _ & Hc' & _)]; [exact H|congruence]. }
    destruct (Z.gtb_spec (arrival_time p) (current_time s - e)) as [Hg|Hg];
      simpl.
    + destruct (Z.leb_spec (arrival_time p) (current_time s)) as [Hl|Hl];
        simpl.
      * split; [apply same_core_update; now repeat split|].
        repeat split; trivial.
        -- intros H. apply TreeFacts.insert_In in H as [->|H]; [|now left].
           right. split; [reflexivity|]. exists p. repeat split; trivial; lia.
        -- intros [H|[-> _]]; apply TreeFacts.insert_In; auto.
      * split; [apply same_core_refl|]. repeat split; auto.
        intros [H|(_ & p' & [= <-] & _ & _ & Hr)]; [exact H|lia].
    + split; [apply same_core_refl|]. repeat split; auto.
      intros [H|(_ & p' & [= <-] & _ & _ & Hr)]; [exact H|lia].
  - split; [apply same_core_refl|]. repeat split; auto.
    intros [H|(_ & p' & [=] & _)]. exact H.
Qed.

(** A step that keeps the time, the count and the core of the table
    and adds to the tree processes that have arrived only. *)
Lemma step_progress (s s' : State) :
  Forall2 same_core (processes s) (processes s') ->
  current_time s' = current_time s ->
  completed_processes s' = completed_processes s ->
  (forall k, In k (inorder (root s)) -> In k (inorder (root s'))) ->
  (forall k, In k (inorder (root s')) ->
     In k (inorder (root s))
     \/ exists p, nth_error (processes s) k = Some p
                  /\ arrival_time p <= current_time s) ->
  (progress_ok s -> progress_ok s')
  /\ (forall t, entered t s -> entered t s')
  /\ measure s' = measure s
  /\ num s' = num s.
Proof.
  intros Hc Ht Hn Hin Hout. split; [|split; [|split]].
  - intros (H1 & H2 & H3). split; [|split].
    + intros k Hk. destruct (Hout k Hk) as [Hk'|(p & Hp & Ha)].
      * destruct (H1 k Hk') as (p & Hp & Ha).
        destruct (core_nth_l _ _ _ _ Hc Hp) as (p' & Hp' & E & _).
        exists p'. split; [exact Hp'|]. rewrite E, Ht. exact Ha.
      * destruct (core_nth_l _ _ _ _ Hc Hp) as (p' & Hp' & E & _).
        exists p'. split; [exact Hp'|]. rewrite E, Ht. exact Ha.
    + unfold started_ok in *. rewrite Ht. revert H2.
      apply core_Forall; [|exact Hc].
      intros p p' (E1 & _ & E3 & E4). rewrite E1, E3, E4. trivial.
    + assert (Ef : sumP flagged (processes s') = sumP flagged (processes s)).
      { apply core_sum; [|exact Hc]. intros p p' (_ & _ & _ & E4).
        unfold flagged. now rewrite E4. }
      rewrite Hn, Ef. exact H3.
  - intros t He j p' Hj Ha.
    destruct (core_nth_r _ _ _ _ Hc Hj) as (p & Hp & E1 & _ & _ & E4).
    rewrite E1 in Ha. rewrite E4.
    destruct (He j p Hp Ha) as [H|H]; [left; now apply Hin|now right].
  - assert (Er : sumP remaining_burst (processes s')
                 = sumP remaining_burst (processes s)).
    { apply core_sum; [|exact Hc]. now intros p p' (_ & E & _). }
    assert (Eu : sumP (until_arrival (current_time s)) (processes s')
                 = sumP (until_arrival (current_time s)) (processes s)).
    { apply core_sum; [|exact Hc]. intros p p' (E & _).
      unfold until_arrival. now rewrite E. }
    unfold measure, num. now rewrite Ht, Hn, (core_length _ _ Hc), Er, Eu.
  - unfold num. now apply core_length.
Qed.

Lemma arrive_now_progress (s : State) (i : nat) :
  (progress_ok s -> progress_ok (arrive_now s i))
  /\ (forall t, entered t s -> entered t (arrive_now s i))
  /\ measure (arrive_now s i) = measure s
  /\ num (arrive_now s i) = num s.
Proof.
  destruct (arrive_now_step s i) as (Hc & Ht & Hn & Htree).
  apply step_progress; trivial.
  - intros k Hk. apply Htree. now left.
  - intros k Hk. apply Htree in Hk as [Hk|(-> & p & Hp & Ha & _)];
      [now left|].
    right. exists p. split; [exact Hp|lia].
Qed.

Lemma arrive_during_progress (e : Z) (s : State) (i : nat) :
  (progress_ok s -> progress_ok (arrive_during e s i))
  /\ (forall t, entered t s -> entered t (arrive_during e s i))
  /\ measure (arrive_during e s i) = measure s
  /\ num (arrive_during e s i) = num s.
Proof.
  destruct (arrive_during_step e s i) as (Hc & Ht & Hn & Htree).
  apply step_progress; trivial.
  - intros k Hk. apply Htree. now left.
  - intros k Hk. apply Htree in Hk as [Hk|(-> & p & Hp & _ & _ & Ha)];
      [now left|].
    right. exists p. split; [exact Hp|lia].
Qed.

Lemma same_core_trans (a b c : list Process) :
  Forall2 same_core a b -> Forall2 same_core b c -> Forall2 same_core a c.
Proof.
  intros H. revert c. induction H as [|x y l l' Hxy _ IH]; intros c Hc;
    inversion Hc as [|? z ? l'' Hyz Hl]; subst; constructor; [|now apply IH].
  destruct Hxy as (A1 & A2 & A3 & A4), Hyz as (B1 & B2 & B3 & B4).
  repeat split; congruence.
Qed.

Lemma fold_now_progress (l : list nat) (s : State) :
  (progress_ok s -> progress_ok (fold_left arrive_now l s))
  /\ (forall t, entered t s -> entered t (fold_left arrive_now l s))
  /\ measure (fold_left arrive_now l s) = measure s
  /\ num (fold_left arrive_now l s) = num s
  /\ current_time (fold_left arrive_now l s) = current_time s
  /\ completed_processes (fold_left arrive_now l s) = completed_processes s
  /\ Forall2 same_core (processes s) (processes (fold_left arrive_now l s))
  /\ (forall k, In k (inorder (root s)) ->
        In k (inorder (root (fold_left arrive_now l s)))).
Proof.
  revert s. induction l as [|i l IH]; intros s; simpl.
  - split; [trivial|]. split; [trivial|]. split; [reflexivity|].
    split; [reflexivity|]. split; [reflexivity|]. split; [reflexivity|].
    split; [apply same_core_refl|trivial].
  - destruct (IH (arrive_now s i)) as (A & B & C & D & E & F & G & H).
    destruct (arrive_now_progress s i) as (A' & B' & C' & D').
    destruct (arrive_now_step s i) as (G' & E' & F' & H').
    split; [auto|]. split; [auto|]. split; [congruence|].
    split; [congruence|]. split; [congruence|]. split; [congruence|].
    split; [eapply same_core_trans; eauto|].
    intros k Hk. apply H, H'. now left.
Qed.

Lemma fold_during_progress (e : Z) (l : list nat) (s : State) :
  (progress_ok s -> progress_ok (fold_left (arrive_during e) l s))
  /\ (forall t, entered t s -> entered t (fold_left (arrive_during e) l s))
  /\ measure (fold_left (arrive_during e) l s) = measure s
  /\ num (fold_left (arrive_during e) l s) = num s
  /\ current_time (fold_left (arrive_during e) l s) = current_time s
  /\ completed_processes (fold_left (arrive_during e) l s)
     = completed_processes s
  /\ Forall2 same_core (processes s)
       (processes (fold_left (arrive_during e) l s))
  /\ (forall k, In k (inorder (root s)) ->
        In k (inorder (root (fold_left (arrive_during e) l s)))).
Proof.
  revert s. induction l as [|i l IH]; intros s; simpl.
  - split; [trivial|]. split; [trivial|]. split; [reflexivity|].
    split; [reflexivity|]. split; [reflexivity|]. split; [reflexivity|].
    split; [apply same_core_refl|trivial].
  - destruct (IH (arrive_during e s i)) as (A & B & C & D & E & F & G & H).
    destruct (arrive_during_progress e s i) as (A' & B' & C' & D').
    destruct (arrive_during_step e s i) as (G' & E' & F' & H').
    split; [auto|]. split; [auto|]. split; [congruence|].
    split; [congruence|]. split; [congruence|]. split; [congruence|].
    split; [eapply same_core_trans; eauto|].
    intros k Hk. apply H, H'. now left.
Qed.

(** The first loop inserts every process that arrives now and is not
    completed. *)
Lemma fold_now_enters (l : list nat) (s : State) (j : nat) (p' : Process) :
  In j l -> nth_error (processes (fold_left arrive_now l s)) j = Some p' ->
  arrival_time p' = current_time s -> completed p' = false ->
  In j (inorder (root (fold_left arrive_now l s))).
Proof.
  revert s. induction l as [|i l IH]; intros s Hin Hj Ha Hc; [destruct Hin|].
  simpl in *.
  destruct (fold_now_progress l (arrive_now s i))
    as (_ & _ & _ & _ & _ & _ & G & H).
  destruct (arrive_now_step s i) as (G' & E' & _ & H').
  destruct Hin as [->|Hin].
  - apply H, H'. right. split; [reflexivity|].
    destruct (core_nth_r _ _ _ _ G Hj) as (p2 & Hp2 & A1 & _ & _ & A4).
    destruct (core_nth_r _ _ _ _ G' Hp2) as (p & Hp & B1 & _ & _ & B4).
    exists p. split; [exact Hp|]. split; congruence.
  - apply IH; trivial. congruence.
Qed.

(** The last loop inserts every process that arrived during the slice
    and has not been dispatched. *)
Lemma fold_during_enters (e : Z) (l : list nat) (s : State) (j : nat)
    (p' : Process) :
  In j l ->
  nth_error (processes (fold_left (arrive_during e) l s)) j = Some p' ->
  executed p' = false -> completed p' = false ->
  current_time s - e < arrival_time p' <= current_time s ->
  In j (inorder (root (fold_left (arrive_during e) l s))).
Proof.
  revert s. induction l as [|i l IH]; intros s Hin Hj He Hc Ha;
    [destruct Hin|].
  simpl in *.
  destruct (fold_during_progress e l (arrive_during e s i))
    as (_ & _ & _ & _ & _ & _ & G & H).
  destruct (arrive_during_step e s i) as (G' & E' & _ & H').
  destruct Hin as [->|Hin].
  - apply H, H'. right. split; [reflexivity|].
    destruct (core_nth_r _ _ _ _ G Hj) as (p2 & Hp2 & A1 & _ & A3 & A4).
    destruct (core_nth_r _ _ _ _ G' Hp2) as (p & Hp & B1 & _ & B3 & B4).
    exists p. split; [exact Hp|].
    split; [congruence|]. split; [congruence|]. rewrite <- B1, <- A1. exact Ha.
  - apply IH; trivial. rewrite E'. exact Ha.
Qed.

Lemma arrivals_entered (s : State) :
  entered (current_time s - 1) s -> entered (current_time s) (arrivals s).
Proof.
  intros He j p' Hj Ha. unfold arrivals in *.
  destruct (fold_now_progress (seq 0 (num s)) s)
    as (_ & B & _ & D & _ & _ & G & _).
  destruct (Z.eq_dec (arrival_time p') (current_time s)) as [E|Hne].
  - destruct (completed p') eqn:Hc; [now right|]. left.
    apply fold_now_enters with (p' := p'); trivial.
    assert (Hlt : (j < length (processes
                                 (fold_left arrive_now (seq 0 (num s)) s)))%nat)
      by (apply nth_error_Some; congruence).
    apply in_seq. split; [lia|]. simpl. rewrite <- D. exact Hlt.
  - apply (B _ He j p' Hj). lia.
Qed.

(** *** The dispatch *)

Lemma until_later (t t' : Z) (ps : list Process) :
  t <= t' -> sumP (until_arrival t') ps <= sumP (until_arrival t) ps.
Proof.
  intros Ht. apply sumP_le, Forall_forall. intros p _. unfold until_arrival.
  lia.
Qed.

Lemma started_later (t t' : Z) (ps : list Process) :
  t <= t' ->
  Forall (fun p => executed p = true \/ completed p = true ->
                   arrival_time p <= t) ps ->
  Forall (fun p => executed p = true \/ completed p = true ->
                   arrival_time p <= t') ps.
Proof.
  intros Ht. apply Forall_impl. intros p H Hp. specialize (H Hp). lia.
Qed.

Lemma execute_progress (s : State) (cur : nat) (rest : RBNode) :
  invariant s -> progress_ok s -> entered (current_time s) s ->
  extractMinVruntime (root s) = Some (cur, rest) ->
  progress_ok (fst (execute s cur rest))
  /\ entered (current_time s) (fst (execute s cur rest))
  /\ measure (fst (execute s cur rest)) < measure s
  /\ current_time (fst (execute s cur rest))
     = current_time s + snd (execute s cur rest)
  /\ 0 <= snd (execute s cur rest)
  /\ num (fst (execute s cur rest)) = num s
  /\ (forall j p', nth_error (processes (fst (execute s cur rest))) j = Some p' ->
        current_time s < arrival_time p' ->
        executed p' = false /\ completed p' = false).
Proof.
  intros [Hps _] (H1 & H2 & H3) Hent Hex.
  pose proof (TreeFacts.extract_splits (root s)) as Hsplit.
  rewrite Hex in Hsplit.
  destruct (H1 cur) as (p & Hp & Harr); [rewrite Hsplit; now left|].
  unfold execute. rewrite Hp. cbv zeta.
  destruct (FairnessFacts.Forall_nth_error _ _ _ _ Hps Hp) as (_ & _ & _ & Hr).
  set (c := mkParams _ _ _ _).
  set (target := target_latency_of _ _ _).
  pose proof (FairnessFacts.execution_time_bounds c target p Hr) as He.
  pose proof (execution_time_positive c target p) as He1.
  set (e := execution_time_of c target p) in *.
  set (p1 := if negb (executed p) then set_first_execution (current_time s) p
             else p).
  assert (E1 : arrival_time p1 = arrival_time p
               /\ remaining_burst p1 = remaining_burst p
               /\ completed p1 = completed p)
    by (unfold p1; now destruct (negb (executed p))).
  destruct E1 as (E1 & E2 & E3).
  set (p3 := set_vruntime _ _).
  assert (F1 : arrival_time p3 = arrival_time p) by exact E1.
  assert (F2 : remaining_burst p3 = remaining_burst p - e)
    by (unfold p3; simpl; now rewrite E2).
  assert (F3 : completed p3 = completed p) by exact E3.
  assert (Hold : forall j p', j <> cur ->
            nth_error (processes s) j = Some p' ->
            current_time s < arrival_time p' ->
            executed p' = false /\ completed p' = false).
  { intros j p' _ Hj Ha. unfold started_ok in H2.
    pose proof (FairnessFacts.Forall_nth_error _ _ _ _ H2 Hj) as Hs.
    simpl in Hs. destruct (executed p'), (completed p'); auto;
      exfalso; assert (arrival_time p' <= current_time s) by auto; lia. }
  assert (Hfl : 0 <= flagged p <= 1)
    by (unfold flagged; destruct (completed p); lia).
  rewrite F2.
  destruct (Z.leb_spec (remaining_burst p - e) 0) as [Hdone|Hleft]; simpl.
  - (* the process is completed *)
    set (pc := complete_at (current_time s + e) p3).
    assert (G1 : arrival_time pc = arrival_time p) by exact F1.
    assert (G2 : remaining_burst pc = remaining_burst p - e) by exact F2.
    split; [split; [|split]|split; [|split; [|split; [|split; [|split]]]]];
      simpl.
    + intros k Hk. simpl in Hk |- *.
      assert (Hk' : In k (inorder (root s))) by (rewrite Hsplit; now right).
      destruct (H1 k Hk') as (pk & Hpk & Hak).
      rewrite FairnessFacts.nth_error_update.
      destruct (Nat.eqb_spec k cur) as [->|_].
      * rewrite Hp. simpl. exists pc. split; [reflexivity|]. rewrite G1. lia.
      * exists pk. split; [exact Hpk|]. lia.
    + unfold started_ok. simpl. apply FairnessFacts.Forall_update.
      * apply (started_later (current_time s)); [lia|exact H2].
      * intros p0 _ _. rewrite G1. lia.
    + rewrite (sumP_update _ _ _ _ _ Hp).
      assert (flagged pc = 1) by reflexivity. lia.
    + intros j p' Hj Ha. simpl in Hj |- *.
      rewrite FairnessFacts.nth_error_update in Hj.
      destruct (Nat.eqb_spec j cur) as [->|Hne].
      * rewrite Hp in Hj. injection Hj as <-. now right.
      * destruct (Hent j p' Hj Ha) as [Hin|Hc]; [|now right].
        rewrite Hsplit in Hin. destruct Hin as [E|Hin]; [congruence|now left].
    + unfold measure, num. simpl.
      rewrite cfs_length_update, !(sumP_update _ _ _ _ _ Hp).
      pose proof (until_later (current_time s) (current_time s + e)
                    (processes s)).
      assert (U : until_arrival (current_time s + e) pc
                  = until_arrival (current_time s + e) p)
        by (unfold until_arrival; now rewrite G1).
      lia.
    + reflexivity.
    + lia.
    + unfold num. simpl. apply cfs_length_update.
    + intros j p' Hj Ha. simpl in Hj |- *.
      rewrite FairnessFacts.nth_error_update in Hj.
      destruct (Nat.eqb_spec j cur) as [->|Hne].
      * rewrite Hp in Hj. injection Hj as <-. rewrite G1 in Ha. lia.
      * now apply (Hold j p' Hne Hj).
  - (* the process goes back into the tree *)
    split; [split; [|split]|split; [|split; [|split; [|split; [|split]]]]];
      simpl.
    + intros k Hk. simpl in Hk |- *. apply TreeFacts.insert_In in Hk.
      rewrite FairnessFacts.nth_error_update.
      destruct (Nat.eqb_spec k cur) as [->|Hne].
      * rewrite Hp. simpl. exists p3. split; [reflexivity|]. rewrite F1. lia.
      * destruct Hk as [Hk|Hk]; [contradiction|].
        assert (Hk' : In k (inorder (root s))) by (rewrite Hsplit; now right).
        destruct (H1 k Hk') as (pk & Hpk & Hak).
        exists pk. split; [exact Hpk|]. lia.
    + unfold started_ok. simpl. apply FairnessFacts.Forall_update.
      * apply (started_later (current_time s)); [lia|exact H2].
      * intros p0 _ _. rewrite F1. lia.
    + rewrite (sumP_update _ _ _ _ _ Hp).
      assert (flagged p3 = flagged p) by (unfold flagged; now rewrite F3).
      lia.
    + intros j p' Hj Ha. simpl in Hj |- *.
      rewrite FairnessFacts.nth_error_update in Hj.
      destruct (Nat.eqb_spec j cur) as [->|Hne].
      * left. apply TreeFacts.insert_In. now left.
      * destruct (Hent j p' Hj Ha) as [Hin|Hc]; [|now right].
        rewrite Hsplit in Hin. destruct Hin as [E|Hin]; [congruence|].
        left. apply TreeFacts.insert_In. now right.
    + unfold measure, num. simpl.
      rewrite cfs_length_update, !(sumP_update _ _ _ _ _ Hp).
      pose proof (until_later (current_time s) (current_time s + e)
                    (processes s)).
      assert (U : until_arrival (current_time s + e) p3
                  = until_arrival (current_time s + e) p)
        by (unfold until_arrival; now rewrite F1).
      assert (1 <= e) by (apply He1; lia).
      lia.
    + reflexivity.
    + lia.
    + unfold num. simpl. apply cfs_length_update.
    + intros j p' Hj Ha. simpl in Hj |- *.
      rewrite FairnessFacts.nth_error_update in Hj.
      destruct (Nat.eqb_spec j cur) as [->|Hne].
      * rewrite Hp in Hj. injection Hj as <-. rewrite F1 in Ha. lia.
      * now apply (Hold j p' Hne Hj).
Qed.

(** *** The idle step and the iteration *)

Lemma sumP_strict (g h : Process -> Z) (ps : list Process) (i : nat)
    (p : Process) :
  Forall (fun p => g p <= h p) ps -> nth_error ps i = Some p -> g p < h p ->
  sumP g ps < sumP h ps.
Proof.
  intros H. revert i. induction H as [|q ps Hq Hps IH]; intros i Hi Hlt;
    [now destruct i|].
  simpl. fold (sumP g ps). fold (sumP h ps). destruct i as [|i].
  - injection Hi as ->. pose proof (sumP_le g h ps Hps). lia.
  - specialize (IH i Hi Hlt). lia.
Qed.

Lemma some_unflagged (ps : list Process) :
  sumP flagged ps < Z.of_nat (length ps) ->
  exists i p, nth_error ps i = Some p /\ completed p = false.
Proof.
  induction ps as [|p ps IH]; simpl; [lia|]. fold (sumP flagged ps).
  intros H. destruct (completed p) eqn:Hc.
  - destruct IH as (i & q & Hi & Hq).
    + unfold flagged in H at 1. rewrite Hc in H. lia.
    + now exists (S i), q.
  - now exists 0%nat, p.
Qed.

Lemma idle_progress (s : State) :
  progress_ok s -> entered (current_time s) s -> root s = NULL ->
  progress_ok (idle_step s)
  /\ entered (current_time (idle_step s) - 1) (idle_step s)
  /\ num (idle_step s) = num s
  /\ (completed_processes s < Z.of_nat (num s) ->
      measure (idle_step s) < measure s).
Proof.
  intros (H1 & H2 & H3) Hent Hroot. unfold idle_step. cbv zeta.
  split; [split; [|split]|split; [|split]]; simpl.
  - intros k Hk. simpl in Hk. rewrite Hroot in Hk. destruct Hk.
  - unfold started_ok. simpl.
    apply (started_later (current_time s)); [lia|exact H2].
  - exact H3.
  - replace (current_time s + 1 - 1) with (current_time s) by lia.
    exact Hent.
  - reflexivity.
  - intros Hg. unfold measure, num. simpl. unfold num in Hg.
    destruct (some_unflagged (processes s)) as (i & p & Hi & Hc); [lia|].
    assert (Ha : current_time s < arrival_time p).
    { destruct (Z.lt_ge_cases (current_time s) (arrival_time p)) as [|Hle];
        [assumption|].
      destruct (Hent i p Hi) as [Hin|Hc']; [lia| |congruence].
      rewrite Hroot in Hin. destruct Hin. }
    assert (Hs : sumP (until_arrival (current_time s + 1)) (processes s)
                 < sumP (until_arrival (current_time s)) (processes s)).
    { apply (sumP_strict _ _ _ i p); trivial.
      - apply Forall_forall. intros q _. unfold until_arrival. lia.
      - unfold until_arrival. lia. }
    lia.
Qed.

Lemma late_arrivals_progress (e : Z) (s : State) (t : Z) :
  progress_ok s -> entered t s -> current_time s = t + e -> 0 <= e ->
  (forall j p', nth_error (processes s) j = Some p' -> t < arrival_time p' ->
     executed p' = false /\ completed p' = false) ->
  progress_ok (late_arrivals e s)
  /\ entered (current_time s) (late_arrivals e s)
  /\ measure (late_arrivals e s) = measure s
  /\ num (late_arrivals e s) = num s
  /\ current_time (late_arrivals e s) = current_time s
  /\ completed_processes (late_arrivals e s) = completed_processes s.
Proof.
  intros Hp Hent Ht He Hnew. unfold late_arrivals.
  destruct (fold_during_progress e (seq 0 (num s)) s)
    as (A & B & C & D & E & F & G & H).
  split; [auto|]. split; [|auto].
  intros j p' Hj Ha.
  destruct (Z.le_gt_cases (arrival_time p') t) as [Hle|Hgt].
  - now apply (B t Hent j p' Hj).
  - destruct (core_nth_r _ _ _ _ G Hj) as (p & Hpj & A1 & _ & A3 & A4).
    destruct (Hnew j p Hpj) as [X Y]; [lia|].
    left. apply fold_during_enters with (p' := p'); try congruence; [|lia].
    apply in_seq. split; [lia|]. simpl. unfold num.
    apply nth_error_Some. congruence.
Qed.

Lemma cfs_iteration_progress (input : list Input) (s : State) :
  valid_input input -> reachable input s ->
  progress_ok s -> entered (current_time s - 1) s ->
  progress_ok (iteration s)
  /\ entered (current_time (iteration s) - 1) (iteration s)
  /\ num (iteration s) = num s
  /\ (completed_processes s < Z.of_nat (num s) ->
      measure (iteration s) < measure s).
Proof.
  intros Hv Hreach Hp Hent. unfold iteration. cbv zeta.
  destruct (fold_now_progress (seq 0 (num s)) s)
    as (A & _ & C & D & E & F & _ & _).
  fold (arrivals s) in A, C, D, E, F.
  pose proof (arrivals_entered s Hent) as Hent1. rewrite <- E in Hent1.
  pose proof (FairnessFacts.reachable_fold_now input (seq 0 (num s)) s Hreach)
    as Hreach1.
  fold (arrivals s) in Hreach1.
  pose proof (FairnessFacts.reachable_ok input _ Hv Hreach1) as Hinv1.
  specialize (A Hp).
  destruct (extractMinVruntime (root (arrivals s))) as [[cur rest]|] eqn:Hex.
  - destruct (execute_progress _ cur rest Hinv1 A Hent1 Hex)
      as (P1 & P2 & P3 & P4 & P5 & P6 & P7).
    unfold dispatch. destruct (execute (arrivals s) cur rest) as [s' e].
    simpl in P1, P2, P3, P4, P5, P6, P7.
    destruct (late_arrivals_progress e s' (current_time (arrivals s))
                P1 P2 P4 P5 P7) as (Q1 & Q2 & Q3 & Q4 & Q5 & Q6).
    split; [exact Q1|]. split; [|split; [congruence|]].
    + rewrite Q5. intros j p' Hj Ha. apply (Q2 j p' Hj). lia.
    + intros _. lia.
  - pose proof (TreeFacts.extract_splits (root (arrivals s))) as Hroot.
    rewrite Hex in Hroot.
    destruct (idle_progress _ A Hent1 Hroot) as (Q1 & Q2 & Q3 & Q4).
    split; [exact Q1|]. split; [exact Q2|]. split; [congruence|].
    intros Hg. rewrite <- C. apply Q4. now rewrite F, D.
Qed.

Lemma measure_positive (s : State) :
  invariant s -> completed_processes s < Z.of_nat (num s) -> 1 <= measure s.
Proof.
  intros [Hps _] Hg. unfold measure.
  assert (0 <= sumP remaining_burst (processes s)).
  { apply sumP_nonneg. revert Hps. apply Forall_impl.
    intros p (_ & _ & _ & Hr). lia. }
  assert (0 <= sumP (until_arrival (current_time s)) (processes s)).
  { apply sumP_nonneg, Forall_forall. intros p _. unfold until_arrival. lia. }
  lia.
Qed.

Lemma loop_ends (input : list Input) (fuel : nat) (s : State) :
  valid_input input -> reachable input s ->
  progress_ok s -> entered (current_time s - 1) s ->
  measure s <= Z.of_nat fuel ->
  exists s', loop fuel s = Some s' /\ reachable input s'
             /\ num s' = num s
             /\ Z.of_nat (num s') <= completed_processes s'.
Proof.
  intros Hv. revert s. induction fuel as [|fuel IH]; intros s Hr Hp He Hm;
    simpl.
  - destruct (Z.ltb_spec (completed_processes s) (Z.of_nat (num s))) as [Hg|Hg].
    + pose proof (measure_positive s (FairnessFacts.reachable_ok _ _ Hv Hr) Hg).
      lia.
    + exists s. split; [reflexivity|]. split; [exact Hr|].
      split; [reflexivity|exact Hg].
  - destruct (Z.ltb_spec (completed_processes s) (Z.of_nat (num s))) as [Hg|Hg].
    + destruct (cfs_iteration_progress input s Hv Hr Hp He) as (A & B & C & D).
      specialize (D Hg).
      destruct (IH (iteration s)) as (s' & E1 & E2 & E3 & E4); trivial.
      * now apply FairnessFacts.reachable_iteration.
      * lia.
      * exists s'. split; [exact E1|]. split; [exact E2|].
        split; [congruence|exact E4].
    + exists s. split; [reflexivity|]. split; [exact Hr|].
      split; [reflexivity|exact Hg].
Qed.

Lemma initial_progress (input : list Input) :
  arrivals_ok input ->
  progress_ok (initial_state input)
  /\ entered (current_time (initial_state input) - 1) (initial_state input).
Proof.
  intros Ha. split; [split; [|split]|].
  - intros k [].
  - unfold started_ok. simpl. apply Forall_forall. intros p Hp.
    apply in_map_iff in Hp as (x & <- & _).
    destruct x as [[[[[[i a] b] d] c] pe] ni]. simpl.
    intros [H|H]; discriminate.
  - simpl. induction input as [|x input IH]; simpl; [lia|].
    fold (sumP flagged (map init_process input)).
    inversion Ha; subst.
    destruct x as [[[[[[i a] b] d] c] pe] ni]. unfold flagged at 1. simpl.
    specialize (IH ltac:(assumption)). lia.
  - intros j p Hj Hle. simpl in *. exfalso.
    apply nth_error_In, in_map_iff in Hj as (x & <- & Hx).
    unfold arrivals_ok in Ha. rewrite Forall_forall in Ha.
    specialize (Ha x Hx).
    destruct x as [[[[[[i a] b] d] c] pe] ni]. simpl in *. lia.
Qed.

(** CFS.c, the loop of [runCFS]: on an input whose burst times are
    positive and fit an int and whose arrival times are not negative,
    the loop ends, after at most as many iterations as the sum of the
    burst times, the number of processes and the sum of the arrival
    times; completed_processes is then n at least. *)
Theorem runCFS_terminates (input : list Input) :
  valid_input input -> arrivals_ok input ->
  exists s,
    runCFS (Z.to_nat (measure (initial_state input))) input = Some s
    /\ reachable input s
    /\ num s = length input
    /\ Z.of_nat (length input) <= completed_processes s.
Proof.
  intros Hv Ha. destruct (initial_progress input Ha) as [Hp He].
  destruct (loop_ends input (Z.to_nat (measure (initial_state input)))
              (initial_state input) Hv (reach_initial input) Hp He)
    as (s & E1 & E2 & E3 & E4).
  { destruct (Z.le_gt_cases 0 (measure (initial_state input))); lia. }
  assert (Hn : num (initial_state input) = length input)
    by (unfold num; simpl; apply length_map).
  exists s. split; [exact E1|]. split; [exact E2|].
  split; [congruence|]. rewrite <- Hn, <- E3. exact E4.
Qed.

(** The sample input: the loop ends within 31 iterations. *)
Lemma runCFS_terminates_witness :
  exists s,
    runCFS (Z.to_nat (measure (initial_state Scenario.sample_input)))
      Scenario.sample_input = Some s
    /\ reachable Scenario.sample_input s
    /\ num s = length Scenario.sample_input
    /\ Z.of_nat (length Scenario.sample_input) <= completed_processes s.
Proof.
  apply (runCFS_terminates Scenario.sample_input).
  - repeat constructor.
  - repeat constructor; discriminate.
Defined.

End CFSProgressFacts.

(** ** CFS.c and DPS-DTQ.c: arrival times before time 0 *)

Module NegativeArrival.
Import CFSProgress.





End NegativeArrival.

(** ** CFS.c: the times recorded by [runCFS] *)

Module CFSTimesFacts.
Import CFS Fairness CFSProgress CFSTimes.

Lemma times_later (t t' : Z) (p : Process) :
  t <= t' -> times_ok t p -> times_ok t' p.
Proof.
  intros Ht (H1 & H2 & H3). split; [exact H1|split].
  - intros He. destruct (H2 He). split; lia.
  - intros Hc. destruct (H3 Hc) as (A & B & C & D). repeat split; lia.
Qed.

Lemma times_set_vruntime (t : Z) (v : float) (p : Process) :
  times_ok t p -> times_ok t (set_vruntime v p).
Proof. intros H. exact H. Qed.

(** A step that keeps the time and the times of the table and adds to
    the tree processes that have arrived only. *)
Lemma times_arrival_step (s s' : State) :
  Forall2 same_core (processes s) (processes s') ->
  current_time s' = current_time s ->
  (forall k, In k (inorder (root s')) ->
     In k (inorder (root s))
     \/ exists p, nth_error (processes s) k = Some p
                  /\ arrival_time p <= current_time s) ->
  tree_entries_ok s -> tree_entries_ok s'.
Proof.
  intros Hcore Ht Hin H k Hk. rewrite Ht.
  destruct (Hin k Hk) as [Hk'|(p & Hp & Ha)].
  - destruct (H k Hk') as (p & Hp & Ha).
    destruct (CFSProgressFacts.core_nth_l _ _ _ _ Hcore Hp) as (p' & Hp' & E & _).
    exists p'. split; [exact Hp'|]. rewrite E. exact Ha.
  - destruct (CFSProgressFacts.core_nth_l _ _ _ _ Hcore Hp) as (p' & Hp' & E & _).
    exists p'. split; [exact Hp'|]. rewrite E. exact Ha.
Qed.

Lemma times_arrive_now (s : State) (i : nat) :
  times_invariant s -> times_invariant (arrive_now s i).
Proof.
  intros [Htree Hps]. split.
  - destruct (CFSProgressFacts.arrive_now_step s i) as (Hcore & Ht & _ & Hin).
    apply (times_arrival_step s); trivial.
    intros k Hk. apply Hin in Hk as [Hk|(-> & p & Hp & Ha & _)]; [now left|].
    right. exists p. split; [exact Hp|lia].
  - unfold arrive_now.
    destruct (nth_error (processes s) i) as [p|] eqn:Hp; [|exact Hps].
    destruct ((arrival_time p =? current_time s) && negb (completed p));
      [|exact Hps].
    simpl. destruct (negb (executed p)); [|exact Hps].
    apply FairnessFacts.Forall_update; [exact Hps|].
    intros q Hq. apply times_set_vruntime.
    exact (FairnessFacts.Forall_nth_error _ _ _ _ Hps Hq).
Qed.

Lemma times_arrive_during (e : Z) (s : State) (i : nat) :
  times_invariant s -> times_invariant (arrive_during e s i).
Proof.
  intros [Htree Hps]. split.
  - destruct (CFSProgressFacts.arrive_during_step e s i)
      as (Hcore & Ht & _ & Hin).
    apply (times_arrival_step s); trivial.
    intros k Hk.
    apply Hin in Hk as [Hk|(-> & p & Hp & _ & _ & Ha)]; [now left|].
    right. exists p. split; [exact Hp|lia].
  - unfold arrive_during.
    destruct (nth_error (processes s) i) as [p|] eqn:Hp; [|exact Hps].
    destruct (negb (executed p) && negb (completed p)
              && (arrival_time p >? current_time s - e)
              && (arrival_time p <=? current_time s)); [|exact Hps].
    simpl. apply FairnessFacts.Forall_update; [exact Hps|].
    intros q Hq. apply times_set_vruntime.
    exact (FairnessFacts.Forall_nth_error _ _ _ _ Hps Hq).
Qed.

Lemma times_idle (s : State) : times_invariant s -> times_invariant (idle_step s).
Proof.
  intros [Htree Hps]. split.
  - intros k Hk. destruct (Htree k Hk) as (p & Hp & Ha).
    exists p. split; [exact Hp|]. simpl. lia.
  - simpl. revert Hps. apply Forall_impl. intros p. apply times_later. lia.
Qed.

Lemma times_execute (s : State) (cur : nat) (rest : RBNode) :
  invariant s -> times_invariant s ->
  extractMinVruntime (root s) = Some (cur, rest) ->
  times_invariant (fst (execute s cur rest)).
Proof.
  intros [Hok _] [Htree Hps] Hex.
  pose proof (TreeFacts.extract_splits (root s)) as Hsplit.
  rewrite Hex in Hsplit.
  destruct (Htree cur) as (p & Hp & Harr); [rewrite Hsplit; now left|].
  unfold execute. rewrite Hp. cbv zeta.
  destruct (FairnessFacts.Forall_nth_error _ _ _ _ Hok Hp) as (_ & _ & _ & Hr).
  destruct (FairnessFacts.Forall_nth_error _ _ _ _ Hps Hp) as (T1 & T2 & T3).
  set (c := mkParams _ _ _ _).
  set (target := target_latency_of _ _ _).
  pose proof (FairnessFacts.execution_time_bounds c target p Hr) as He.
  set (e := execution_time_of c target p) in *.
  set (p1 := if negb (executed p) then set_first_execution (current_time s) p
             else p).
  assert (E0 : arrival_time p1 = arrival_time p
               /\ burst_time p1 = burst_time p
               /\ remaining_burst p1 = remaining_burst p
               /\ executed p1 = true
               /\ arrival_time p <= first_execution_time p1
               /\ first_execution_time p1 + run_time p <= current_time s).
  { unfold p1. destruct (executed p) eqn:Hx; simpl.
    - destruct (T2 eq_refl). now repeat split.
    - destruct (T1 eq_refl) as [_ Hb]. unfold run_time. rewrite Hb.
      repeat split; trivial; lia. }
  destruct E0 as (E1 & E2 & E3 & E4 & E5 & E6).
  set (p3 := set_vruntime _ _).
  assert (F1 : arrival_time p3 = arrival_time p) by exact E1.
  assert (F2 : remaining_burst p3 = remaining_burst p - e)
    by (unfold p3; simpl; now rewrite E3).
  assert (F3 : burst_time p3 = burst_time p) by exact E2.
  assert (F4 : executed p3 = true) by exact E4.
  assert (F5 : first_execution_time p3 = first_execution_time p1)
    by reflexivity.
  assert (F6 : completed p3 = completed p1) by reflexivity.
  assert (F7 : response_time p3 = response_time p1
               /\ turnaround_time p3 = turnaround_time p1
               /\ waiting_time p3 = waiting_time p1
               /\ completion_time p3 = completion_time p1)
    by now repeat split.
  assert (G : completed p1 = completed p
              /\ response_time p1 = response_time p
              /\ turnaround_time p1 = turnaround_time p
              /\ waiting_time p1 = waiting_time p
              /\ completion_time p1 = completion_time p
              /\ (executed p = true ->
                  first_execution_time p1 = first_execution_time p)).
  { unfold p1. destruct (executed p); simpl; repeat split; congruence. }
  destruct G as (G1 & G2 & G3 & G4 & G5 & G6).
  destruct F7 as (F7 & F8 & F9 & F10).
  assert (Hothers : Forall (times_ok (current_time s + e)) (processes s)).
  { revert Hps. apply Forall_impl. intros q. apply times_later. lia. }
  rewrite F2.
  destruct (Z.leb_spec (remaining_burst p - e) 0) as [Hdone|Hleft]; simpl.
  - split.
    + intros k Hk. simpl in Hk |- *.
      assert (Hk' : In k (inorder (root s))) by (rewrite Hsplit; now right).
      destruct (Htree k Hk') as (pk & Hpk & Hak).
      rewrite FairnessFacts.nth_error_update.
      destruct (Nat.eqb_spec k cur) as [E|_].
      * subst k. rewrite Hp. simpl.
        exists (complete_at (current_time s + e) p3). split; [reflexivity|].
        change (arrival_time p3 <= current_time s + e). rewrite F1. lia.
      * exists pk. split; [exact Hpk|]. lia.
    + apply FairnessFacts.Forall_update; [exact Hothers|].
      intros q _. unfold times_ok, run_time. simpl.
      rewrite E1, E2, E3, E4. unfold run_time in E6.
      split; [discriminate|split].
      * intros _. split; lia.
      * intros _. repeat split; lia.
  - split.
    + intros k Hk. simpl in Hk |- *. apply TreeFacts.insert_In in Hk.
      rewrite FairnessFacts.nth_error_update.
      destruct (Nat.eqb_spec k cur) as [E|Hne].
      * subst k. rewrite Hp. simpl. exists p3. split; [reflexivity|].
        rewrite F1. lia.
      * destruct Hk as [Hk|Hk]; [contradiction|].
        assert (Hk' : In k (inorder (root s))) by (rewrite Hsplit; now right).
        destruct (Htree k Hk') as (pk & Hpk & Hak).
        exists pk. split; [exact Hpk|]. lia.
    + apply FairnessFacts.Forall_update; [exact Hothers|].
      intros q _. unfold times_ok, run_time. cbn [current_time].
      rewrite F1, F2, F3, F4, F5, F6, F7, F8, F9, F10, G1, G2, G3, G4, G5.
      unfold run_time in E6.
      split; [discriminate|split].
      * intros _. split; lia.
      * intros Hc. destruct (T3 Hc) as (A & B & C & D1 & D2).
        assert (Hx : executed p = true).
        { destruct (executed p) eqn:Hx; [reflexivity|].
          destruct (T1 eq_refl); congruence. }
        rewrite (G6 Hx). repeat split; lia.
Qed.

Lemma times_initial (input : list Input) :
  times_invariant (initial_state input).
Proof.
  split.
  - intros k Hk. destruct Hk.
  - simpl. apply Forall_forall. intros p Hp.
    apply in_map_iff in Hp as (x & <- & _).
    destruct x as [[[[[[i a] b] d] c] pe] ni].
    unfold times_ok. simpl. repeat split; discriminate.
Qed.

Lemma reachable_times (input : list Input) (s : State) :
  valid_input input -> reachable input s -> times_invariant s.
Proof.
  intros Hv. induction 1 as [|s i H IH|s H IH Hex|s cur rest H IH Hex|s e i H IH].
  - apply times_initial.
  - now apply times_arrive_now.
  - now apply times_idle.
  - apply times_execute; [|exact IH|exact Hex].
    now apply (FairnessFacts.reachable_ok input).
  - now apply times_arrive_during.
Qed.

(** CFS.c, [runCFS]: after any number of iterations of the loop, on an
    input with positive burst times that fit an [int], a process flagged
    completed was first
    dispatched at or after its arrival and completed at least its burst
    time later, so that the recorded times are consistent and not
    negative: 0 <= response_time <= waiting_time,
    turnaround_time = waiting_time + burst_time,
    completion_time = arrival_time + turnaround_time <= current_time. *)
Theorem cfs_recorded_times_are_consistent (input : list Input) (k : nat) :
  valid_input input ->
  Forall (fun p => completed p = true ->
            arrival_time p <= first_execution_time p
            /\ response_time p = first_execution_time p - arrival_time p
            /\ 0 <= response_time p <= waiting_time p
            /\ turnaround_time p = waiting_time p + burst_time p
            /\ completion_time p = arrival_time p + turnaround_time p
            /\ completion_time p
               <= current_time (iterate k (initial_state input)))
    (processes (iterate k (initial_state input))).
Proof.
  intros Hv.
  destruct (reachable_times input _ Hv (FairnessFacts.reachable_iterate input k))
    as [_ Hps].
  revert Hps. apply Forall_impl. intros p (T1 & T2 & T3) Hc.
  destruct (T3 Hc) as (A & B & C & D1 & D2).
  assert (Hx : executed p = true).
  { destruct (executed p) eqn:Hx; [reflexivity|].
    destruct (T1 eq_refl); congruence. }
  destruct (T2 Hx) as [X1 X2].
  repeat split; lia.
Qed.

Lemma cfs_recorded_times_witness :
  Forall (fun p => completed p = true ->
            arrival_time p <= first_execution_time p
            /\ response_time p = first_execution_time p - arrival_time p
            /\ 0 <= response_time p <= waiting_time p
            /\ turnaround_time p = waiting_time p + burst_time p
            /\ completion_time p = arrival_time p + turnaround_time p
            /\ completion_time p
               <= current_time (iterate 5 (initial_state Scenario.cfs_input)))
    (processes (iterate 5 (initial_state Scenario.cfs_input))).
Proof.
  apply (cfs_recorded_times_are_consistent Scenario.cfs_input 5).
  repeat constructor.
Defined.

End CFSTimesFacts.

(** ** reference-paper-algo.c: the times and the metrics of [main] *)

Module SRPTMetricsFacts.
Import SRPT SRPTInv SRPTMetrics SRPTFacts.

Lemma start_ok_later (t t' : Z) (p : Process) :
  t <= t' -> start_ok t p -> start_ok t' p.
Proof.
  intros Ht (A & B & C). split; [exact A|split; [|exact C]].
  intros H. destruct (B H). split; lia.
Qed.

Lemma start_enter (s : State) (i : nat) :
  start_invariant s -> start_invariant (enter_arrived s i).
Proof.
  intros [Ht Hps]. unfold enter_arrived.
  destruct (nth_error (processes s) i) as [p|]; [|now split].
  destruct ((arrival_time p <=? current_time s)
            && negb (in_ready_queue p) && negb (completed p)); [|now split].
  split; [exact Ht|]. simpl. apply srpt_Forall_update; [exact Hps|].
  intros q Hq. exact (DPSFacts.nth_error_Forall _ _ _ _ _ Hps Hq).
Qed.

Lemma start_arrivals (s : State) :
  start_invariant s -> start_invariant (arrivals s).
Proof.
  unfold arrivals. generalize (seq 0 (num s)). intros l. revert s.
  induction l as [|i l IH]; intros s H; simpl; [exact H|].
  apply IH. now apply start_enter.
Qed.

Lemma start_idle (s : State) :
  start_invariant s ->
  start_invariant (mkState (processes s) (ready_queue s) (current_time s + 1)
                     (completed_processes s)).
Proof.
  intros [Ht Hps]. split; simpl; [lia|].
  revert Hps. apply Forall_impl. intros p. apply start_ok_later. lia.
Qed.

Section Start.
Variable qsort : list Process -> list Process.
Hypothesis qsort_perm : forall l, Permutation (qsort l) l.

Lemma start_schedule (s : State) :
  invariant s -> ready_queue s <> [] ->
  start_invariant s -> start_invariant (schedule qsort s).
Proof.
  intros H Hne [Ht0 Hst]. unfold schedule. cbv zeta.
  pose proof (qsort_perm (ready_queue s)) as Hperm.
  destruct (qsort (ready_queue s)) as [|cp rest] eqn:Eq.
  { apply Permutation_nil in Hperm. contradiction. }
  simpl removeFromReadyQueue. cbv iota.
  pose proof (srpt_quantum_min (map remaining_time (cp :: rest))) as Htq.
  set (tq := time_quantum _) in *.
  assert (Hcp : In cp (ready_queue s))
    by (eapply Permutation_in; [exact Hperm|now left]).
  pose proof H as (Hnd & (Hq1 & Hq2 & Hq3) & Hps & Hcount).
  destruct (Hq2 cp Hcp) as (idx & p & Hp & Epid & Erem & Hflag).
  rewrite <- Epid, (find_pid_spec _ 0 idx p Hnd Hp). simpl (0 + idx)%nat.
  cbv iota.
  destruct (DPSFacts.nth_error_Forall _ _ _ _ _ Hps Hp) as (Hrem & H1 & H2 & H3).
  specialize (H3 Hflag).
  destruct (DPSFacts.nth_error_Forall _ _ _ _ _ Hst Hp) as (S1 & S2 & S3).
  set (t := current_time s) in *.
  set (fix1 := fun p : Process =>
                 if start_time p =? -1 then set_start_time t p else p).
  destruct (start_fields t p) as (F1 & F2 & F3 & F4 & F5 & F6 & F7).
  fold (fix1 p) in F1, F2, F3, F4, F5, F6, F7.
  assert (Hs : start_time (fix1 p) <> -1
               /\ arrival_time p <= start_time (fix1 p)
               /\ start_time (fix1 p) + executed_time p <= t).
  { unfold fix1. destruct (Z.eqb_spec (start_time p) (-1)) as [E|E]; simpl.
    - destruct (S1 E) as [_ Er]. unfold executed_time in *. lia.
    - destruct (S2 E). auto. }
  destruct Hs as (Hs1 & Hs2 & Hs3). unfold executed_time in Hs3, H3.
  rewrite <- Erem.
  destruct (Z.leb_spec (remaining_time p) tq) as [Hle|Hgt].
  - (* the process completes *)
    rewrite srpt_update_update. split; simpl; [lia|].
    apply srpt_Forall_update.
    + revert Hst. apply Forall_impl. intros p0. apply start_ok_later. lia.
    + intros p0 Hp0. rewrite Hp in Hp0. injection Hp0 as <-.
      unfold start_ok, executed_time. simpl. fold (fix1 p).
      rewrite F2, F3. split; [intros E; contradiction|].
      split; [intros _; split; lia|intros _; lia].
  - (* the process is preempted *)
    rewrite srpt_update_update.
    set (G := fun p0 : Process =>
                set_in_ready_queue false
                  (set_remaining_time (remaining_time (fix1 p0) - tq)
                     (fix1 p0))).
    rewrite (srpt_nth_error_update_same G _ _ _ Hp).
    rewrite srpt_update_update.
    split; simpl; [lia|].
    apply srpt_Forall_update.
    + revert Hst. apply Forall_impl. intros p0. apply start_ok_later. lia.
    + intros p0 Hp0. rewrite Hp in Hp0. injection Hp0 as <-.
      unfold start_ok, executed_time, G. simpl. fold (fix1 p).
      rewrite F2, F3, F4, F5, F7. split; [intros E; contradiction|].
      split; [intros _; split; lia|].
      intros Hc. destruct (H1 Hc) as (_ & Hf & _). congruence.
Qed.

Lemma start_iteration (s : State) :
  invariant s -> start_invariant s -> start_invariant (iteration qsort s).
Proof.
  intros H Hs. unfold iteration. cbv zeta.
  pose proof (arrivals_invariant s H) as H1.
  pose proof (start_arrivals s Hs) as Hs1.
  destruct (ready_queue (arrivals s)) as [|c r] eqn:Eq.
  - rewrite <- Eq. now apply start_idle.
  - apply start_schedule; [exact H1|congruence|exact Hs1].
Qed.

Lemma start_loop (fuel : nat) (s s' : State) :
  loop qsort fuel s = Some s' -> invariant s -> start_invariant s ->
  start_invariant s'.
Proof.
  revert s. induction fuel as [|fuel IH]; intros s; simpl;
    destruct (completed_processes s <? Z.of_nat (num s));
    try discriminate; try (intros [= <-] _ Hs; exact Hs).
  intros E H Hs. apply (IH (iteration qsort s) E).
  - now apply (iteration_invariant qsort qsort_perm).
  - now apply start_iteration.
Qed.

(** The state the simulation ends in. *)
Lemma final_state (input : list Input) :
  valid_input input ->
  exists s,
    simulate qsort (Z.to_nat (measure (initial_state input))) input = Some s
    /\ invariant s /\ time_ok s /\ start_invariant s
    /\ map static (processes s) = map static (map init_process input)
    /\ Forall (fun p => completed p = true) (processes s)
    /\ sumZ burst_time (processes s) = Scenario.total_burst input
    /\ sumZ executed_time (processes s) = Scenario.total_burst input.
Proof.
  intros Hv. destruct (initial_invariant input Hv) as [Hi Ht].
  destruct (loop_terminates qsort qsort_perm
              (Z.to_nat (measure (initial_state input))) _ Hi Ht)
    as (s & E & Hs & Hts & Hst & Hn).
  { pose proof (measure_nonneg _ Hi). lia. }
  assert (Hstart : start_invariant s).
  { apply (start_loop _ _ _ E Hi). split; simpl; [lia|].
    apply Forall_forall. intros p Hp. apply in_map_iff in Hp as (x & <- & _).
    destruct x as [[[[[[i a] b] d] c] pe] ni].
    unfold start_ok. simpl. repeat split; try reflexivity; congruence. }
  exists s. split; [exact E|]. split; [exact Hs|]. split; [exact Hts|].
  split; [exact Hstart|]. split; [exact Hst|].
  pose proof Hs as (Hnd & _ & Hps & Hcount).
  assert (Hall : Forall (fun p => completed p = true) (processes s)).
  { apply all_completed. unfold num in Hn. lia. }
  split; [exact Hall|].
  assert (Hb : sumZ burst_time (processes s) = Scenario.total_burst input).
  { rewrite sumZ_map, burst_of_static, Hst. unfold Scenario.total_burst.
    f_equal. simpl. rewrite !map_map. apply map_ext.
    now intros [[[[[[i a] b] d] c] pe] ni]. }
  split; [exact Hb|]. rewrite <- Hb.
  assert (Hz : Forall (fun p => remaining_time p = 0) (processes s)).
  { rewrite Forall_forall in *. intros p Hp.
    destruct (Hps p Hp) as (_ & H1 & _).
    now destruct (H1 (Hall p Hp)). }
  clear - Hz. induction Hz as [|p l Hr _ IH]; [reflexivity|].
  cbn [sumZ fold_right]. fold (sumZ executed_time l).
  fold (sumZ burst_time l). unfold executed_time at 1. lia.
Qed.

End Start.

(** reference-paper-algo.c, [main]: on an input whose pids are all
    different and whose burst times are not negative, and whatever order [qsort] leaves equal entries
    in, the simulation ends with every process started at or after its
    arrival and completed at least its burst time after its start: the
    response time [main] computes is not negative and at most the
    waiting time, and the turnaround time is at least the burst time. *)
Theorem srpt_times_are_consistent
    (qsort : list Process -> list Process) (input : list Input) :
  (forall l, Permutation (qsort l) l) -> valid_input input ->
  exists s,
    simulate qsort (Z.to_nat (measure (initial_state input))) input = Some s
    /\ Forall (fun p => arrival_time p <= start_time p
                        /\ start_time p + burst_time p <= completion_time p
                           <= current_time s
                        /\ 0 <= response_time p <= waiting_time p
                        /\ burst_time p <= turnaround_time p)
         (processes s).
Proof.
  intros Hperm Hv.
  destruct (final_state qsort Hperm input Hv)
    as (s & E & Hs & _ & [_ Hst] & _ & Hall & _).
  exists s. split; [exact E|].
  destruct Hs as (_ & _ & Hps & _).
  rewrite Forall_forall in *. intros p Hp.
  destruct (Hps p Hp) as (_ & H1 & _).
  destruct (H1 (Hall p Hp)) as (_ & _ & C1 & C2).
  destruct (Hst p Hp) as (S1 & S2 & S3).
  specialize (S3 (Hall p Hp)).
  assert (Hne : start_time p <> -1).
  { intros E1. destruct (S1 E1) as [Hc _]. rewrite (Hall p Hp) in Hc.
    discriminate. }
  destruct (S2 Hne) as [A _].
  unfold response_time, waiting_time, turnaround_time. repeat split; lia.
Qed.

Lemma srpt_times_witness :
  exists s,
    simulate stable_sort
      (Z.to_nat (measure (initial_state Scenario.sample_input)))
      Scenario.sample_input = Some s
    /\ Forall (fun p => arrival_time p <= start_time p
                        /\ start_time p + burst_time p <= completion_time p
                           <= current_time s
                        /\ 0 <= response_time p <= waiting_time p
                        /\ burst_time p <= turnaround_time p)
         (processes s).
Proof.
  apply (srpt_times_are_consistent stable_sort Scenario.sample_input).
  - apply Quantum.stable_sort_perm.
  - split.
    + repeat constructor; simpl; intuition discriminate.
    + repeat constructor; discriminate.
Defined.

(** *** The load balancing efficiency *)

(** A small positive integer is a binary32 number. *)
Lemma of_int_finite (z : Z) :
  0 < z < 2 ^ 24 -> exists m e, CFloat.of_int z = S754_finite false m e.
Proof.
  intros Hz. destruct z as [|p|p]; try lia.
  pose proof (SFFacts.digits2_pos_bounds p) as [Hlo Hhi].
  assert (Hd : Zpos (digits2_pos p) <= 24).
  { assert (Zpos (digits2_pos p) - 1 < 24); [|lia].
    apply (Z.pow_lt_mono_r_iff 2); lia. }
  assert (Hshr : forall (mz : positive) (ez : Z),
             Zpos (digits2_pos mz) = 24 -> -23 <= ez <= 0 ->
             shr_fexp 24 128 (Zpos mz) ez loc_Exact
             = (Build_shr_record (Zpos mz) false false, ez)).
  { intros mz ez Hmz Hez. unfold shr_fexp. cbn [Zdigits2]. rewrite Hmz.
    unfold fexp, SpecFloat.emin.
    replace (Z.max (24 + ez - 24) (3 - 128 - 24) - ez) with 0 by lia.
    reflexivity. }
  assert (Haux : forall (mz : positive) (ez : Z),
             Zpos (digits2_pos mz) = 24 -> -23 <= ez <= 0 ->
             binary_round_aux 24 128 false (Zpos mz) ez loc_Exact
             = S754_finite false mz ez).
  { intros mz ez Hmz Hez. unfold binary_round_aux.
    rewrite Hshr by assumption.
    cbn [shr_m loc_of_shr_record round_nearest_even].
    rewrite Hshr by assumption. cbn [shr_m].
    destruct (Z.leb_spec ez (128 - 24)); [reflexivity|lia]. }
  unfold CFloat.of_int, CFloat.prec32, CFloat.emax32.
  unfold binary_normalize, binary_round, shl_align.
  unfold fexp, SpecFloat.emin.
  destruct (Z.max (Zpos (digits2_pos p) + 0 - 24) (3 - 128 - 24) - 0)
    as [|k|k] eqn:Ek; try lia.
  - exists p, 0. apply Haux; lia.
  - destruct (DoubleFacts.pos_iter_xO p k) as [Hv Hdig].
    exists (Pos.iter xO p k),
      (Z.max (Zpos (digits2_pos p) + 0 - 24) (3 - 128 - 24)).
    apply Haux; lia.
Qed.

(** A finite number divided by itself is 1. *)
Lemma div_same (s : bool) (m : positive) (e : Z) :
  CFloat.div (S754_finite s m e) (S754_finite s m e) = CFloat.of_int 1.
Proof.
  unfold CFloat.div, CFloat.prec32, CFloat.emax32, SFdiv, SFdiv_core_binary.
  cbv zeta.
  replace (Zdigits2 (Zpos m) + e - (Zdigits2 (Zpos m) + e)) with 0 by lia.
  replace (e - e) with 0 by lia.
  change (Z.min (fexp 24 128 0) 0) with (-24).
  change (0 - -24) with 24. cbv iota.
  assert (E : Z.div_eucl (Z.shiftl (Zpos m) 24) (Zpos m) = (2 ^ 24, 0)).
  { rewrite Z.shiftl_mul_pow2 by lia.
    destruct (Z.div_eucl (Zpos m * 2 ^ 24) (Zpos m)) as [q r] eqn:Eqr.
    assert (Hq : q = Zpos m * 2 ^ 24 / Zpos m)
      by (unfold Z.div; now rewrite Eqr).
    assert (Hr : r = (Zpos m * 2 ^ 24) mod Zpos m)
      by (unfold Z.modulo; now rewrite Eqr).
    rewrite Z.mul_comm, Z.div_mul in Hq by lia.
    rewrite Z.mul_comm, Z.mod_mul in Hr by lia.
    now subst. }
  rewrite E.
  assert (L : new_location (Zpos m) 0 = loc_Exact)
    by (unfold new_location; now destruct (Z.even (Zpos m))).
  rewrite L. now destruct s.
Qed.

Lemma busy_time_sum (ps : list Process) (a : Z) :
  fold_left (fun sum p => sum + burst_time p) ps a = a + sumZ burst_time ps.
Proof.
  revert a. induction ps as [|p ps IH]; intros a; simpl; [lia|].
  rewrite IH. fold (sumZ burst_time ps). lia.
Qed.

Lemma latest_arrival_zero (input : list Input) :
  Forall (fun x => arrival_of x <= 0) input ->
  latest_arrival (map init_process input) = 0.
Proof.
  induction 1 as [|x input Hx _ IH]; simpl; [reflexivity|].
  fold (latest_arrival (map init_process input)). rewrite IH.
  destruct x as [[[[[[i a] b] d] c] pe] ni]. simpl in *. lia.
Qed.

(** reference-paper-algo.c: when every process has arrived by time 0 (and the pids are all
    different, the burst times not negative, their sum positive and
    below 2^24), the processor is never idle: the simulation ends at the
    sum of the burst times, and [calculateLoadBalancingEfficiency]
    returns exactly 1 for the table and the time it ends with. *)
Theorem no_idle_time_gives_full_efficiency
    (qsort : list Process -> list Process) (input : list Input) :
  (forall l, Permutation (qsort l) l) -> valid_input input ->
  Forall (fun x => arrival_of x <= 0) input ->
  0 < Scenario.total_burst input < 2 ^ 24 ->
  exists s,
    simulate qsort (Z.to_nat (measure (initial_state input))) input = Some s
    /\ current_time s = Scenario.total_burst input
    /\ calculateLoadBalancingEfficiency (processes s) (current_time s)
       = CFloat.of_int 1.
Proof.
  intros Hperm Hv Ha Hb.
  destruct (final_state qsort Hperm input Hv)
    as (s & E & _ & Ht & _ & Hst & _ & Hbt & Hex).
  exists s. split; [exact E|].
  assert (Hnow : current_time s = Scenario.total_burst input).
  { unfold time_ok in Ht. rewrite Hex in Ht.
    rewrite (arrival_of_static _ _ Hst), (latest_arrival_zero input Ha) in Ht.
    lia. }
  split; [exact Hnow|].
  unfold calculateLoadBalancingEfficiency. cbv zeta.
  rewrite busy_time_sum, Hbt, Hnow. simpl (0 + _).
  destruct (of_int_finite _ Hb) as (m & e & ->). apply div_same.
Qed.

Lemma full_efficiency_witness :
  exists s,
    simulate stable_sort
      (Z.to_nat (measure (initial_state
                            [(1, 0, 8, 20, 7, 0, 5); (2, 0, 4, 15, 9, 0, 8)])))
      [(1, 0, 8, 20, 7, 0, 5); (2, 0, 4, 15, 9, 0, 8)] = Some s
    /\ current_time s
       = Scenario.total_burst [(1, 0, 8, 20, 7, 0, 5); (2, 0, 4, 15, 9, 0, 8)]
    /\ calculateLoadBalancingEfficiency (processes s) (current_time s)
       = CFloat.of_int 1.
Proof.
  apply (no_idle_time_gives_full_efficiency stable_sort
           [(1, 0, 8, 20, 7, 0, 5); (2, 0, 4, 15, 9, 0, 8)]).
  - apply Quantum.stable_sort_perm.
  - split.
    + repeat constructor; simpl; intuition discriminate.
    + repeat constructor; discriminate.
  - repeat constructor; discriminate.
  - vm_compute. split; reflexivity.
Defined.

(** *** The starvation count *)

Lemma starvation_count_zero (ps : list Process) :
  Forall (fun p => completion_time p <= deadline p + arrival_time p) ps ->
  calculateStarvationCount ps = 0.
Proof.
  unfold calculateStarvationCount. intros H.
  assert (G : forall z,
             fold_left (fun count p =>
                          if completion_time p >? deadline p + arrival_time p
                          then count + 1 else count) ps z = z).
  { induction H as [|p ps Hp _ IH]; intros z; simpl; [reflexivity|].
    destruct (Z.gtb_spec (completion_time p) (deadline p + arrival_time p));
      [lia|apply IH]. }
  apply G.
Qed.

Section Window.
Variable qsort : list Process -> list Process.

Lemma window_arrivals (s : State) :
  map window (processes (arrivals s)) = map window (processes s).
Proof.
  unfold arrivals. generalize (seq 0 (num s)). intros l. revert s.
  induction l as [|i l IH]; intros s; simpl; [reflexivity|].
  rewrite IH. now apply enter_static.
Qed.

Lemma window_schedule (s : State) :
  map window (processes (schedule qsort s)) = map window (processes s).
Proof.
  unfold schedule. cbv zeta.
  destruct (removeFromReadyQueue (qsort (ready_queue s))) as [[cp q]|];
    [|reflexivity].
  destruct (find_pid (pid cp) (processes s) 0) as [idx|]; [|reflexivity].
  set (ps1 := update idx _ (processes s)).
  assert (E1 : map window ps1 = map window (processes s)).
  { apply srpt_map_update. intros p. now destruct (start_time p =? -1). }
  destruct (remaining_time cp <=? _); simpl.
  - now rewrite srpt_map_update.
  - set (ps2 := update idx _ ps1).
    assert (E2 : map window ps2 = map window ps1)
      by now apply srpt_map_update.
    destruct (nth_error ps2 idx); simpl; [|congruence].
    rewrite srpt_map_update by reflexivity. congruence.
Qed.

Lemma window_loop (fuel : nat) (s s' : State) :
  loop qsort fuel s = Some s' ->
  map window (processes s') = map window (processes s).
Proof.
  revert s. induction fuel as [|fuel IH]; intros s; simpl;
    destruct (completed_processes s <? Z.of_nat (num s));
    try discriminate; try (intros [= <-]; reflexivity).
  intros E. rewrite (IH _ E). unfold iteration. cbv zeta.
  destruct (ready_queue (arrivals s)); simpl.
  - apply window_arrivals.
  - rewrite window_schedule. apply window_arrivals.
Qed.

End Window.

(** reference-paper-algo.c: when the deadline of every process, counted from its arrival,
    ends no earlier than the sum of all burst times after the latest
    arrival, no process is counted by [calculateStarvationCount] at the
    end of the simulation. *)
Theorem late_deadlines_are_all_met
    (qsort : list Process -> list Process) (input : list Input) :
  (forall l, Permutation (qsort l) l) -> valid_input input ->
  Forall (fun x => latest_arrival (map init_process input)
                   + Scenario.total_burst input
                   <= deadline_of x + arrival_of x) input ->
  exists s,
    simulate qsort (Z.to_nat (measure (initial_state input))) input = Some s
    /\ calculateStarvationCount (processes s) = 0.
Proof.
  intros Hperm Hv Hd.
  destruct (final_state qsort Hperm input Hv)
    as (s & E & Hs & Ht & _ & Hst & Hall & _ & Hex).
  exists s. split; [exact E|]. apply starvation_count_zero.
  pose proof (window_loop qsort _ _ _ E) as Hw. simpl in Hw.
  assert (Hnow : current_time s
                 <= latest_arrival (map init_process input)
                    + Scenario.total_burst input).
  { unfold time_ok in Ht. rewrite Hex in Ht.
    rewrite (arrival_of_static _ _ Hst) in Ht. lia. }
  assert (Hwin : Forall (fun w : Z * Z =>
                           latest_arrival (map init_process input)
                           + Scenario.total_burst input <= snd w + fst w)
                   (map window (processes s))).
  { rewrite Hw, map_map. apply Forall_map. revert Hd. apply Forall_impl.
    now intros [[[[[[i a] b] d] c] pe] ni]. }
  rewrite Forall_map in Hwin.
  destruct Hs as (_ & _ & Hps & _).
  rewrite Forall_forall in *. intros p Hp.
  destruct (Hps p Hp) as (_ & H1 & _).
  destruct (H1 (Hall p Hp)) as (_ & _ & _ & C2).
  specialize (Hwin p Hp). simpl in Hwin. lia.
Qed.

Lemma late_deadlines_witness :
  exists s,
    simulate stable_sort
      (Z.to_nat (measure (initial_state
                            [(1, 0, 8, 20, 7, 0, 5); (2, 2, 4, 15, 9, 0, 8)])))
      [(1, 0, 8, 20, 7, 0, 5); (2, 2, 4, 15, 9, 0, 8)] = Some s
    /\ calculateStarvationCount (processes s) = 0.
Proof.
  apply (late_deadlines_are_all_met stable_sort
           [(1, 0, 8, 20, 7, 0, 5); (2, 2, 4, 15, 9, 0, 8)]).
  - apply Quantum.stable_sort_perm.
  - split.
    + repeat constructor; simpl; intuition discriminate.
    + repeat constructor; discriminate.
  - repeat constructor; discriminate.
Defined.

End SRPTMetricsFacts.

(** ** DPS-DTQ.c: the times recorded by [runDPS_DTQ] *)

Module DPSTimesFacts.
Import DPS DPSFrame DPSInv DPSTimes.

Lemma dps_times_later (t t' : Z) (p : Process) :
  t <= t' -> times_ok t p -> times_ok t' p.
Proof.
  intros Ht (H1 & H2 & H3). split; [exact H1|split].
  - intros He. destruct (H2 He). split; lia.
  - intros Hc. destruct (H3 Hc) as (A & B & C & D). repeat split; lia.
Qed.

Lemma arrived_later (ps : list Process) (t t' : Z) (i : nat) :
  t <= t' -> arrived ps t i -> arrived ps t' i.
Proof. intros Ht (p & Hp & Ha). exists p. split; [exact Hp|lia]. Qed.

Lemma enqueue_arrived (ps : list Process) (t : Z) (q : ReadyQueue) (i : nat) :
  Forall (arrived ps t) q -> arrived ps t i -> Forall (arrived ps t) (enqueue q i).
Proof.
  intros Hq Hi. unfold enqueue. destruct (isQueueFull q); [exact Hq|].
  apply Forall_app. split; [exact Hq|now constructor].
Qed.

Lemma times_arrive_now_dps (s : State) (i : nat) :
  times_invariant s -> times_invariant (arrive_now s i).
Proof.
  intros (Hq & Hok & Hps). unfold arrive_now.
  destruct (nth_error (processes s) i) as [p|] eqn:Hp; [|now repeat split].
  destruct (Z.eqb_spec (arrival_time p) (current_time s)) as [E|E];
    [|now repeat split].
  split; [|now split]. simpl. apply enqueue_arrived; [exact Hq|].
  exists p. split; [exact Hp|lia].
Qed.

Lemma times_arrive_during_dps (e : Z) (s : State) (i : nat) :
  times_invariant s -> times_invariant (arrive_during e s i).
Proof.
  intros (Hq & Hok & Hps). unfold arrive_during.
  destruct (nth_error (processes s) i) as [p|] eqn:Hp; [|now repeat split].
  destruct (negb (executed p)); simpl; [|now repeat split].
  destruct (arrival_time p >? current_time s - e); simpl; [|now repeat split].
  destruct (Z.leb_spec (arrival_time p) (current_time s)) as [E|E];
    [|now repeat split].
  split; [|now split]. simpl. apply enqueue_arrived; [exact Hq|].
  exists p. split; [exact Hp|lia].
Qed.

Lemma times_fold (f : State -> nat -> State) (l : list nat) (s : State) :
  (forall s i, times_invariant s -> times_invariant (f s i)) ->
  times_invariant s -> times_invariant (fold_left f l s).
Proof.
  intros Hf. revert s. induction l as [|i l IH]; intros s Hs; simpl; auto.
Qed.

Lemma times_idle_dps (s : State) :
  times_invariant s -> times_invariant (idle_step s).
Proof.
  intros (Hq & Hok & Hps). unfold idle_step. cbv zeta.
  split; [|split]; simpl.
  - revert Hq. apply Forall_impl. intros i. apply arrived_later. lia.
  - exact Hok.
  - revert Hps. apply Forall_impl. intros p. apply dps_times_later. lia.
Qed.

(** The table after the first loop of [sortQueueByPriority]: the
    priorities apart, it is the table before. *)
Lemma calc_fold_times (t : Z) (q : ReadyQueue) (ps : list Process)
    (d : DynamicQuantum) :
  let ps' := fst (fold_left (calc_at t) q (ps, d)) in
  (Forall (times_ok t) ps -> Forall (times_ok t) ps')
  /\ (Forall process_ok ps -> Forall process_ok ps')
  /\ (forall i, arrived ps t i -> arrived ps' t i).
Proof.
  cbv zeta. pose proof (SortFacts.calc_fold_frame t q ps d) as H.
  destruct (fold_left (calc_at t) q (ps, d)) as [ps' d']. simpl.
  destruct H as (_ & _ & H).
  assert (Hall : forall P : Process -> Prop,
             (forall p v, P p -> P (set_system_priority v p)) ->
             Forall P ps -> Forall P ps').
  { intros P HP Hps. apply Forall_forall. intros p' Hin.
    apply In_nth_error in Hin as [i Hi]. specialize (H i). rewrite Hi in H.
    destruct (nth_error ps i) as [p|] eqn:Hp; [|destruct H].
    destruct H as [<- _]. apply HP.
    apply (DPSFacts.nth_error_Forall _ _ _ _ _ Hps Hp). }
  split; [|split].
  - apply Hall. intros p v Hp. exact Hp.
  - apply Hall. intros p v Hp. exact Hp.
  - intros i (p & Hp & Ha). specialize (H i). rewrite Hp in H.
    unfold arrived. destruct (nth_error ps' i) as [p'|]; [|destruct H].
    exists p'. split; [reflexivity|]. destruct H as [<- _]. exact Ha.
Qed.

Lemma times_dispatch (s : State) :
  times_invariant s -> times_invariant (dispatch s).
Proof.
  intros H. unfold dispatch. cbv zeta.
  set (d0 := set_load_factor _ _).
  unfold sortQueueByPriority.
  destruct H as (Hq & Hok & Hps).
  destruct (calc_fold_times (current_time s) (ready_queue s) (processes s) d0)
    as (Hps' & Hok' & Harr').
  specialize (Hps' Hps). specialize (Hok' Hok).
  destruct (fold_left (calc_at (current_time s)) (ready_queue s)
              (processes s, d0)) as [ps' d'].
  simpl in Hps', Hok', Harr'.
  assert (Hq' : Forall (arrived ps' (current_time s))
                  (bubble_sort ps' (ready_queue s))).
  { apply (Permutation_Forall (Permutation_sym (Ties.bubble_sort_perm ps' _))).
    revert Hq. apply Forall_impl. exact Harr'. }
  destruct (bubble_sort ps' (ready_queue s)) as [|cur q];
    [now repeat split|].
  simpl dequeue. cbv iota.
  apply Forall_cons_iff in Hq' as [(p & Hp & Harr) Hq'].
  rewrite Hp.
  destruct (DPSFacts.nth_error_Forall _ _ _ _ _ Hok' Hp) as (Hr & Hid).
  destruct (DPSFacts.nth_error_Forall _ _ _ _ _ Hps' Hp) as (T1 & T2 & T3).
  set (p1 := if negb (executed p) then set_first_execution (current_time s) p
             else p).
  assert (E0 : arrival_time p1 = arrival_time p
               /\ burst_time p1 = burst_time p
               /\ remaining_burst p1 = remaining_burst p
               /\ executed p1 = true
               /\ id p1 = id p
               /\ arrival_time p <= first_execution_time p1
               /\ first_execution_time p1 + run_time p <= current_time s).
  { unfold p1. destruct (executed p) eqn:Hx; simpl.
    - destruct (T2 eq_refl). now repeat split.
    - destruct (T1 eq_refl) as [_ Hb]. unfold run_time. rewrite Hb.
      repeat split; trivial; lia. }
  destruct E0 as (E1 & E2 & E3 & E4 & Eid & E5 & E6).
  assert (G : completed p1 = completed p
              /\ response_time p1 = response_time p
              /\ turnaround_time p1 = turnaround_time p
              /\ waiting_time p1 = waiting_time p
              /\ completion_time p1 = completion_time p
              /\ (executed p = true ->
                  first_execution_time p1 = first_execution_time p)).
  { unfold p1. destruct (executed p); simpl; repeat split; congruence. }
  destruct G as (G1 & G2 & G3 & G4 & G5 & G6).
  unfold calculateDynamicPriority. cbv zeta.
  set (d2 := set_current _ d').
  set (p2 := set_system_priority _ p1).
  pose proof (DPSFacts.time_quantum_min d2) as Htq.
  set (tq := time_quantum_of d2) in *.
  change (remaining_burst p2) with (remaining_burst p1).
  change (id p2) with (id p1).
  set (e := if remaining_burst p1 <? tq then remaining_burst p1 else tq).
  assert (He : 0 <= e <= remaining_burst p).
  { unfold e. rewrite E3. destruct (Z.ltb_spec (remaining_burst p) tq); lia. }
  set (p3 := set_remaining_burst (remaining_burst p1 - e) p2).
  set (t := current_time s) in *.
  assert (Hothers : Forall (times_ok (t + e)) ps').
  { revert Hps'. apply Forall_impl. intros p0. apply dps_times_later. lia. }
  assert (Hrest : forall f : Process -> Process,
             (forall p0, arrival_time (f p0) = arrival_time p1) ->
             Forall (arrived (update cur f ps') (t + e)) q
             /\ arrived (update cur f ps') (t + e) cur).
  { intros f Hf.
    assert (Hc : arrived (update cur f ps') (t + e) cur).
    { exists (f p). split.
      - rewrite SortFacts.dps_nth_error_update, Nat.eqb_refl, Hp. reflexivity.
      - rewrite Hf, E1. lia. }
    split; [|exact Hc].
    revert Hq'. apply Forall_impl. intros i (pi & Hpi & Hai).
    destruct (Nat.eq_dec i cur) as [->|Hne]; [exact Hc|].
    exists pi. split; [|lia].
    rewrite SortFacts.dps_nth_error_update.
    apply Nat.eqb_neq in Hne. now rewrite Hne. }
  unfold run_time in E6.
  change (remaining_burst p3) with (remaining_burst p1 - e).
  destruct (Z.eqb_spec (remaining_burst p1 - e) 0) as [Hdone|Hleft];
    apply times_fold; try apply times_arrive_during_dps.
  - destruct (Hrest (fun _ => complete_at (t + e) p3)) as [R1 _];
      [reflexivity|].
    split; [exact R1|]. simpl. split.
    + apply SortFacts.dps_Forall_update; [exact Hok'|]. intros p0 _.
      unfold process_ok. simpl. fold p1. rewrite E2, Eid. split; [lia|exact Hid].
    + apply SortFacts.dps_Forall_update; [exact Hothers|]. intros p0 _.
      unfold times_ok, run_time. simpl. fold p1. rewrite E1, E2, E4.
      split; [discriminate|split].
      * intros _. split; lia.
      * intros _. repeat split; lia.
  - destruct (Hrest (fun _ => p3)) as [R1 R2]; [reflexivity|].
    split; [|split]; simpl.
    + now apply enqueue_arrived.
    + apply SortFacts.dps_Forall_update; [exact Hok'|]. intros p0 _.
      unfold process_ok. simpl. fold p1. rewrite E2, Eid. split; [lia|exact Hid].
    + apply SortFacts.dps_Forall_update; [exact Hothers|]. intros p0 _.
      unfold times_ok, run_time. simpl. fold p1.
      rewrite E1, E2, E4, G1, G2, G3, G4, G5.
      split; [discriminate|split].
      * intros _. split; lia.
      * intros Hc. destruct (T3 Hc) as (A & B & C & D1 & D2).
        assert (Hx : executed p = true).
        { destruct (executed p) eqn:Hx; [reflexivity|].
          destruct (T1 eq_refl); congruence. }
        rewrite (G6 Hx). repeat split; lia.
Qed.

Lemma times_iteration_dps (s : State) :
  times_invariant s -> times_invariant (iteration s).
Proof.
  intros H. unfold iteration. cbv zeta.
  assert (Ha : times_invariant (arrivals s))
    by (apply times_fold; [apply times_arrive_now_dps|exact H]).
  destruct (isQueueEmpty _);
    [now apply times_idle_dps|now apply times_dispatch].
Qed.

Lemma times_initial_dps (input : list Input) :
  valid_input input -> times_invariant (initial_state input).
Proof.
  intros Hv. split; [constructor|]. simpl. split.
  - induction Hv as [|x input Hx _ IH]; simpl; constructor; [|exact IH].
    destruct x as [[[[[[i a] b] dl] c] pe] sp]. simpl in Hx.
    unfold process_ok. simpl. lia.
  - apply Forall_forall. intros p Hp.
    apply in_map_iff in Hp as (x & <- & _).
    destruct x as [[[[[[i a] b] d] c] pe] sp].
    unfold times_ok. simpl. repeat split; discriminate.
Qed.

Lemma times_iterate_dps (input : list Input) (k : nat) :
  valid_input input -> times_invariant (iterate k (initial_state input)).
Proof.
  intros Hv.
  assert (H : forall s, times_invariant s -> times_invariant (iterate k s)).
  { induction k as [|k IH]; intros s Hs; simpl; [exact Hs|].
    now apply IH, times_iteration_dps. }
  now apply H, times_initial_dps.
Qed.

(** DPS-DTQ.c: after any number of iterations of the loop of
    [runDPS_DTQ], on an
    input whose burst times are not negative and whose ids are not -1,
    every pointer of the ready queue denotes a process that has arrived,
    and a process flagged completed was first dispatched at or after its
    arrival and completed at least its burst time later, so that the
    recorded times are consistent and not negative:
    0 <= response_time <= waiting_time,
    turnaround_time = waiting_time + burst_time,
    completion_time = arrival_time + turnaround_time <= current_time. *)
Theorem dps_recorded_times_are_consistent (input : list Input) (k : nat) :
  valid_input input ->
  let s := iterate k (initial_state input) in
  Forall (fun i => exists p, nth_error (processes s) i = Some p
                             /\ arrival_time p <= current_time s)
    (ready_queue s)
  /\ Forall (fun p => completed p = true ->
               arrival_time p <= first_execution_time p
               /\ response_time p = first_execution_time p - arrival_time p
               /\ 0 <= response_time p <= waiting_time p
               /\ turnaround_time p = waiting_time p + burst_time p
               /\ completion_time p = arrival_time p + turnaround_time p
               /\ completion_time p <= current_time s)
       (processes s).
Proof.
  intros Hv s.
  destruct (times_iterate_dps input k Hv) as (Hq & _ & Hps).
  split; [exact Hq|].
  revert Hps. apply Forall_impl. intros p (T1 & T2 & T3) Hc.
  destruct (T3 Hc) as (A & B & C & D1 & D2).
  assert (Hx : executed p = true).
  { destruct (executed p) eqn:Hx; [reflexivity|].
    destruct (T1 eq_refl); congruence. }
  destruct (T2 Hx) as [X1 X2]. unfold run_time in X2. subst s.
  repeat split; lia.
Qed.

Lemma dps_recorded_times_witness :
  let s := iterate 6 (initial_state Scenario.dps_input) in
  Forall (fun i => exists p, nth_error (processes s) i = Some p
                             /\ arrival_time p <= current_time s)
    (ready_queue s)
  /\ Forall (fun p => completed p = true ->
               arrival_time p <= first_execution_time p
               /\ response_time p = first_execution_time p - arrival_time p
               /\ 0 <= response_time p <= waiting_time p
               /\ turnaround_time p = waiting_time p + burst_time p
               /\ completion_time p = arrival_time p + turnaround_time p
               /\ completion_time p <= current_time s)
       (processes s).
Proof.
  apply (dps_recorded_times_are_consistent Scenario.dps_input 6).
  repeat (constructor; [split; [discriminate|discriminate]|]). constructor.
Defined.

End DPSTimesFacts.
